(** * DensPart: variational Hirshfeld partitioning ([denspart/vh.py],
    [denspart/properties.py])

    A shallow embedding of the pro-molecule model, of the extended
    Kullback-Leibler evaluator [ekld], of the driver [optimize_pro_model]
    and of [compute_radial_moments], followed by the properties proved
    about them.

    Modelling conventions.
    - A Python float is an element of an abstract scalar type [F] that
      carries the operations the code uses ([Scalar]).  The structural
      results need no law of arithmetic and hold of every instance, the
      binary64 numbers of [FloatScalar] included.  The results that speak of
      sums being rearranged or of a product with zero vanishing assume the
      exact laws collected in [ScalarLaws]; binary64 arithmetic has rounding,
      infinities and NaN and does not satisfy them, and each such result says
      that it holds under exact arithmetic.
    - A one-dimensional NumPy array is a [list]; a two-dimensional one is a
      list of rows.  NumPy operations that can raise return an [outcome].
    - A [ProModel] is mutated in place by the Python code.  Methods are
      therefore computations [M A := ProModel -> outcome A * ProModel]: the
      second component is the model as the call leaves it, also when the call
      raises.  Each basis function owns its parameter array.
    - The parameters of a basis function ([fn.pars]) and the flat parameter
      vector are one-dimensional NumPy arrays of floats; atom indices and
      grid indices are natural numbers (no negative, wrapping index).
    - The abstract methods of [BasisFunction] and the external grid library
      are interfaces ([BasisOps], [GridOps]); their methods are total and do
      not touch the model.
    - Screen output ([print]), timing and NumPy's floating-point error state
      ([np.errstate]) are not modelled. *)

From Stdlib Require Import ZArith List String Lia.
From Stdlib Require Floats.PrimFloat.
From stdpp Require Import base tactics option list.
Import ListNotations.

Local Open Scope string_scope.
Local Open Scope list_scope.
Local Open Scope nat_scope.

(** ** Exceptions and outcomes *)

Inductive exn : Type :=
  | ValueError (msg : string)
  | IndexError (msg : string)
  | RuntimeError (msg : string).

Inductive outcome (A : Type) : Type :=
  | Ok (a : A)
  | Raise (e : exn).
Arguments Ok {A} a.
Arguments Raise {A} e.

#[export] Instance outcome_ret : MRet outcome := fun A a => Ok a.
#[export] Instance outcome_bind : MBind outcome := fun A B f o =>
  match o with
  | Ok a => f a
  | Raise e => Raise e
  end.

(** [for x in xs: acc = body(acc, x)] where the body may raise. *)
Fixpoint foldM {A B : Type} (body : A -> B -> outcome A) (acc : A) (xs : list B)
  : outcome A :=
  match xs with
  | [] => Ok acc
  | x :: rest =>
      match body acc x with
      | Ok acc' => foldM body acc' rest
      | Raise e => Raise e
      end
  end.

(** [[f(x) for x in xs]] where [f] may raise. *)
Fixpoint forM {A B : Type} (f : A -> outcome B) (xs : list A) : outcome (list B) :=
  match xs with
  | [] => Ok []
  | x :: rest =>
      match f x with
      | Ok y =>
          match forM f rest with
          | Ok ys => Ok (y :: ys)
          | Raise e => Raise e
          end
      | Raise e => Raise e
      end
  end.

(** The spec's names for the two fatal conditions raised by [vh.py]. *)
Definition ConfigurationError (e : exn) : Prop :=
  e = ValueError "The number of parameters must equal the number of bounds.".

Definition ConvergenceError (e : exn) : Prop :=
  e = RuntimeError "Convergence failure.".

(** ** Scalars *)

Class Scalar (F : Type) : Type := {
  of_Z : Z -> F;                (* float(n) *)
  lit : Z -> Z -> F;            (* the literal [m]e[k], as in 1e-15 *)
  add : F -> F -> F;
  sub : F -> F -> F;
  mul : F -> F -> F;
  div : F -> F -> F;
  log : F -> F;                 (* np.log *)
  pow : F -> Z -> F;            (* x ** n *)
  ltb : F -> F -> bool;         (* x < y *)
}.

Definition zero {F} `{Scalar F} : F := of_Z 0.

(** Exact arithmetic: the laws of a commutative ring that the proofs about
    rearranged sums and vanishing products use. *)
Class ScalarLaws (F : Type) `{Scalar F} : Prop := {
  add_comm : forall x y : F, add x y = add y x;
  add_assoc : forall x y z : F, add x (add y z) = add (add x y) z;
  add_0_l : forall x : F, add zero x = x;
  sub_0_r : forall x : F, sub x zero = x;
  sub_add_distr : forall x y z : F, sub x (add y z) = sub (sub x y) z;
  add_sub_assoc : forall x y z : F, add x (sub y z) = sub (add x y) z;
  mul_0_l : forall x : F, mul zero x = zero;
  mul_0_r : forall x : F, mul x zero = zero;
}.

(** Integer scalars, used to run the model on concrete inputs.  Division is
    floor division, the logarithm is the integer logarithm to base two and a
    literal with a negative exponent is [0]: a run of this instance shows
    which path the code takes and how the arrays are laid out, its numbers
    are those of integer arithmetic and not those of binary64.  No general
    result depends on the instance. *)
Module ZScalar.
#[export] Instance Z_scalar : Scalar Z := {|
  of_Z := fun z => z;
  lit := fun m k => (m * 10 ^ k)%Z;
  add := Z.add;
  sub := Z.sub;
  mul := Z.mul;
  div := Z.div;
  log := Z.log2;
  pow := Z.pow;
  ltb := Z.ltb;
|}.
End ZScalar.

(** Binary64 scalars: Python floats as primitive IEEE 754 binary64 numbers.
    Addition, subtraction, multiplication, division and comparison are the
    IEEE operations (round to nearest, ties to even; a comparison with NaN
    is false).  [float(n)] is exact for [|n| <= 2^53].  The literal [m]e[k]
    is [m] multiplied or divided by [10^|k|]: the nearest binary64 number
    when [m] and the power are exact, as for [1e-15].  [x ** n] is taken by
    repeated multiplication.  The logarithm is not a primitive operation: it
    is an argument of the instance. *)
Module FloatScalar.
Import (notations) PrimFloat.
Local Open Scope float_scope.

Fixpoint float_of_pos (p : positive) : PrimFloat.float :=
  match p with
  | xH => 1
  | xO q => 2 * float_of_pos q
  | xI q => 2 * float_of_pos q + 1
  end.

Definition float_of_Z (z : Z) : PrimFloat.float :=
  match z with
  | Z0 => 0
  | Zpos p => float_of_pos p
  | Zneg p => - float_of_pos p
  end.

Fixpoint float_pow_nat (x : PrimFloat.float) (n : nat) : PrimFloat.float :=
  match n with
  | O => 1
  | S k => x * float_pow_nat x k
  end.

Definition float_pow (x : PrimFloat.float) (n : Z) : PrimFloat.float :=
  match n with
  | Zneg p => 1 / float_pow_nat x (Pos.to_nat p)
  | _ => float_pow_nat x (Z.to_nat n)
  end.

Definition float_lit (m k : Z) : PrimFloat.float :=
  match k with
  | Zneg p => float_of_Z m / float_pow_nat 10 (Pos.to_nat p)
  | _ => float_of_Z m * float_pow_nat 10 (Z.to_nat k)
  end.

Definition float_scalar (flog : PrimFloat.float -> PrimFloat.float)
  : Scalar PrimFloat.float := {|
  of_Z := float_of_Z;
  lit := float_lit;
  add := PrimFloat.add;
  sub := PrimFloat.sub;
  mul := PrimFloat.mul;
  div := PrimFloat.div;
  log := flog;
  pow := float_pow;
  ltb := PrimFloat.ltb;
|}.
End FloatScalar.

(** ** One-dimensional NumPy arrays *)

Section NumPy.
Context {F : Type} `{Scalar F}.

(** [np.zeros(n)] *)
Definition np_zeros (n : nat) : list F := replicate n zero.

(** Left-to-right sum starting from [0], as Python's [sum]; also the order
    chosen for NumPy reductions. *)
Definition fsum (xs : list F) : F := fold_left add xs zero.

(** [a[lo:hi]]: a slice is clamped to the array, it never raises. *)
Definition np_slice {A : Type} (a : list A) (lo hi : nat) : list A :=
  take (hi - lo) (drop lo a).

(** Broadcasting of a one-dimensional value to length [n]: the value has
    length [n], or it has length one and is repeated. *)
Definition np_broadcast_to {A : Type} (n : nat) (b : list A) : outcome (list A) :=
  if decide (length b = n) then Ok b
  else match b with
       | [x] => Ok (replicate n x)
       | _ => Raise (ValueError "could not broadcast input array")
       end.

(** A binary ufunc on two one-dimensional operands. *)
Definition np_ufunc2 {A B C : Type} (f : A -> B -> C) (a : list A) (b : list B)
  : outcome (list C) :=
  if decide (length a = length b) then Ok (zip_with f a b)
  else match a, b with
       | [x], _ => Ok (map (f x) b)
       | _, [y] => Ok (map (fun x => f x y) a)
       | _, _ => Raise (ValueError "operands could not be broadcast together")
       end.

(** [a[:] = b] for a one-dimensional array [a]. *)
Definition np_assign_all {A : Type} (a b : list A) : outcome (list A) :=
  np_broadcast_to (length a) b.

(** [a[lo:hi] = b] *)
Definition np_assign_slice {A : Type} (a : list A) (lo hi : nat) (b : list A)
  : outcome (list A) :=
  v ← np_broadcast_to (length (np_slice a lo hi)) b;
  Ok (take lo a ++ v ++ drop (lo + length v) a).

(** [a += b] in place *)
Definition np_iadd (a b : list F) : outcome (list F) :=
  v ← np_broadcast_to (length a) b;
  Ok (zip_with add a v).

(** [a[i] = f(a[i])] for an index [i]. *)
Definition np_update_at {A : Type} (f : A -> A) (a : list A) (i : nat)
  : outcome (list A) :=
  match a !! i with
  | Some x => Ok (<[i := f x]> a)
  | None => Raise (IndexError "index out of bounds")
  end.

(** [np.add.at(a, indices, b)]: unbuffered, repeated indices accumulate.
    The indices are checked before the values are broadcast to them. *)
Definition np_add_at (a : list F) (indices : list nat) (b : list F)
  : outcome (list F) :=
  if decide (Forall (fun i => i < length a) indices) then
    v ← np_broadcast_to (length indices) b;
    foldM (fun acc '(i, x) => np_update_at (fun y => add y x) acc i)
          a (zip indices v)
  else Raise (IndexError "index out of bounds").

(** [a[indices]] with an integer index array *)
Definition np_take {A : Type} (a : list A) (indices : list nat) : outcome (list A) :=
  forM (fun i => match a !! i with
                 | Some x => Ok x
                 | None => Raise (IndexError "index out of bounds")
                 end) indices.

(** [a[mask] = x] with a boolean mask and a scalar [x] *)
Definition np_assign_mask {A : Type} (a : list A) (mask : list bool) (x : A)
  : outcome (list A) :=
  if decide (length mask = length a)
  then Ok (zip_with (fun (s : bool) y => if s then x else y) mask a)
  else Raise (IndexError "boolean index did not match indexed array").

(** [np.einsum("i,i", a, b)] *)
Definition np_einsum_i_i (a b : list F) : outcome F :=
  ab ← np_ufunc2 mul a b;
  Ok (fsum ab).

(** [np.einsum("i,i,i", a, b, c)] *)
Definition np_einsum_i_i_i (a b c : list F) : outcome F :=
  ab ← np_ufunc2 mul a b;
  abc ← np_ufunc2 mul ab c;
  Ok (fsum abc).

(** [np.einsum("i,i,ji", a, b, m)]: one contraction per row of [m]. *)
Definition np_einsum_i_i_ji (a b : list F) (m : list (list F)) : outcome (list F) :=
  forM (np_einsum_i_i_i a b) m.

(** [np.concatenate(arrays)] *)
Definition np_concatenate (arrays : list (list F)) : outcome (list F) :=
  match arrays with
  | [] => Raise (ValueError "need at least one array to concatenate")
  | _ => Ok (concat arrays)
  end.
End NumPy.

(** ** Basis functions *)

Section BasisFunction.
Context {F Point : Type}.

Record BasisFunction : Type := mkBasisFunction {
  iatom : nat;
  center : Point;
  pars : list F;
  bounds : list (F * F);
}.

(** [BasisFunction.__init__] *)
Definition BasisFunction_init (iatom : nat) (center : Point) (pars : list F)
    (bounds : list (F * F)) : outcome BasisFunction :=
  if negb (length pars =? length bounds)
  then Raise (ValueError "The number of parameters must equal the number of bounds.")
  else Ok (mkBasisFunction iatom center pars bounds).

(** [BasisFunction.npar] *)
Definition npar (fn : BasisFunction) : nat := length (pars fn).

Definition set_pars (fn : BasisFunction) (v : list F) : BasisFunction :=
  mkBasisFunction (iatom fn) (center fn) v (bounds fn).
End BasisFunction.
Arguments BasisFunction : clear implicits.

(** The methods every shape family implements ([population],
    [population_derivatives], [get_cutoff_radius], [compute],
    [compute_derivatives]); the base class raises [NotImplementedError]. *)
Class BasisOps (F Point : Type) : Type := {
  population : BasisFunction F Point -> F;
  population_derivatives : BasisFunction F Point -> list F;
  get_cutoff_radius : BasisFunction F Point -> F -> F;
  compute : BasisFunction F Point -> list Point -> list F;
  compute_derivatives : BasisFunction F Point -> list Point -> list (list F);
}.

(** Shapes of what the methods return: one value per point, one derivative
    per parameter, and a derivative matrix with one row per parameter and one
    column per point, as the contraction ["i,i,ji"] of [ekld] reads it. *)
Class BasisShapes (F Point : Type) `{BasisOps F Point} : Prop := {
  compute_length : forall fn pts, length (compute fn pts) = length pts;
  population_derivatives_length :
    forall fn, length (population_derivatives fn) = npar fn;
  compute_derivatives_rows :
    forall fn pts, length (compute_derivatives fn pts) = npar fn;
  compute_derivatives_cols :
    forall fn pts row, row ∈ compute_derivatives fn pts -> length row = length pts;
}.

(** ** Grids (external collaborator) *)

Section Grid.
Context {F Point : Type}.

Record Grid : Type := mkGrid {
  points : list Point;
  weights : list F;
}.

(** A local grid is a grid that also knows the positions of its points in
    the parent grid. *)
Record LocalGrid : Type := mkLocalGrid {
  lgrid :> Grid;
  indices : list nat;
}.
End Grid.
Arguments Grid : clear implicits.
Arguments LocalGrid : clear implicits.

(** What the code uses of the grid library and of NumPy's linear algebra. *)
Class GridOps (F Point : Type) : Type := {
  (* grid.get_localgrid(center, radius) *)
  get_localgrid : Grid F Point -> Point -> F -> LocalGrid F Point;
  (* localgrid.integrate(a, b, ...) *)
  integrate : LocalGrid F Point -> list (list F) -> F;
  (* np.linalg.norm(p - c) for one point p *)
  distance : Point -> Point -> F;
}.

(** ** The pro-molecule model *)

Section ProModel.
Context {F Point : Type} `{Scalar F} `{BasisOps F Point}.

Record ProModel : Type := mkProModel {
  atnums : list Z;
  atcoords : list Point;
  fns : list (BasisFunction F Point);
  ncompute : Z;
}.

(** [ProModel.__init__] *)
Definition ProModel_init (atnums : list Z) (atcoords : list Point)
    (fns : list (BasisFunction F Point)) : ProModel :=
  mkProModel atnums atcoords fns 0.

(** Computations on a model that is mutated in place. *)
Definition M (A : Type) : Type := ProModel -> outcome A * ProModel.

#[export] Instance M_ret : MRet M := fun A a m => (Ok a, m).
#[export] Instance M_bind : MBind M := fun A B f c m =>
  match c m with
  | (Ok a, m') => f a m'
  | (Raise e, m') => (Raise e, m')
  end.

Definition get : M ProModel := fun m => (Ok m, m).
Definition put (m' : ProModel) : M unit := fun _ => (Ok tt, m').
Definition lift {A : Type} (o : outcome A) : M A := fun m => (o, m).

Definition set_fns (m : ProModel) (fns' : list (BasisFunction F Point)) : ProModel :=
  mkProModel (atnums m) (atcoords m) fns' (ncompute m).

Definition set_ncompute (m : ProModel) (n : Z) : ProModel :=
  mkProModel (atnums m) (atcoords m) (fns m) n.

(** [ProModel.natom] *)
Definition natom (m : ProModel) : nat := length (atnums m).

(** [charges[fn.iatom] -= fn.population] *)
Definition charges_step (charges : list F) (fn : BasisFunction F Point)
  : outcome (list F) :=
  np_update_at (fun c => sub c (population fn)) charges (iatom fn).

(** [ProModel.charges] *)
Definition charges : M (list F) := fun m =>
  (foldM charges_step (map of_Z (atnums m)) (fns m), m).

(** [ProModel.get_results] *)
Record Results : Type := mkResults {
  atnfn : list Z;
  atnpar : list Z;
  propars : list F;
}.

(** [atnfn[fn.iatom] += 1; atnpar[fn.iatom] += len(fn.pars)] *)
Definition count_step (counts : list Z * list Z) (fn : BasisFunction F Point)
  : outcome (list Z * list Z) :=
  atnfn' ← np_update_at (fun c => (c + 1)%Z) (fst counts) (iatom fn);
  atnpar' ← np_update_at (fun c => (c + Z.of_nat (length (pars fn)))%Z)
                         (snd counts) (iatom fn);
  Ok (atnfn', atnpar').

Definition get_results : M Results := fun m =>
  (counts ← foldM count_step
                  (replicate (natom m) 0%Z, replicate (natom m) 0%Z) (fns m);
   propars ← np_concatenate (map pars (fns m));
   Ok (mkResults (fst counts) (snd counts) propars),
   m).

(** [ProModel.population] *)
Definition model_population (m : ProModel) : F :=
  fsum (map population (fns m)).

(** The loop of [assign_pars]; the functions already visited keep their
    new parameters when a later assignment raises. *)
Fixpoint assign_pars_loop (pars' : list F) (ipar : nat)
    (fs : list (BasisFunction F Point))
  : outcome unit * list (BasisFunction F Point) :=
  match fs with
  | [] => (Ok tt, [])
  | fn :: rest =>
      match np_assign_all (pars fn) (np_slice pars' ipar (ipar + npar fn)) with
      | Ok v =>
          let fn' := set_pars fn v in
          let '(o, rest') := assign_pars_loop pars' (ipar + npar fn') rest in
          (o, fn' :: rest')
      | Raise e => (Raise e, fn :: rest)
      end
  end.

(** [ProModel.assign_pars] *)
Definition assign_pars (pars' : list F) : M unit := fun m =>
  let '(o, fns') := assign_pars_loop pars' 0 (fns m) in
  (o, set_fns m fns').

(** The accumulation loop of [compute_density]; [zip] stops at the shorter
    of the two lists. *)
Definition density_loop (n : nat) (fs : list (BasisFunction F Point))
    (localgrids : list (LocalGrid F Point)) : outcome (list F) :=
  foldM (fun pro '(fn, localgrid) =>
           np_add_at pro (indices localgrid) (compute fn (points localgrid)))
        (np_zeros n) (zip fs localgrids).

(** [ProModel.compute_density] *)
Definition compute_density (grid : Grid F Point)
    (localgrids : list (LocalGrid F Point)) : M (list F) := fun m =>
  let m' := set_ncompute m (ncompute m + 1) in
  (density_loop (length (weights grid)) (fns m') localgrids, m').

(** [ProModel.compute_proatom] *)
Definition compute_proatom (iatom' : nat) (grid : Grid F Point) : M (list F) :=
  fun m =>
  (foldM (fun pro fn =>
            if decide (iatom fn = iatom')
            then np_iadd pro (compute fn (points grid))
            else Ok pro)
         (np_zeros (length (weights grid))) (fns m),
   m).
End ProModel.
Arguments ProModel : clear implicits.

(** ** The extended Kullback-Leibler divergence and its gradient *)

Section Ekld.
Context {F Point : Type} `{Scalar F} `{BasisOps F Point}.

(** The gradient loop of [ekld]. *)
Fixpoint gradient_loop (fs : list (BasisFunction F Point)) (ifn ipar : nat)
    (localgrids : list (LocalGrid F Point)) (ratio gradient : list F)
  : outcome (list F) :=
  match fs with
  | [] => Ok gradient
  | fn :: rest =>
      match (localgrids !! ifn : option (LocalGrid F Point)) with
      | None => Raise (IndexError "list index out of range")
      | Some localgrid =>
          let fn_derivatives := compute_derivatives fn (points localgrid) in
          ratio_local ← np_take ratio (indices localgrid);
          proj ← np_einsum_i_i_ji (weights localgrid) ratio_local fn_derivatives;
          slice ← np_ufunc2 sub (population_derivatives fn) proj;
          gradient' ← np_assign_slice gradient ipar (ipar + npar fn) slice;
          gradient_loop rest (S ifn) (ipar + npar fn) localgrids ratio gradient'
      end
  end.

(** The default of [ekld]'s [density_cutoff]. *)
Definition ekld_default_cutoff : F := lit 1 (-15).

(** [ekld] *)
Definition ekld (pars' : list F) (grid : Grid F Point) (density : list F)
    (localgrids : list (LocalGrid F Point)) (pop density_cutoff : F)
  : M (F * list F) :=
  _ ← assign_pars pars';
  pro ← compute_density grid localgrids;
  sick ← lift (np_ufunc2 orb (map (fun d => ltb d density_cutoff) density)
                             (map (fun p => ltb p density_cutoff) pro));
  lnratio ← lift (np_ufunc2 sub (map log density) (map log pro));
  ratio ← lift (np_ufunc2 div density pro);
  lnratio ← lift (np_assign_mask lnratio sick zero);
  ratio ← lift (np_assign_mask ratio sick zero);
  kld ← lift (np_einsum_i_i_i (weights grid) density lnratio);
  m ← get;
  let constraint := sub pop (model_population m) in
  let result := sub kld constraint in
  gradient ← lift (gradient_loop (fns m) 0 0 localgrids ratio
                                 (np_zeros (length pars')));
  mret (result, gradient).
End Ekld.

(** ** The optimisation driver *)

Section Optimize.
Context {F Point : Type} `{Scalar F} `{BasisOps F Point} `{GridOps F Point}.

(** What [scipy.optimize.minimize] returns, as far as the driver reads it. *)
Record OptimizeResult : Type := mkOptimizeResult {
  x : list F;
  success : bool;
  message : string;
}.

(** The minimizer is a black box that evaluates the cost function at the
    points it chooses, any finite number of times, each choice depending on
    the values and gradients seen so far, and then returns a result or
    raises. *)
Inductive minimizer : Type :=
  | Finish (r : OptimizeResult)
  | Abort (e : exn)
  | Evaluate (x : list F) (k : F * list F -> minimizer).

Fixpoint run_minimizer (cost_grad : list F -> M (F * list F)) (s : minimizer)
    (m : ProModel F Point) : outcome OptimizeResult * ProModel F Point :=
  match s with
  | Finish r => (Ok r, m)
  | Abort e => (Raise e, m)
  | Evaluate x k =>
      match cost_grad x m with
      | (Ok vg, m') => run_minimizer cost_grad (k vg) m'
      | (Raise e, m') => (Raise e, m')
      end
  end.

(** [optimize_pro_model]; [minimize x0 bounds gtol] stands for SciPy's
    [minimize(..., method="trust-constr", jac=True, hess="2-point")]. *)
Definition optimize_pro_model
    (minimize : list F -> list (F * F) -> F -> minimizer)
    (grid : Grid F Point) (density : list F) (gtol density_cutoff : F)
  : M (ProModel F Point * list (LocalGrid F Point)) :=
  pro_model ← get;
  let localgrids :=
    map (fun fn => get_localgrid grid (center fn)
                     (get_cutoff_radius fn density_cutoff))
        (fns pro_model) in
  pop ← lift (np_einsum_i_i (weights grid) density);
  pars0 ← lift (np_concatenate (map pars (fns pro_model)));
  let cost_grad := fun pars' =>
    ekld pars' grid density localgrids pop ekld_default_cutoff in
  let bounds' := concat (map bounds (fns pro_model)) in
  optresult ← (run_minimizer cost_grad (minimize pars0 bounds' gtol) : M _);
  if negb (success optresult)
  then lift (Raise (RuntimeError "Convergence failure."))
  else
    _ ← charges;
    _ ← assign_pars (x optresult);
    pro_model' ← get;
    mret (pro_model', localgrids).

(** [optimize_pro_model]'s defaults for [gtol] and [density_cutoff]. *)
Definition optimize_default_gtol : F := lit 1 (-8).
Definition optimize_default_cutoff : F := lit 1 (-10).
End Optimize.

(** ** Radial moments ([properties.py]) *)

Section Properties.
Context {F Point : Type} `{Scalar F} `{BasisOps F Point} `{GridOps F Point}.

(** [result[iatom, degree] = v] on a two-dimensional array *)
Definition np_assign_2d (result : list (list F)) (i j : nat) (v : F)
  : outcome (list (list F)) :=
  match result !! i with
  | None => Raise (IndexError "index out of bounds")
  | Some row =>
      match row !! j with
      | None => Raise (IndexError "index out of bounds")
      | Some _ => Ok (<[i := <[j := v]> row]> result)
      end
  end.

(** The body of the loop over atoms. *)
Definition radial_moments_atom (grid : Grid F Point) (density pro : list F)
    (nmax : Z) (result : list (list F)) (iatom' : nat) (atcoord : Point)
  : M (list (list F)) :=
  let localgrid := get_localgrid grid atcoord (lit 8 0) in
  let dists := map (fun p => distance p atcoord) (points localgrid) in
  pro_atom ← compute_proatom iatom' localgrid;
  pro_local ← lift (np_take pro (indices localgrid));
  ratio ← lift (np_ufunc2 div pro_atom pro_local);
  lift (foldM (fun result degree =>
                 density_local ← np_take density (indices localgrid);
                 np_assign_2d result iatom' degree
                   (integrate localgrid
                      [density_local;
                       map (fun d => pow d (Z.of_nat degree)) dists;
                       ratio]))
              result (seq 0 (Z.to_nat (nmax + 1)))).

Fixpoint radial_moments_loop (grid : Grid F Point) (density pro : list F)
    (nmax : Z) (result : list (list F)) (iatom' : nat) (coords : list Point)
  : M (list (list F)) :=
  match coords with
  | [] => mret result
  | atcoord :: rest =>
      result' ← radial_moments_atom grid density pro nmax result iatom' atcoord;
      radial_moments_loop grid density pro nmax result' (S iatom') rest
  end.

(** [compute_radial_moments] *)
Definition compute_radial_moments (grid : Grid F Point) (density : list F)
    (localgrids : list (LocalGrid F Point)) (nmax : Z) : M (list (list F)) :=
  pro ← compute_density grid localgrids;
  pro_model ← get;
  result ← lift (if (nmax + 1 <? 0)%Z
                 then Raise (ValueError "negative dimensions are not allowed")
                 else Ok (replicate (natom pro_model)
                                    (np_zeros (Z.to_nat (nmax + 1)))));
  radial_moments_loop grid density pro nmax result 0 (atcoords pro_model).

Definition radial_moments_default_nmax : Z := 4.
End Properties.

(** ** A one-dimensional integer instance

    Points are integers on a line, scalars are integers.  The shape family is
    a box: a function takes the value [sum pars] at every point within
    distance [2] of its centre and [0] elsewhere.  The instance serves to run
    the model on concrete inputs. *)

Module Line.
Export ZScalar.

Definition box_value (fn : BasisFunction Z Z) (p : Z) : Z :=
  if (Z.abs (p - center fn) <=? 2)%Z then fsum (pars fn) else 0%Z.

#[export] Instance box_ops : BasisOps Z Z := {|
  population := fun fn => (5 * fsum (pars fn))%Z;
  population_derivatives := fun fn => map (fun _ => 5%Z) (pars fn);
  get_cutoff_radius := fun _ _ => 2%Z;
  compute := fun fn pts => map (box_value fn) pts;
  compute_derivatives := fun fn pts =>
    map (fun _ => map (fun p => if (Z.abs (p - center fn) <=? 2)%Z
                                then 1%Z else 0%Z) pts) (pars fn);
|}.

(** The points of [grid] within [radius] of [c], with their positions. *)
Definition restrict (grid : Grid Z Z) (c radius : Z) : LocalGrid Z Z :=
  let sel := filter (fun '(i, (p, w)) => (Z.abs (p - c) <= radius)%Z)
                    (zip (seq 0 (length (points grid)))
                         (zip (points grid) (weights grid))) in
  mkLocalGrid (mkGrid (map (fun t => fst (snd t)) sel)
                      (map (fun t => snd (snd t)) sel))
              (map fst sel).

(** Weighted sum of the element-wise product of the arrays. *)
Definition integrate_line (lg : LocalGrid Z Z) (arrays : list (list Z)) : Z :=
  fsum (fold_left (zip_with Z.mul) arrays (weights lg)).

#[export] Instance line_grid : GridOps Z Z := {|
  get_localgrid := restrict;
  integrate := integrate_line;
  distance := fun p c => Z.abs (p - c);
|}.

(** Five unit-weight points [0..4]; two atoms at [1] and [3]. *)
Definition grid5 : Grid Z Z := mkGrid [0; 1; 2; 3; 4]%Z [1; 1; 1; 1; 1]%Z.
Definition density5 : list Z := [2; 3; 4; 3; 2]%Z.

Definition fn_a : BasisFunction Z Z := mkBasisFunction 0 1%Z [1; 1]%Z [(0, 9); (0, 9)]%Z.
Definition fn_b : BasisFunction Z Z := mkBasisFunction 1 3%Z [2]%Z [(0, 9)]%Z.

Definition model2 : ProModel Z Z := ProModel_init [1; 2]%Z [1; 3]%Z [fn_a; fn_b].

Definition localgrids2 : list (LocalGrid Z Z) :=
  map (fun fn => get_localgrid grid5 (center fn) (get_cutoff_radius fn 0%Z))
      (fns model2).

(** [model2] with other parameters and another counter. *)
Definition model2_at (pa pb : list Z) (n : Z) : ProModel Z Z :=
  mkProModel [1; 2]%Z [1; 3]%Z [set_pars fn_a pa; set_pars fn_b pb] n.

(** A model with the single function [fn_a]. *)
Definition model1 : ProModel Z Z := ProModel_init [1]%Z [1]%Z [fn_a].

(** A model without basis functions. *)
Definition model0 : ProModel Z Z := ProModel_init [1; 2]%Z [1; 3]%Z [].

(** A minimizer that evaluates the cost at the initial guess, steps to the
    gradient it saw there and gives up. *)
Definition gives_up (x0 : list Z) (_ : list (Z * Z)) (_ : Z) : minimizer :=
  Evaluate x0 (fun vg =>
    Evaluate (snd vg) (fun _ =>
      Finish (mkOptimizeResult (snd vg) false "no convergence"))).

(** A minimizer that evaluates the cost once and reports success at the
    gradient it saw. *)
Definition settles (x0 : list Z) (_ : list (Z * Z)) (_ : Z) : minimizer :=
  Evaluate x0 (fun vg => Finish (mkOptimizeResult (snd vg) true "converged")).

(** A model whose second function points at an atom that does not exist. *)
Definition model_stray : ProModel Z Z := ProModel_init [1]%Z [1]%Z [fn_a; fn_b].

(** Local grids for [model2] of which the second holds the index [7], which
    the five-point grid does not have. *)
Definition localgrids_stray : list (LocalGrid Z Z) :=
  [restrict grid5 1 2; mkLocalGrid (mkGrid [3; 9]%Z [1; 1]%Z) [3; 7]].

(** [settles], refusing to start when the bounds do not match the initial
    vector in number. *)
Definition settles_checked (x0 : list Z) (bs : list (Z * Z)) (g : Z) : minimizer :=
  if length x0 =? length bs then settles x0 bs g
  else Abort (ValueError "bounds do not match the initial guess").
End Line.

(** ** A binary64 instance

    Scalars are binary64 numbers.  The shape family is flat: a function takes
    the value [sum pars] at every point and has the population [sum pars].
    The instance serves to run the model where rounding and overflow
    matter. *)

Module FloatLine.
Import (notations) PrimFloat.
Import FloatScalar.

(** The runs of this instance either take no logarithm or overwrite every
    logarithm they take; they are stated with this function in the place of
    [np.log] and proved with any function in its place. *)
Definition log_unused : PrimFloat.float -> PrimFloat.float := fun _ => 0%float.

#[export] Instance binary64 : Scalar PrimFloat.float := float_scalar log_unused.

Definition float_sum (xs : list PrimFloat.float) : PrimFloat.float :=
  fold_left PrimFloat.add xs 0%float.

#[export] Instance flat_ops : BasisOps PrimFloat.float Z := {|
  population := fun fn => float_sum (pars fn);
  population_derivatives := fun fn => map (fun _ => 1%float) (pars fn);
  get_cutoff_radius := fun _ _ => 1%float;
  compute := fun fn pts => map (fun _ => float_sum (pars fn)) pts;
  compute_derivatives := fun fn pts =>
    map (fun _ => map (fun _ => 1%float) pts) (pars fn);
|}.

(** One atom of atomic number [2] that carries two functions, each of
    population [2^-53]. *)
Definition fn_small : BasisFunction PrimFloat.float Z :=
  mkBasisFunction 0 0%Z [0x1p-53%float] [(0%float, 1%float)].

Definition model_small : ProModel PrimFloat.float Z :=
  ProModel_init [2]%Z [0]%Z [fn_small; fn_small].

(** One atom with one function of one parameter; a grid of one point, of
    weight [2^600], where the reference density is [2^600]. *)
Definition fn_flat : BasisFunction PrimFloat.float Z :=
  mkBasisFunction 0 0%Z [1%float] [(0%float, 1%float)].

Definition model_flat : ProModel PrimFloat.float Z :=
  ProModel_init [1]%Z [0]%Z [fn_flat].

Definition grid1 : Grid PrimFloat.float Z := mkGrid [0%Z] [0x1p600%float].
Definition density1 : list PrimFloat.float := [0x1p600%float].
Definition localgrids1 : list (LocalGrid PrimFloat.float Z) :=
  [mkLocalGrid grid1 [0]].
End FloatLine.

(** ** Layout of the flat parameter vector, and what the model is compared
    with *)

Section Layout.
Context {F Point : Type} `{Scalar F} `{BasisOps F Point}.

(** Sum of the parameter counts of a list of functions. *)
Definition total_npar (fs : list (BasisFunction F Point)) : nat :=
  sum_list (map npar fs).

(** Position in the flat vector at which the slice of function [k] starts. *)
Definition offset (fs : list (BasisFunction F Point)) (k : nat) : nat :=
  total_npar (take k fs).

(** The functions [fs], each holding the slice of [p] that starts where the
    previous one ended, the first at [ipar]. *)
Fixpoint assigned (fs : list (BasisFunction F Point)) (p : list F) (ipar : nat)
  : list (BasisFunction F Point) :=
  match fs with
  | [] => []
  | fn :: rest =>
      set_pars fn (np_slice p ipar (ipar + npar fn))
      :: assigned rest p (ipar + npar fn)
  end.

(** Every function belongs to an atom of the model. *)
Definition valid_iatoms (m : ProModel F Point) : Prop :=
  Forall (fun fn => iatom fn < natom m) (fns m).

(** Summed populations of the functions of atom [a]. *)
Definition atom_population (m : ProModel F Point) (a : nat) : F :=
  fsum (map population (filter (fun fn => iatom fn = a) (fns m))).

(** Value at point [i] of the pro-atom of atom [a]: the values of the
    functions of that atom, added up in function order. *)
Definition proatom_at (m : ProModel F Point) (a : nat) (pts : list Point)
    (i : nat) : F :=
  fsum (map (fun fn => nth i (compute fn pts) zero)
            (filter (fun fn => iatom fn = a) (fns m))).

(** A computation that leaves the model as it found it, whatever it returns
    or raises. *)
Definition preserves_model {A : Type} (c : M A) : Prop :=
  forall m : ProModel F Point, snd (c m) = m.
End Layout.

(** ** What [ekld] is compared with *)

Section EkldSpec.
Context {F Point : Type} `{Scalar F} `{BasisOps F Point}.

(** [f 0 + f 1 + ... + f (n-1)], added in index order. *)
Definition big_sum (n : nat) (f : nat -> F) : F := fsum (map f (seq 0 n)).

(** Point [i] is masked: the reference density or the model density there is
    below the cutoff. *)
Definition sick_at (density pro : list F) (cutoff : F) (i : nat) : bool :=
  ltb (nth i density zero) cutoff || ltb (nth i pro zero) cutoff.

(** [log(density) - log(model_density)] at point [i], zero where masked. *)
Definition lnratio_at (density pro : list F) (cutoff : F) (i : nat) : F :=
  if sick_at density pro cutoff i then zero
  else sub (log (nth i density zero)) (log (nth i pro zero)).

(** [density / model_density] at point [i], zero where masked. *)
Definition ratio_at (density pro : list F) (cutoff : F) (i : nat) : F :=
  if sick_at density pro cutoff i then zero
  else div (nth i density zero) (nth i pro zero).

(** The term of grid point [i] in the divergence. *)
Definition kld_term (grid : Grid F Point) (density : list F) (lnratio : nat -> F)
    (i : nat) : F :=
  mul (mul (nth i (weights grid) zero) (nth i density zero)) (lnratio i).

(** The term of local point [k] in the projection of [ratio] onto the
    derivative of function [fn] with respect to its parameter [j]. *)
Definition projection_term (fn : BasisFunction F Point) (localgrid : LocalGrid F Point)
    (ratio : nat -> F) (j k : nat) : F :=
  mul (mul (nth k (weights localgrid) zero) (ratio (nth k (indices localgrid) 0)))
      (nth k (nth j (compute_derivatives fn (points localgrid)) []) zero).

(** The gradient with respect to the parameters of one function: analytic
    population derivative minus the projection over the local grid. *)
Definition gradient_slice (fn : BasisFunction F Point) (localgrid : LocalGrid F Point)
    (ratio : nat -> F) : list F :=
  map (fun j => sub (nth j (population_derivatives fn) zero)
                    (big_sum (length (indices localgrid))
                             (projection_term fn localgrid ratio j)))
      (seq 0 (npar fn)).

(** A local grid of a grid with [n] points: parallel arrays, indices below
    [n]. *)
Definition localgrid_wf (n : nat) (localgrid : LocalGrid F Point) : Prop :=
  length (points localgrid) = length (indices localgrid) /\
  length (weights localgrid) = length (indices localgrid) /\
  Forall (fun i => i < n) (indices localgrid).

(** The arguments of [ekld] fit together: one density value per grid point
    and one local grid per basis function. *)
Definition ekld_inputs_wf (m : ProModel F Point) (grid : Grid F Point)
    (density : list F) (localgrids : list (LocalGrid F Point)) : Prop :=
  length density = length (weights grid) /\
  length localgrids = length (fns m) /\
  Forall (localgrid_wf (length (weights grid))) localgrids.

(** The model as [ekld] leaves it: parameters assigned, one more density
    evaluation counted. *)
Definition after_ekld (m : ProModel F Point) (p : list F) : ProModel F Point :=
  let m1 := set_fns m (assigned (fns m) p 0) in
  set_ncompute m1 (ncompute m1 + 1).
End EkldSpec.

(** ** What stays fixed while a model is optimised *)

Section Skeleton.
Context {F Point : Type}.

(** [fn'] is [fn] up to the values of its parameters: same atom, centre,
    bounds and parameter count. *)
Definition same_function (fn fn' : BasisFunction F Point) : Prop :=
  iatom fn' = iatom fn /\ center fn' = center fn /\
  bounds fn' = bounds fn /\ npar fn' = npar fn.

(** [m'] is [m] up to the values of the parameters and an evaluation counter
    that did not go down. *)
Definition same_skeleton (m m' : ProModel F Point) : Prop :=
  atnums m' = atnums m /\ atcoords m' = atcoords m /\
  Forall2 same_function (fns m) (fns m') /\
  (ncompute m <= ncompute m')%Z.

(** What [BasisFunction.__init__] checks. *)
Definition bounds_match (fn : BasisFunction F Point) : Prop :=
  length (pars fn) = length (bounds fn).

(** Sum of an integer array. *)
Definition zsum (l : list Z) : Z := fold_right Z.add 0%Z l.

(** The functions of atom [a]. *)
Definition fns_of_atom (m : ProModel F Point) (a : nat)
  : list (BasisFunction F Point) :=
  filter (fun fn => iatom fn = a) (fns m).

(** A computation that changes at most the values of the parameters and
    never lowers the evaluation counter, whatever it returns or raises. *)
Definition keeps_skeleton {A : Type} (c : M A) : Prop :=
  forall m : ProModel F Point, same_skeleton m (snd (c m)).
End Skeleton.

(** ** What [compute_density] is compared with *)

Section DensitySpec.
Context {F Point : Type} `{Scalar F} `{BasisOps F Point}.

(** The values that function [fn] adds to grid point [i] through its local
    grid: its values at the local points whose index is [i], in local
    order (an index may occur more than once). *)
Definition contributions (fn : BasisFunction F Point) (localgrid : LocalGrid F Point)
    (i : nat) : list F :=
  map snd (filter (fun jx => fst jx = i)
                  (zip (indices localgrid) (compute fn (points localgrid)))).

(** The model density at grid point [i]: all contributions, added function
    by function. *)
Definition density_at (fs : list (BasisFunction F Point))
    (localgrids : list (LocalGrid F Point)) (i : nat) : F :=
  fsum (concat (zip_with (fun fn lg => contributions fn lg i) fs localgrids)).

(** The whole grid seen as a local grid. *)
Definition whole_grid (grid : Grid F Point) : LocalGrid F Point :=
  mkLocalGrid grid (seq 0 (length (weights grid))).
End DensitySpec.

(** ** What [compute_radial_moments] is compared with *)

Section RadialSpec.
Context {F Point : Type} `{Scalar F} `{BasisOps F Point} `{GridOps F Point}.

(** A two-dimensional array with [rows] rows of [cols] entries. *)
Definition has_shape (rows cols : nat) (result : list (list F)) : Prop :=
  length result = rows /\ Forall (fun row => length row = cols) result.

(** The moment of degree [degree] of an atom at [atcoord] over its local
    grid: the integral of the density, times the distance to the atom to the
    power [degree], times the share [pro_atom / pro] of the atom. *)
Definition radial_moment (localgrid : LocalGrid F Point) (atcoord : Point)
    (density pro pro_atom : list F) (degree : nat) : F :=
  integrate localgrid
    [map (fun i => nth i density zero) (indices localgrid);
     map (fun d => pow d (Z.of_nat degree))
         (map (fun q => distance q atcoord) (points localgrid));
     zip_with div pro_atom (map (fun i => nth i pro zero) (indices localgrid))].

(** What [compute_proatom] returns for atom [a] on [grid]. *)
Definition proatom_array (m : ProModel F Point) (a : nat) (grid : Grid F Point)
  : list F :=
  map (proatom_at m a (points grid)) (seq 0 (length (points grid))).
End RadialSpec.

(** * Properties *)

(** ** Facts about the NumPy operations *)

Section NumPyFacts.
Context {F : Type} `{Scalar F}.

Lemma np_broadcast_to_same {A : Type} (n : nat) (b : list A) :
  length b = n -> np_broadcast_to n b = Ok b.
Proof. intros Hn. unfold np_broadcast_to. by rewrite decide_True. Qed.

Lemma np_broadcast_to_length {A : Type} (n : nat) (b v : list A) :
  np_broadcast_to n b = Ok v -> length v = n.
Proof.
  unfold np_broadcast_to. case_decide as Hn; [congruence|].
  destruct b as [|x [|y b]]; try discriminate.
  intros [= <-]. by rewrite length_replicate.
Qed.

Lemma np_ufunc2_same {A B C : Type} (f : A -> B -> C) (a : list A) (b : list B) :
  length a = length b -> np_ufunc2 f a b = Ok (zip_with f a b).
Proof. intros Hn. unfold np_ufunc2. by rewrite decide_True. Qed.

Lemma np_slice_length {A : Type} (a : list A) (lo n : nat) :
  lo + n <= length a -> length (np_slice a lo (lo + n)) = n.
Proof.
  intros Hle. unfold np_slice. rewrite length_take, length_drop. lia.
Qed.

Lemma np_update_at_length {A : Type} (f : A -> A) (a a' : list A) (i : nat) :
  np_update_at f a i = Ok a' -> length a' = length a.
Proof.
  unfold np_update_at. destruct (a !! i); [|discriminate].
  intros [= <-]. apply length_insert.
Qed.

Lemma np_update_at_ok {A : Type} (f : A -> A) (a : list A) (i : nat) :
  i < length a -> exists x, a !! i = Some x /\ np_update_at f a i = Ok (<[i := f x]> a).
Proof.
  intros Hi. destruct (lookup_lt_is_Some_2 a i Hi) as [x Hx].
  exists x. split; [done|]. unfold np_update_at. by rewrite Hx.
Qed.
End NumPyFacts.

Section BasisFunctionFacts.
Context {F Point : Type}.

(** C7.  Construction of a basis function whose parameter vector and bounds
  list differ in length raises the configuration error (the [ValueError]
  of [__init__]); with equal lengths it succeeds and the object stores
  [iatom], [center], [pars] and [bounds] as given.  Construction is a pure
  function of its four arguments: no model, grid or optimiser takes part. *)
Theorem BasisFunction_init_length_check
    (i : nat) (c : Point) (p : list F) (b : list (F * F)) :
  (length p <> length b ->
     exists e, BasisFunction_init i c p b = Raise e /\ ConfigurationError e) /\
  (length p = length b ->
     exists fn, BasisFunction_init i c p b = Ok fn /\
                iatom fn = i /\ center fn = c /\ pars fn = p /\ bounds fn = b).
Proof.
  unfold BasisFunction_init. split; intros Hlen.
  - apply Nat.eqb_neq in Hlen. rewrite Hlen. simpl.
    eexists. split; [reflexivity|]. reflexivity.
  - apply Nat.eqb_eq in Hlen. rewrite Hlen. simpl.
    eexists. split; [reflexivity|]. auto.
Qed.
End BasisFunctionFacts.

Lemma BasisFunction_init_length_check_witness :
  (exists e, BasisFunction_init 0 1%Z [1; 2; 3]%Z [(0, 9); (0, 9)]%Z = Raise e /\
             ConfigurationError e) /\
  (exists fn, BasisFunction_init 0 1%Z [1; 2]%Z [(0, 9); (0, 9)]%Z = Ok fn /\
              iatom fn = 0 /\ center fn = 1%Z /\ pars fn = [1; 2]%Z /\
              bounds fn = [(0, 9); (0, 9)]%Z).
Proof.
  split.
  - apply (BasisFunction_init_length_check 0 1%Z [1; 2; 3]%Z [(0, 9); (0, 9)]%Z).
    simpl. lia.
  - apply (BasisFunction_init_length_check 0 1%Z [1; 2]%Z [(0, 9); (0, 9)]%Z).
    reflexivity.
Defined.

(** ** Sums under the exact laws *)

Section SumFacts.
Context {F : Type} `{ScalarLaws F}.

Lemma add_0_r (x : F) : add x zero = x.
Proof. by rewrite add_comm, add_0_l. Qed.

Lemma fold_left_add_acc (l : list F) (a : F) :
  fold_left add l a = add a (fsum l).
Proof.
  unfold fsum. revert a. induction l as [|y l IH]; intros a; simpl.
  - by rewrite add_0_r.
  - rewrite (IH (add a y)), (IH (add zero y)), add_0_l. by rewrite add_assoc.
Qed.

Lemma fsum_cons (x : F) (l : list F) : fsum (x :: l) = add x (fsum l).
Proof.
  unfold fsum at 1. simpl. by rewrite fold_left_add_acc, add_0_l.
Qed.

Lemma fsum_nil : fsum ([] : list F) = zero.
Proof. reflexivity. Qed.

Lemma fsum_insert_sub (l : list F) (i : nat) (x p : F) :
  l !! i = Some x -> fsum (<[i := sub x p]> l) = sub (fsum l) p.
Proof.
  revert i. induction l as [|y l IH]; intros [|i] Hi; simpl in *; try discriminate.
  - injection Hi as ->. rewrite !fsum_cons.
    by rewrite (add_comm (sub x p)), add_sub_assoc, (add_comm (fsum l)).
  - rewrite !fsum_cons, (IH i Hi). by rewrite add_sub_assoc.
Qed.
End SumFacts.

(** ** The model: parameters, results, charges *)

Section ProModelFacts.
Context {F Point : Type} `{Scalar F} `{BasisOps F Point}.

Implicit Types (fs : list (BasisFunction F Point)) (p : list F)
  (m : ProModel F Point).

Lemma total_npar_cons fn fs : total_npar (fn :: fs) = npar fn + total_npar fs.
Proof. reflexivity. Qed.

Lemma assigned_length fs p ipar : length (assigned fs p ipar) = length fs.
Proof. revert ipar. induction fs; intros; simpl; auto. Qed.

Lemma assigned_iatom fs p ipar :
  Forall2 (fun fn' fn => iatom fn' = iatom fn) (assigned fs p ipar) fs.
Proof. revert ipar. induction fs; intros; simpl; constructor; auto. Qed.

Lemma assigned_npar fs p ipar :
  ipar + total_npar fs <= length p ->
  map npar (assigned fs p ipar) = map npar fs.
Proof.
  revert ipar. induction fs as [|fn fs IH]; intros ipar Hle; simpl; [done|].
  rewrite total_npar_cons in Hle. f_equal.
  - unfold npar at 1. simpl. apply np_slice_length. lia.
  - apply IH. lia.
Qed.

Lemma assigned_concat fs p ipar :
  ipar + total_npar fs <= length p ->
  concat (map pars (assigned fs p ipar)) = take (total_npar fs) (drop ipar p).
Proof.
  revert ipar. induction fs as [|fn fs IH]; intros ipar Hle; simpl.
  - by rewrite take_0.
  - rewrite total_npar_cons in *. rewrite IH by lia.
    unfold np_slice. replace (ipar + npar fn - ipar) with (npar fn) by lia.
    rewrite <- (drop_drop p (npar fn) ipar).
    by rewrite <- take_take_drop.
Qed.

(** A vector that reaches the end of the last slice is taken in without
    complaint. *)
Lemma assign_pars_loop_enough fs p ipar :
  ipar + total_npar fs <= length p ->
  assign_pars_loop p ipar fs = (Ok tt, assigned fs p ipar).
Proof.
  revert ipar. induction fs as [|fn fs IH]; intros ipar Hle;
    cbn [assign_pars_loop]; [done|].
  rewrite total_npar_cons in Hle.
  unfold np_assign_all. fold (npar fn). rewrite np_broadcast_to_same.
  2:{ apply np_slice_length. lia. }
  assert (Hn : npar (set_pars fn (np_slice p ipar (ipar + npar fn))) = npar fn).
  { unfold npar at 1. simpl. apply np_slice_length. lia. }
  rewrite Hn, IH by lia. done.
Qed.

Lemma assign_pars_enough m p :
  total_npar (fns m) <= length p ->
  assign_pars p m = (Ok tt, set_fns m (assigned (fns m) p 0)).
Proof.
  intros Hle. unfold assign_pars. by rewrite assign_pars_loop_enough.
Qed.

(** A vector that ends inside a slice either makes NumPy raise or leaves a
    single element, which is broadcast. *)
Lemma assign_pars_loop_short fs p ipar :
  ipar <= length p -> length p < ipar + total_npar fs ->
  (exists msg fs', assign_pars_loop p ipar fs = (Raise (ValueError msg), fs')) \/
  (exists k fn, fs !! k = Some fn /\ 1 < npar fn /\
                length p = ipar + offset fs k + 1).
Proof.
  revert ipar. induction fs as [|fn fs IH]; intros ipar Hlo Hhi.
  - unfold total_npar in Hhi. simpl in Hhi. lia.
  - rewrite total_npar_cons in Hhi. cbn [assign_pars_loop].
    destruct (decide (ipar + npar fn <= length p)) as [Hfull|Hcut].
    + unfold np_assign_all. fold (npar fn). rewrite np_broadcast_to_same.
      2:{ apply np_slice_length. lia. }
      assert (Hn : npar (set_pars fn (np_slice p ipar (ipar + npar fn))) = npar fn).
      { unfold npar at 1. simpl. apply np_slice_length. lia. }
      rewrite Hn.
      destruct (IH (ipar + npar fn)) as [(msg & fs' & Hr)|(k & fn' & Hk & Hn' & Hlen)];
        [lia|lia| |].
      * left. rewrite Hr. eauto.
      * right. exists (S k), fn'. split; [done|]. split; [done|].
        unfold offset in *. simpl. rewrite total_npar_cons. lia.
    + assert (Hs : length (np_slice p ipar (ipar + npar fn)) = length p - ipar).
      { unfold np_slice. rewrite length_take, length_drop. lia. }
      destruct (decide (length p - ipar = 1)) as [Hone|Hnot].
      * right. exists 0, fn. split; [done|]. split; [lia|].
        unfold offset, total_npar. simpl. lia.
      * left. unfold np_assign_all, np_broadcast_to.
        rewrite decide_False by (fold (npar fn); lia).
        destruct (np_slice p ipar (ipar + npar fn)) as [|y [|z l]] eqn:Hsl;
          simpl in Hs; [eauto| lia | eauto].
Qed.

Lemma count_loop_ok fs (a b : list Z) (n : nat) :
  length a = n -> length b = n -> Forall (fun fn => iatom fn < n) fs ->
  exists counts, foldM count_step (a, b) fs = Ok counts.
Proof.
  revert a b. induction fs as [|fn fs IH]; intros a b Ha Hb Hfs; simpl; [eauto|].
  inversion Hfs as [|? ? Hfn Hrest]; subst.
  unfold count_step at 1. simpl.
  destruct (np_update_at_ok (fun c => (c + 1)%Z) a (iatom fn)) as (x & _ & ->);
    [lia|].
  destruct (np_update_at_ok (fun c => (c + Z.of_nat (length (pars fn)))%Z) b (iatom fn))
    as (y & _ & ->); [lia|].
  simpl. apply IH; [by rewrite length_insert..|done].
Qed.

Lemma valid_iatoms_assigned m p ipar :
  valid_iatoms m -> valid_iatoms (set_fns m (assigned (fns m) p ipar)).
Proof.
  unfold valid_iatoms, natom. simpl. generalize (length (atnums m)) as n.
  intros n. revert ipar. induction (fns m) as [|fn fs IH]; intros ipar Hv; simpl.
  - constructor.
  - inversion Hv; subst. constructor; [done|]. by apply IH.
Qed.

(** C4 (amended).  [assign_pars] never compares the length of the flat vector
    with the total parameter count.  A vector longer than the total is
    accepted: the call returns normally, every function holds its contiguous
    slice, their concatenation is the prefix of the vector and the remainder
    is ignored.  A vector shorter than the total makes the NumPy slice
    assignment raise a [ValueError], unless the function at which the vector
    runs out is handed exactly one element, which NumPy broadcasts. *)
Theorem assign_pars_length_mismatch m p :
  (total_npar (fns m) < length p ->
     assign_pars p m = (Ok tt, set_fns m (assigned (fns m) p 0)) /\
     concat (map pars (assigned (fns m) p 0)) = take (total_npar (fns m)) p) /\
  (length p < total_npar (fns m) ->
     (exists msg m', assign_pars p m = (Raise (ValueError msg), m')) \/
     (exists k fn, fns m !! k = Some fn /\ 1 < npar fn /\
                   length p = offset (fns m) k + 1)).
Proof.
  split; intros Hlen.
  - split; [apply assign_pars_enough; lia|].
    rewrite assigned_concat by (simpl; lia). by rewrite drop_0.
  - destruct (assign_pars_loop_short (fns m) p 0) as [(msg & fs' & Hr)|Hb];
      [lia|simpl; lia| |].
    + left. unfold assign_pars. rewrite Hr. eauto.
    + right. exact Hb.
Qed.

(** C6 (amended).  For every model and every flat vector [p] whose length is
    the total parameter count, [assign_pars(p)] returns normally and whatever
    [get_results()] then returns has a ["propars"] entry equal to [p];
    [get_results()] does return when the model has at least one basis
    function and every atom index is within range. *)
Theorem assign_pars_get_results_roundtrip m p :
  length p = total_npar (fns m) ->
  exists m1,
    assign_pars p m = (Ok tt, m1) /\
    (forall r m2, get_results m1 = (Ok r, m2) -> propars r = p) /\
    (fns m <> [] -> valid_iatoms m ->
     exists r, get_results m1 = (Ok r, m1) /\ propars r = p).
Proof.
  intros Hlen.
  exists (set_fns m (assigned (fns m) p 0)).
  split; [apply assign_pars_enough; lia|].
  assert (Hcat : forall l, np_concatenate (map pars (assigned (fns m) p 0)) = Ok l ->
                           l = p).
  { intros l. unfold np_concatenate.
    destruct (map pars (assigned (fns m) p 0)) eqn:Hmap; [discriminate|].
    rewrite <- Hmap, assigned_concat by (simpl; lia).
    rewrite drop_0, <- Hlen, firstn_all. congruence. }
  split.
  - intros r m2. unfold get_results. simpl.
    destruct (foldM count_step _ _) as [counts|]; [|discriminate]. simpl.
    destruct (np_concatenate _) as [l|] eqn:Hl; [|discriminate]. simpl.
    intros [= <- _]. simpl. by apply Hcat.
  - intros Hne Hvalid.
    pose proof (valid_iatoms_assigned m p 0 Hvalid) as Hvalid'.
    destruct (count_loop_ok (assigned (fns m) p 0)
                (replicate (natom m) 0%Z) (replicate (natom m) 0%Z) (natom m))
      as [counts Hcounts]; [by rewrite length_replicate..|exact Hvalid'|].
    destruct (np_concatenate (map pars (assigned (fns m) p 0))) as [l|e] eqn:Hl.
    2:{ unfold np_concatenate in Hl. destruct (fns m); [done|discriminate]. }
    rewrite (Hcat l eq_refl) in Hl.
    exists (mkResults (fst counts) (snd counts) p).
    unfold get_results. simpl. unfold natom in *. simpl in *.
    rewrite Hcounts, Hl. done.
Qed.

(** The charges loop, started from any array long enough: every entry has
    the populations of the functions of its atom subtracted from it one
    after the other, in function order. *)
Lemma charges_loop_running fs (cs0 : list F) :
  Forall (fun fn => iatom fn < length cs0) fs ->
  exists cs,
    foldM charges_step cs0 fs = Ok cs /\
    length cs = length cs0 /\
    forall a c, cs0 !! a = Some c ->
      cs !! a = Some (fold_left sub
                        (map population (filter (fun fn => iatom fn = a) fs)) c).
Proof.
  revert cs0. induction fs as [|fn fs IH]; intros cs0 Hfs.
  - exists cs0. simpl. done.
  - inversion Hfs as [|? ? Hfn Hrest]; subst. simpl.
    unfold charges_step at 1.
    destruct (np_update_at_ok (fun c => sub c (population fn)) cs0 (iatom fn) Hfn)
      as (x & Hx & ->).
    destruct (IH (<[iatom fn := sub x (population fn)]> cs0)) as (cs & Hrun & Hl & Hat).
    { by rewrite length_insert. }
    exists cs. split; [done|]. rewrite length_insert in Hl. split; [done|].
    intros a c Ha. rewrite filter_cons. case_decide as Heq.
    + subst a. rewrite Hx in Ha. injection Ha as <-.
      simpl. apply Hat. by apply list_lookup_insert_eq.
    + apply Hat. by rewrite list_lookup_insert_ne.
Qed.

(** Under the exact laws the running subtractions collapse into one. *)
Lemma charges_loop_spec `{!ScalarLaws F} fs (cs0 : list F) :
  Forall (fun fn => iatom fn < length cs0) fs ->
  exists cs,
    foldM charges_step cs0 fs = Ok cs /\
    length cs = length cs0 /\
    (forall a c, cs0 !! a = Some c ->
       cs !! a = Some (sub c (fsum (map population
                                        (filter (fun fn => iatom fn = a) fs))))) /\
    fsum cs = sub (fsum cs0) (fsum (map population fs)).
Proof.
  revert cs0. induction fs as [|fn fs IH]; intros cs0 Hfs.
  - exists cs0. simpl. split; [done|]. split; [done|].
    split; [|by rewrite fsum_nil, sub_0_r].
    intros a c Ha. change (cs0 !! a = Some (sub c (fsum []))).
    by rewrite fsum_nil, sub_0_r.
  - inversion Hfs as [|? ? Hfn Hrest]; subst. simpl.
    unfold charges_step at 1.
    destruct (np_update_at_ok (fun c => sub c (population fn)) cs0 (iatom fn) Hfn)
      as (x & Hx & ->).
    destruct (IH (<[iatom fn := sub x (population fn)]> cs0)) as (cs & Hrun & Hl & Hat & Hsum).
    { by rewrite length_insert. }
    exists cs. split; [done|]. rewrite length_insert in Hl. split; [done|]. split.
    + intros a c Ha. rewrite filter_cons. case_decide as Heq.
      * subst a. rewrite Hx in Ha. injection Ha as <-.
        simpl. rewrite fsum_cons, sub_add_distr. apply Hat.
        by apply list_lookup_insert_eq.
      * apply Hat. by rewrite list_lookup_insert_ne.
    + simpl. rewrite Hsum, fsum_cons, sub_add_distr.
      by rewrite (fsum_insert_sub cs0 (iatom fn) x (population fn) Hx).
Qed.

(** C5 (amended).  In a model whose atom indices are within range,
    [charges] returns one entry per atom, and the entry of atom [a] is its
    atomic number with the populations of the functions whose [iatom] is [a]
    subtracted from it one after the other, in function order; this holds
    in any arithmetic, binary64 included.  Under exact arithmetic (the laws
    of [ScalarLaws]) the entry equals the atomic number minus the summed
    populations of those functions, and the entries sum to the sum of the
    atomic numbers minus the population of the model. *)
Theorem charges_spec m :
  valid_iatoms m ->
  exists cs,
    charges m = (Ok cs, m) /\
    length cs = natom m /\
    (forall a z, atnums m !! a = Some z ->
       cs !! a
       = Some (fold_left sub
                 (map population (filter (fun fn => iatom fn = a) (fns m)))
                 (of_Z z))) /\
    (ScalarLaws F ->
     (forall a z, atnums m !! a = Some z ->
        cs !! a = Some (sub (of_Z z) (atom_population m a))) /\
     fsum cs = sub (fsum (map of_Z (atnums m))) (model_population m)).
Proof.
  intros Hvalid. unfold valid_iatoms, natom in Hvalid.
  destruct (charges_loop_running (fns m) (map of_Z (atnums m)))
    as (cs & Hrun & Hl & Hat).
  { by rewrite length_map. }
  exists cs. unfold charges. rewrite Hrun. split; [done|].
  rewrite length_map in Hl. split; [done|]. split.
  - intros a z Hz. apply Hat. by rewrite list_lookup_fmap, Hz.
  - intros Hlaws.
    destruct (charges_loop_spec (fns m) (map of_Z (atnums m)))
      as (cs' & Hrun' & _ & Hat' & Hsum').
    { by rewrite length_map. }
    assert (cs' = cs) as -> by congruence.
    split; [|done].
    intros a z Hz. apply Hat'. by rewrite list_lookup_fmap, Hz.
Qed.

End ProModelFacts.

(** ** Computations that do not touch the model *)

Section Frame.
Context {F Point : Type} `{Scalar F} `{BasisOps F Point} `{GridOps F Point}.

Lemma preserves_ret {A : Type} (a : A) : preserves_model (mret a : @M F Point A).
Proof. intros m. reflexivity. Qed.

Lemma preserves_lift {A : Type} (o : outcome A) :
  preserves_model (lift o : @M F Point A).
Proof. intros m. reflexivity. Qed.

Lemma preserves_get : preserves_model (get (F := F) (Point := Point)).
Proof. intros m. reflexivity. Qed.

Lemma preserves_bind {A B : Type} (c : @M F Point A) (f : A -> @M F Point B) :
  preserves_model c -> (forall a, preserves_model (f a)) ->
  preserves_model (c ≫= f).
Proof.
  intros Hc Hf m. unfold mbind, M_bind. specialize (Hc m).
  destruct (c m) as [[a|e] m']; simpl in *; subst; [apply Hf|done].
Qed.

Lemma preserves_compute_proatom (a : nat) (grid : Grid F Point) :
  preserves_model (compute_proatom a grid).
Proof. intros m. reflexivity. Qed.

Lemma preserves_charges : preserves_model (charges (F := F) (Point := Point)).
Proof. intros m. reflexivity. Qed.

Lemma preserves_radial_moments_atom grid density pro nmax result a atcoord :
  preserves_model (radial_moments_atom grid density pro nmax result a atcoord).
Proof.
  unfold radial_moments_atom.
  apply preserves_bind; [apply preserves_compute_proatom|]. intros pro_atom.
  apply preserves_bind; [apply preserves_lift|]. intros pro_local.
  apply preserves_bind; [apply preserves_lift|]. intros ratio.
  apply preserves_lift.
Qed.

Lemma preserves_radial_moments_loop grid density pro nmax result a coords :
  preserves_model (radial_moments_loop grid density pro nmax result a coords).
Proof.
  revert result a. induction coords as [|c coords IH]; intros result a; simpl.
  - apply preserves_ret.
  - apply preserves_bind; [apply preserves_radial_moments_atom|].
    intros result'. apply IH.
Qed.

(** C8 (amended).  [compute_radial_moments] leaves the atoms and the
    parameters of every basis function as they were and increments the
    evaluation counter by exactly one, whether it returns or raises: the
    model after the call is the model before it with [ncompute + 1]. *)
Theorem compute_radial_moments_effect grid density localgrids nmax
    (m : ProModel F Point) :
  snd (compute_radial_moments grid density localgrids nmax m)
  = set_ncompute m (ncompute m + 1).
Proof.
  unfold compute_radial_moments, mbind at 1, M_bind.
  unfold compute_density at 1.
  destruct (density_loop _ _ _) as [pro|e]; [|reflexivity].
  apply preserves_bind; [apply preserves_get|]. intros pro_model.
  apply preserves_bind; [apply preserves_lift|]. intros result.
  apply preserves_radial_moments_loop.
Qed.
End Frame.

(** ** Pro-atoms *)

Section Proatom.
Context {F Point : Type} `{Scalar F} `{BasisOps F Point} `{!BasisShapes F Point}.

Lemma np_iadd_same (a b : list F) :
  length b = length a -> np_iadd a b = Ok (zip_with add a b).
Proof. intros Hl. unfold np_iadd. by rewrite np_broadcast_to_same. Qed.

Lemma nth_zip_with_add (a b : list F) (i : nat) :
  length b = length a -> i < length a ->
  nth i (zip_with add a b) zero = add (nth i a zero) (nth i b zero).
Proof.
  intros Hl Hi. rewrite !nth_lookup, lookup_zip_with.
  destruct (lookup_lt_is_Some_2 a i Hi) as [x ->].
  destruct (lookup_lt_is_Some_2 b i ltac:(lia)) as [y ->]. done.
Qed.

Lemma proatom_loop_spec (a : nat) (pts : list Point)
    (fs : list (BasisFunction F Point)) (acc : list F) :
  length acc = length pts ->
  exists pro,
    foldM (fun pro fn =>
             if decide (iatom fn = a) then np_iadd pro (compute fn pts) else Ok pro)
          acc fs = Ok pro /\
    length pro = length pts /\
    forall i, i < length pts ->
      nth i pro zero
      = fold_left add (map (fun fn => nth i (compute fn pts) zero)
                           (filter (fun fn => iatom fn = a) fs))
                  (nth i acc zero).
Proof.
  revert acc. induction fs as [|fn fs IH]; intros acc Hacc.
  - exists acc. simpl. auto.
  - simpl. rewrite filter_cons. case_decide as Ha.
    + rewrite np_iadd_same by (by rewrite compute_length).
      destruct (IH (zip_with add acc (compute fn pts))) as (pro & Hrun & Hl & Hat).
      { rewrite length_zip_with, compute_length. lia. }
      exists pro. split; [done|]. split; [done|].
      intros i Hi. rewrite (Hat i Hi). simpl.
      by rewrite nth_zip_with_add by (rewrite ?compute_length; lia).
    + apply IH, Hacc.
Qed.

(** C10.  [compute_proatom] leaves the model exactly as it was, evaluation
    counter included, whereas [compute_density] increments the counter; on a
    grid with one weight per point it returns one value per point, the value
    at a point being the sum, in function order, of the values there of
    exactly the functions whose [iatom] is the given atom index. *)
Theorem compute_proatom_spec (m : ProModel F Point) (a : nat) (grid : Grid F Point)
    (localgrids : list (LocalGrid F Point)) :
  snd (compute_proatom a grid m) = m /\
  ncompute (snd (compute_density grid localgrids m)) = (ncompute m + 1)%Z /\
  (length (points grid) = length (weights grid) ->
   exists pro,
     compute_proatom a grid m = (Ok pro, m) /\
     length pro = length (points grid) /\
     forall i, i < length (points grid) ->
       pro !! i = Some (proatom_at m a (points grid) i)).
Proof.
  split; [reflexivity|]. split; [reflexivity|]. intros Hgrid.
  destruct (proatom_loop_spec a (points grid) (fns m)
              (np_zeros (length (weights grid)))) as (pro & Hrun & Hl & Hat).
  { unfold np_zeros. by rewrite length_replicate. }
  exists pro. unfold compute_proatom. rewrite Hrun. split; [done|]. split; [done|].
  intros i Hi. specialize (Hat i Hi).
  destruct (lookup_lt_is_Some_2 pro i ltac:(lia)) as [v Hv].
  rewrite Hv. f_equal. rewrite nth_lookup, Hv in Hat. simpl in Hat. rewrite Hat.
  unfold proatom_at, fsum. f_equal.
  unfold np_zeros. rewrite nth_lookup, lookup_replicate_2 by lia. done.
Qed.
End Proatom.

(** ** Arrays seen point by point *)

Section Pointwise.
Context {F : Type} `{Scalar F}.

Lemma list_as_map_seq {A : Type} (l : list A) (f : nat -> A) (d : A) :
  (forall i, i < length l -> nth i l d = f i) -> l = map f (seq 0 (length l)).
Proof.
  intros Hf. apply (nth_ext _ _ d (f 0)).
  - by rewrite length_map, length_seq.
  - intros i Hi. rewrite (Hf i Hi).
    by rewrite (map_nth f (seq 0 (length l)) 0 i), seq_nth.
Qed.

Lemma nth_zip_with {A B C : Type} (f : A -> B -> C) (a : list A) (b : list B)
    (i : nat) (da : A) (db : B) (dc : C) :
  i < length a -> i < length b ->
  nth i (zip_with f a b) dc = f (nth i a da) (nth i b db).
Proof.
  intros Ha Hb. rewrite !nth_lookup, lookup_zip_with.
  destruct (lookup_lt_is_Some_2 a i Ha) as [x ->].
  destruct (lookup_lt_is_Some_2 b i Hb) as [y ->]. done.
Qed.

Lemma nth_map' {A B : Type} (f : A -> B) (l : list A) (i : nat) (d : A) (d' : B) :
  i < length l -> nth i (map f l) d' = f (nth i l d).
Proof.
  intros Hi. rewrite (nth_indep _ d' (f d)) by (by rewrite length_map).
  apply map_nth.
Qed.

Lemma forM_ok {A B : Type} (f : A -> outcome B) (g : A -> B) (xs : list A) :
  Forall (fun x => f x = Ok (g x)) xs -> forM f xs = Ok (map g xs).
Proof.
  induction 1 as [|x xs Hx _ IH]; simpl; [done|]. by rewrite Hx, IH.
Qed.

Lemma np_take_ok {A : Type} (a : list A) (idx : list nat) (d : A) :
  Forall (fun i => i < length a) idx ->
  np_take a idx = Ok (map (fun i => nth i a d) idx).
Proof.
  intros Hidx. unfold np_take. apply forM_ok.
  eapply Forall_impl; [exact Hidx|]. intros i Hi. simpl in *.
  destruct (lookup_lt_is_Some_2 a i Hi) as [x Hx].
  by rewrite nth_lookup, Hx.
Qed.

Lemma np_einsum_i_i_i_same (a b c : list F) :
  length b = length a -> length c = length a ->
  np_einsum_i_i_i a b c = Ok (fsum (zip_with mul (zip_with mul a b) c)).
Proof.
  intros Hb Hc. unfold np_einsum_i_i_i.
  rewrite np_ufunc2_same by done. simpl.
  rewrite np_ufunc2_same; [done|]. rewrite length_zip_with. lia.
Qed.

Lemma np_add_at_ok (a : list F) (idx : list nat) (b : list F) :
  length b = length idx -> Forall (fun i => i < length a) idx ->
  exists a', np_add_at a idx b = Ok a' /\ length a' = length a.
Proof.
  intros Hb Hidx. unfold np_add_at. rewrite decide_True by done.
  rewrite np_broadcast_to_same by done. simpl.
  clear Hb. revert a b Hidx. induction idx as [|i idx IH]; intros a b Hidx.
  - exists a. done.
  - destruct b as [|x b]; [exists a; done|]. simpl.
    inversion Hidx as [|? ? Hi Hrest]; subst.
    destruct (np_update_at_ok (fun y => add y x) a i Hi) as (y & _ & ->).
    destruct (IH (<[i := add y x]> a) b) as (a' & Hrun & Hl).
    { by rewrite length_insert. }
    exists a'. split; [done|]. by rewrite Hl, length_insert.
Qed.

Lemma np_assign_slice_same {A : Type} (a : list A) (lo n : nat) (b : list A) :
  length b = n -> lo + n <= length a ->
  np_assign_slice a lo (lo + n) b = Ok (take lo a ++ b ++ drop (lo + n) a).
Proof.
  intros Hb Hle. unfold np_assign_slice.
  rewrite np_broadcast_to_same by (by rewrite np_slice_length). simpl.
  by rewrite Hb.
Qed.
End Pointwise.

(** ** The evaluator [ekld] *)

Section EkldFacts.
Context {F Point : Type} `{Scalar F} `{BasisOps F Point} `{!BasisShapes F Point}.

Implicit Types (m : ProModel F Point) (grid : Grid F Point)
  (density pro ratio p g : list F) (localgrids : list (LocalGrid F Point))
  (fs : list (BasisFunction F Point)).

Lemma bind_ok {A B : Type} (c : @M F Point A) (f : A -> @M F Point B) m a m' :
  c m = (Ok a, m') -> (c ≫= f) m = f a m'.
Proof. intros Hc. unfold mbind, M_bind. by rewrite Hc. Qed.

Lemma density_loop_ok (n : nat) fs localgrids :
  Forall (localgrid_wf n) localgrids ->
  exists pro, density_loop n fs localgrids = Ok pro /\ length pro = n.
Proof.
  unfold density_loop. intros Hwf.
  assert (Hz : length (np_zeros n : list F) = n)
    by (unfold np_zeros; by rewrite length_replicate).
  revert Hz. generalize (np_zeros n : list F) as acc.
  revert fs. induction Hwf as [|lg lgs (Hp & Hw & Hidx) _ IH]; intros fs acc Hacc.
  - destruct fs; simpl; eauto.
  - destruct fs as [|fn fs]; simpl; [eauto|].
    destruct (np_add_at_ok acc (indices lg) (compute fn (points lg)))
      as (acc' & -> & Hl).
    { by rewrite compute_length. }
    { by rewrite Hacc. }
    apply IH. lia.
Qed.

Lemma sick_array density pro cutoff (n : nat) :
  length density = n -> length pro = n ->
  zip_with orb (map (fun d => ltb d cutoff) density)
               (map (fun q => ltb q cutoff) pro)
  = map (sick_at density pro cutoff) (seq 0 n).
Proof.
  intros Hd Hp.
  set (l := zip_with _ _ _).
  assert (Hl : length l = n).
  { unfold l. rewrite length_zip_with, !length_map. lia. }
  rewrite <- Hl. apply (list_as_map_seq l _ false). intros i Hi.
  unfold l, sick_at.
  rewrite (nth_zip_with _ _ _ _ false false) by (rewrite length_map; lia).
  by rewrite !(nth_map' _ _ _ zero) by lia.
Qed.

Lemma masked_array (f : F -> F -> F) density pro cutoff (n : nat) (a b : list F) :
  length density = n -> length pro = n -> length a = n -> length b = n ->
  zip_with (fun (s : bool) y => if s then zero else y)
           (map (sick_at density pro cutoff) (seq 0 n)) (zip_with f a b)
  = map (fun i => if sick_at density pro cutoff i then zero
                  else f (nth i a zero) (nth i b zero)) (seq 0 n).
Proof.
  intros Hd Hp Ha Hb.
  set (l := zip_with _ _ _).
  assert (Hl : length l = n).
  { unfold l. rewrite !length_zip_with, length_map, length_seq. lia. }
  rewrite <- Hl. apply (list_as_map_seq l _ zero). intros i Hi.
  unfold l.
  rewrite (nth_zip_with _ _ _ _ false zero)
    by (rewrite ?length_zip_with, ?length_map, ?length_seq; lia).
  rewrite (nth_map' _ _ _ 0) by (rewrite length_seq; lia).
  rewrite seq_nth by lia. simpl.
  by rewrite (nth_zip_with _ _ _ _ zero zero) by lia.
Qed.

Lemma kld_array grid density (lnratio : nat -> F) (n : nat) :
  length (weights grid) = n -> length density = n ->
  zip_with mul (zip_with mul (weights grid) density) (map lnratio (seq 0 n))
  = map (kld_term grid density lnratio) (seq 0 n).
Proof.
  intros Hw Hd.
  set (l := zip_with _ _ _).
  assert (Hl : length l = n).
  { unfold l. rewrite !length_zip_with, length_map, length_seq. lia. }
  rewrite <- Hl. apply (list_as_map_seq l _ zero). intros i Hi.
  unfold l, kld_term.
  rewrite (nth_zip_with _ _ _ _ zero zero)
    by (rewrite ?length_zip_with, ?length_map, ?length_seq; lia).
  rewrite (nth_zip_with _ _ _ _ zero zero) by lia.
  rewrite (nth_map' _ _ _ 0) by (rewrite length_seq; lia).
  by rewrite seq_nth by lia.
Qed.

Lemma forM_map {A B C : Type} (f : B -> outcome C) (g : A -> B) (xs : list A) :
  forM f (map g xs) = forM (fun x => f (g x)) xs.
Proof. induction xs as [|x xs IH]; simpl; [done|]. by rewrite IH. Qed.

Lemma projection_row (fn : BasisFunction F Point) (lg : LocalGrid F Point)
    ratio (rf : nat -> F) (n j : nat) :
  localgrid_wf n lg -> length ratio = n ->
  (forall i, i < n -> nth i ratio zero = rf i) ->
  j < npar fn ->
  np_einsum_i_i_i (weights lg) (map (fun i => nth i ratio zero) (indices lg))
                  (nth j (compute_derivatives fn (points lg)) [])
  = Ok (big_sum (length (indices lg)) (projection_term fn lg rf j)).
Proof.
  intros (Hp & Hw & Hidx) Hr Hrf Hj.
  assert (Hrow : length (nth j (compute_derivatives fn (points lg)) [])
                 = length (indices lg)).
  { rewrite <- Hp. apply (compute_derivatives_cols fn).
    apply list_elem_of_In, nth_In. by rewrite compute_derivatives_rows. }
  rewrite np_einsum_i_i_i_same by (rewrite ?length_map; lia).
  f_equal. unfold big_sum. f_equal.
  set (l := zip_with _ _ _).
  assert (Hl : length l = length (indices lg)).
  { unfold l. rewrite !length_zip_with, length_map. lia. }
  rewrite <- Hl. apply (list_as_map_seq l _ zero). intros k Hk.
  unfold l, projection_term.
  rewrite (nth_zip_with _ _ _ _ zero zero)
    by (rewrite ?length_zip_with, ?length_map; lia).
  rewrite (nth_zip_with _ _ _ _ zero zero) by (rewrite ?length_map; lia).
  rewrite (nth_map' _ _ _ 0) by lia.
  rewrite Hrf; [done|].
  rewrite Forall_forall in Hidx. apply Hidx, list_elem_of_In, nth_In. lia.
Qed.

Lemma gradient_slice_run (fn : BasisFunction F Point) (lg : LocalGrid F Point)
    ratio (rf : nat -> F) (n : nat) :
  localgrid_wf n lg -> length ratio = n ->
  (forall i, i < n -> nth i ratio zero = rf i) ->
  (ratio_local ← np_take ratio (indices lg);
   proj ← np_einsum_i_i_ji (weights lg) ratio_local
                           (compute_derivatives fn (points lg));
   np_ufunc2 sub (population_derivatives fn) proj)
  = Ok (gradient_slice fn lg rf).
Proof.
  intros Hwf Hr Hrf. pose proof Hwf as (Hp & Hw & Hidx).
  rewrite (np_take_ok ratio (indices lg) zero) by (by rewrite Hr). simpl.
  set (D := compute_derivatives fn (points lg)).
  assert (HD : length D = npar fn) by apply compute_derivatives_rows.
  assert (HDseq : D = map (fun j => nth j D []) (seq 0 (npar fn))).
  { rewrite <- HD. by apply (list_as_map_seq D _ []). }
  assert (Hproj : np_einsum_i_i_ji (weights lg)
                    (map (fun i => nth i ratio zero) (indices lg)) D
                  = Ok (map (fun j => big_sum (length (indices lg))
                                        (projection_term fn lg rf j))
                            (seq 0 (npar fn)))).
  { unfold np_einsum_i_i_ji. rewrite HDseq at 1. rewrite forM_map.
    apply forM_ok. apply Forall_forall. intros j Hj.
    apply elem_of_seq in Hj. apply (projection_row fn lg ratio rf n); [done..|lia]. }
  rewrite Hproj. simpl.
  rewrite np_ufunc2_same
    by (by rewrite population_derivatives_length, length_map, length_seq).
  f_equal. unfold gradient_slice.
  set (l := zip_with _ _ _).
  assert (Hl : length l = npar fn).
  { unfold l. rewrite length_zip_with, length_map, length_seq,
      population_derivatives_length. lia. }
  rewrite <- Hl. apply (list_as_map_seq l _ zero). intros j Hj.
  unfold l.
  rewrite (nth_zip_with _ _ _ _ zero zero)
    by (rewrite ?length_map, ?length_seq, ?population_derivatives_length; lia).
  rewrite (nth_map' _ _ _ 0) by (rewrite length_seq; lia).
  by rewrite seq_nth by lia.
Qed.

Lemma splice_take {A : Type} (g slice : list A) (lo n : nat) :
  length slice = n -> lo + n <= length g ->
  take (lo + n) (take lo g ++ slice ++ drop (lo + n) g) = take lo g ++ slice.
Proof.
  intros Hs Hle. rewrite app_assoc. apply take_app_length'.
  rewrite length_app, length_take. lia.
Qed.

Lemma splice_drop {A : Type} (g slice : list A) (lo n k : nat) :
  length slice = n -> lo + n <= length g ->
  drop (lo + n + k) (take lo g ++ slice ++ drop (lo + n) g) = drop (lo + n + k) g.
Proof.
  intros Hs Hle. rewrite app_assoc.
  rewrite drop_app_ge by (rewrite length_app, length_take; lia).
  rewrite length_app, length_take, drop_drop. f_equal. lia.
Qed.

Lemma gradient_slice_length (fn : BasisFunction F Point) (lg : LocalGrid F Point)
    (rf : nat -> F) :
  length (gradient_slice fn lg rf) = npar fn.
Proof. unfold gradient_slice. by rewrite length_map, length_seq. Qed.

Lemma gradient_loop_spec localgrids ratio (rf : nat -> F) (n : nat) :
  Forall (localgrid_wf n) localgrids -> length ratio = n ->
  (forall i, i < n -> nth i ratio zero = rf i) ->
  forall fs ifn ipar g,
    length localgrids = ifn + length fs ->
    ipar + total_npar fs <= length g ->
    gradient_loop fs ifn ipar localgrids ratio g
    = Ok (take ipar g
          ++ concat (zip_with (fun fn lg => gradient_slice fn lg rf)
                              fs (drop ifn localgrids))
          ++ drop (ipar + total_npar fs) g).
Proof.
  intros Hwf Hr Hrf. induction fs as [|fn fs IH]; intros ifn ipar g Hlgs Hle.
  - simpl. unfold total_npar. simpl. by rewrite Nat.add_0_r, take_drop.
  - cbn [gradient_loop]. rewrite total_npar_cons in *. simpl in Hlgs.
    destruct (lookup_lt_is_Some_2 localgrids ifn ltac:(lia)) as [lg Hlg].
    rewrite Hlg.
    assert (Hlgwf : localgrid_wf n lg).
    { rewrite Forall_forall in Hwf. eapply Hwf, list_elem_of_lookup_2, Hlg. }
    pose proof (gradient_slice_run fn lg ratio rf n Hlgwf Hr Hrf) as Hslice.
    unfold mbind, outcome_bind in Hslice |- *.
    destruct (np_take ratio (indices lg)) as [rl|]; [|discriminate].
    destruct (np_einsum_i_i_ji _ rl _) as [proj|]; [|discriminate].
    rewrite Hslice.
    rewrite np_assign_slice_same
      by (rewrite ?gradient_slice_length; lia).
    rewrite IH by (rewrite ?length_app, ?length_take, ?length_drop,
                     ?gradient_slice_length; lia).
    f_equal. rewrite (drop_S _ _ _ Hlg). simpl.
    rewrite splice_take by (rewrite ?gradient_slice_length; lia).
    rewrite Nat.add_assoc, splice_drop by (rewrite ?gradient_slice_length; lia).
    by rewrite <- !app_assoc.
Qed.

Lemma lift_ok {A B : Type} (o : outcome A) (f : A -> @M F Point B) m a :
  o = Ok a -> (lift o ≫= f) m = f a m.
Proof. intros ->. reflexivity. Qed.

(** What a call of [ekld] on well-formed arguments does: the value and the
    gradient it returns, and the model it leaves. *)
Lemma ekld_run m p grid density localgrids (pop cutoff : F) :
  length p = total_npar (fns m) ->
  ekld_inputs_wf m grid density localgrids ->
  exists pro,
    compute_density grid localgrids (set_fns m (assigned (fns m) p 0))
    = (Ok pro, after_ekld m p) /\
    length pro = length (weights grid) /\
    ekld p grid density localgrids pop cutoff m
    = (Ok (sub (big_sum (length (weights grid))
                        (kld_term grid density (lnratio_at density pro cutoff)))
               (sub pop (model_population (after_ekld m p))),
           concat (zip_with (fun fn lg =>
                               gradient_slice fn lg (ratio_at density pro cutoff))
                            (fns (after_ekld m p)) localgrids)),
       after_ekld m p).
Proof.
  intros Hlen (Hd & Hlgs & Hwf).
  set (n := length (weights grid)) in *.
  set (m1 := set_fns m (assigned (fns m) p 0)).
  destruct (density_loop_ok n (fns m1) localgrids Hwf) as (pro & Hpro & Hprolen).
  exists pro.
  assert (Hcd : compute_density grid localgrids m1 = (Ok pro, after_ekld m p)).
  { unfold compute_density, after_ekld. fold m1. fold n. simpl fns.
    change (fns m1) with (assigned (fns m) p 0) in Hpro. by rewrite Hpro. }
  split; [done|]. split; [done|].
  unfold ekld.
  rewrite (bind_ok _ _ m tt m1) by (apply assign_pars_enough; lia).
  rewrite (bind_ok _ _ m1 pro (after_ekld m p) Hcd).
  rewrite (lift_ok _ _ _ (map (sick_at density pro cutoff) (seq 0 n))).
  2:{ rewrite np_ufunc2_same by (rewrite !length_map; lia).
      by rewrite (sick_array density pro cutoff n). }
  rewrite (lift_ok _ _ _ (zip_with sub (map log density) (map log pro))).
  2:{ apply np_ufunc2_same. rewrite !length_map. lia. }
  rewrite (lift_ok _ _ _ (zip_with div density pro)).
  2:{ apply np_ufunc2_same. lia. }
  rewrite (lift_ok _ _ _ (map (lnratio_at density pro cutoff) (seq 0 n))).
  2:{ unfold np_assign_mask.
      rewrite decide_True
        by (rewrite length_zip_with, !length_map, length_seq; lia).
      rewrite (masked_array sub density pro cutoff n)
        by (rewrite ?length_map; lia).
      f_equal. apply map_ext_in. intros i Hi. apply in_seq in Hi.
      unfold lnratio_at. by rewrite !(nth_map' _ _ _ zero) by lia. }
  rewrite (lift_ok _ _ _ (map (ratio_at density pro cutoff) (seq 0 n))).
  2:{ unfold np_assign_mask.
      rewrite decide_True
        by (rewrite length_zip_with, !length_map, length_seq; lia).
      by rewrite (masked_array div density pro cutoff n) by lia. }
  rewrite (lift_ok _ _ _ (big_sum n (kld_term grid density
                                       (lnratio_at density pro cutoff)))).
  2:{ rewrite np_einsum_i_i_i_same by (rewrite ?length_map, ?length_seq; lia).
      by rewrite (kld_array grid density _ n). }
  rewrite (bind_ok _ _ _ (after_ekld m p) (after_ekld m p)) by reflexivity.
  assert (Hnpar : total_npar (fns (after_ekld m p)) = total_npar (fns m)).
  { unfold total_npar. simpl. by rewrite assigned_npar by (simpl; lia). }
  rewrite (lift_ok _ _ _ (concat (zip_with (fun fn lg =>
                               gradient_slice fn lg (ratio_at density pro cutoff))
                            (fns (after_ekld m p)) localgrids))).
  2:{ rewrite (gradient_loop_spec localgrids _ (ratio_at density pro cutoff) n Hwf).
      - unfold np_zeros. rewrite take_0, drop_0. simpl "++".
        change (assigned (fns m) p 0) with (fns (after_ekld m p)).
        rewrite drop_ge by (rewrite length_replicate; lia).
        by rewrite app_nil_r.
      - by rewrite length_map, length_seq.
      - intros i Hi. rewrite (nth_map' _ _ _ 0) by (rewrite length_seq; lia).
        by rewrite seq_nth by lia.
      - simpl. rewrite assigned_length. lia.
      - unfold np_zeros. rewrite length_replicate. lia. }
  reflexivity.
Qed.

Lemma offset_S fn fs (k : nat) : offset (fn :: fs) (S k) = npar fn + offset fs k.
Proof. reflexivity. Qed.

(** Component [j] of the slice of function [k] sits at position
    [offset k + j] of the concatenated slices. *)
Lemma gradient_slices_lookup (rf : nat -> F) fs localgrids (k j : nat)
    (fn : BasisFunction F Point) (lg : LocalGrid F Point) :
  fs !! k = Some fn -> localgrids !! k = Some lg -> j < npar fn ->
  concat (zip_with (fun fn lg => gradient_slice fn lg rf) fs localgrids)
    !! (offset fs k + j)
  = Some (sub (nth j (population_derivatives fn) zero)
              (big_sum (length (indices lg)) (projection_term fn lg rf j))).
Proof.
  revert localgrids k. induction fs as [|fn0 fs IH]; intros [|lg0 lgs] [|k] Hfn Hlg Hj;
    simpl in Hfn, Hlg; try discriminate.
  - injection Hfn as ->. injection Hlg as ->. simpl.
    rewrite lookup_app_l by (rewrite gradient_slice_length; unfold offset; simpl; lia).
    unfold offset, total_npar, gradient_slice. simpl.
    rewrite list_lookup_fmap, lookup_seq_lt by lia. done.
  - rewrite offset_S. simpl.
    rewrite lookup_app_r by (rewrite gradient_slice_length; lia).
    rewrite gradient_slice_length.
    replace (npar fn0 + offset fs k + j - npar fn0) with (offset fs k + j) by lia.
    by apply IH.
Qed.

Lemma gradient_slices_length (rf : nat -> F) fs localgrids :
  length localgrids = length fs ->
  length (concat (zip_with (fun fn lg => gradient_slice fn lg rf) fs localgrids))
  = total_npar fs.
Proof.
  revert localgrids. induction fs as [|fn fs IH]; intros [|lg lgs] Hl;
    simpl in *; try discriminate; [done|].
  rewrite length_app, gradient_slice_length, total_npar_cons. f_equal.
  apply IH. lia.
Qed.

(** C1.  For a parameter vector of the model's total parameter length (and
    arguments that fit together), [ekld] returns normally and the first
    component of what it returns is the sum over all grid points of
    [weight * density * (log density - log model_density)], the log-ratio
    being zero at masked points, minus [pop - population], where the model
    density and the population are those of the model holding the new
    parameters. *)
Theorem ekld_value m p grid density localgrids (pop cutoff : F) :
  length p = total_npar (fns m) ->
  ekld_inputs_wf m grid density localgrids ->
  exists pro value gradient,
    assign_pars p m = (Ok tt, set_fns m (assigned (fns m) p 0)) /\
    compute_density grid localgrids (set_fns m (assigned (fns m) p 0))
    = (Ok pro, after_ekld m p) /\
    ekld p grid density localgrids pop cutoff m
    = (Ok (value, gradient), after_ekld m p) /\
    value
    = sub (big_sum (length (weights grid))
             (fun i =>
                mul (mul (nth i (weights grid) zero) (nth i density zero))
                    (if sick_at density pro cutoff i then zero
                     else sub (log (nth i density zero)) (log (nth i pro zero)))))
          (sub pop (model_population (after_ekld m p))).
Proof.
  intros Hlen Hwf.
  destruct (ekld_run m p grid density localgrids pop cutoff Hlen Hwf)
    as (pro & Hcd & _ & Hrun).
  exists pro. eexists. eexists.
  split; [apply assign_pars_enough; lia|].
  split; [exact Hcd|]. split; [exact Hrun|]. reflexivity.
Qed.

(** C2.  For a parameter vector of the model's total parameter length (and
    arguments that fit together), the gradient returned by [ekld] has one
    entry per parameter and is the concatenation, in function order, of one
    slice per basis function; entry [j] of the slice of a function is entry
    [j] of its [population_derivatives] minus the sum, over the points of that
    function's local grid only, of
    [local weight * masked ratio at the point * derivative j at the point],
    the masked ratio being [density / model_density], zero at masked
    points. *)
Theorem ekld_gradient m p grid density localgrids (pop cutoff : F) :
  length p = total_npar (fns m) ->
  ekld_inputs_wf m grid density localgrids ->
  exists pro value gradient,
    compute_density grid localgrids (set_fns m (assigned (fns m) p 0))
    = (Ok pro, after_ekld m p) /\
    ekld p grid density localgrids pop cutoff m
    = (Ok (value, gradient), after_ekld m p) /\
    length gradient = length p /\
    gradient
    = concat (zip_with (fun fn lg =>
                          gradient_slice fn lg (ratio_at density pro cutoff))
                       (fns (after_ekld m p)) localgrids) /\
    forall k fn lg j,
      fns (after_ekld m p) !! k = Some fn -> localgrids !! k = Some lg ->
      j < npar fn ->
      gradient !! (offset (fns (after_ekld m p)) k + j)
      = Some (sub (nth j (population_derivatives fn) zero)
                  (big_sum (length (indices lg))
                     (fun q =>
                        mul (mul (nth q (weights lg) zero)
                                 (ratio_at density pro cutoff
                                           (nth q (indices lg) 0)))
                            (nth q (nth j (compute_derivatives fn (points lg)) [])
                                 zero)))).
Proof.
  intros Hlen Hwf.
  destruct (ekld_run m p grid density localgrids pop cutoff Hlen Hwf)
    as (pro & Hcd & _ & Hrun).
  exists pro. eexists. eexists.
  split; [exact Hcd|]. split; [exact Hrun|]. split; [|split; [reflexivity|]].
  - destruct Hwf as (_ & Hlgs & _).
    rewrite gradient_slices_length by (simpl; by rewrite assigned_length).
    unfold total_npar. simpl. rewrite assigned_npar by (simpl; lia).
    symmetry. exact Hlen.
  - intros k fn lg j Hfn Hlg Hj.
    apply (gradient_slices_lookup _ _ _ k j fn lg Hfn Hlg Hj).
Qed.

(** Under the exact laws a sum may skip the terms that are zero. *)
Lemma fsum_skip_zero `{!ScalarLaws F} (f g : nat -> F) (masked : nat -> bool)
    (l : list nat) :
  (forall i, masked i = true -> f i = zero) ->
  (forall i, masked i = false -> f i = g i) ->
  fsum (map f l) = fsum (map g (filter (fun i => masked i = false) l)).
Proof.
  intros Hzero Hsame. induction l as [|i l IH]; [done|].
  rewrite filter_cons. simpl. destruct (masked i) eqn:Hi.
  - rewrite decide_False by done.
    by rewrite fsum_cons, (Hzero i Hi), add_0_l.
  - rewrite decide_True by done. simpl.
    by rewrite !fsum_cons, (Hsame i Hi), IH.
Qed.

(** C3 (amended).  For arguments that fit together: the log-ratio and the
    ratio that enter the sums are zero at every grid point where the
    reference density or the model density is below the cutoff, so the term
    of such a point in the value is [weight * density * 0] and its term in a
    gradient component is [local weight * 0 * derivative]; this holds in any
    arithmetic, binary64 included.  Under exact arithmetic (the laws of
    [ScalarLaws]) both terms are zero, and the value and every gradient
    component are the sums over the remaining points alone. *)
Theorem ekld_masked_points m p grid density localgrids (pop cutoff : F) :
  length p = total_npar (fns m) ->
  ekld_inputs_wf m grid density localgrids ->
  exists pro value gradient,
    compute_density grid localgrids (set_fns m (assigned (fns m) p 0))
    = (Ok pro, after_ekld m p) /\
    ekld p grid density localgrids pop cutoff m
    = (Ok (value, gradient), after_ekld m p) /\
    value
    = sub (big_sum (length (weights grid))
                   (kld_term grid density (lnratio_at density pro cutoff)))
          (sub pop (model_population (after_ekld m p))) /\
    (forall i, sick_at density pro cutoff i = true ->
       kld_term grid density (lnratio_at density pro cutoff) i
       = mul (mul (nth i (weights grid) zero) (nth i density zero)) zero) /\
    (forall k fn lg j,
       fns (after_ekld m p) !! k = Some fn -> localgrids !! k = Some lg ->
       j < npar fn ->
       gradient !! (offset (fns (after_ekld m p)) k + j)
       = Some (sub (nth j (population_derivatives fn) zero)
                   (big_sum (length (indices lg))
                            (projection_term fn lg (ratio_at density pro cutoff) j))) /\
       forall q, sick_at density pro cutoff (nth q (indices lg) 0) = true ->
         projection_term fn lg (ratio_at density pro cutoff) j q
         = mul (mul (nth q (weights lg) zero) zero)
               (nth q (nth j (compute_derivatives fn (points lg)) []) zero)) /\
    (ScalarLaws F ->
     (forall i, sick_at density pro cutoff i = true ->
        kld_term grid density (lnratio_at density pro cutoff) i = zero) /\
     value
     = sub (fsum (map (fun i =>
                         mul (mul (nth i (weights grid) zero) (nth i density zero))
                             (sub (log (nth i density zero)) (log (nth i pro zero))))
                      (filter (fun i => sick_at density pro cutoff i = false)
                              (seq 0 (length (weights grid))))))
           (sub pop (model_population (after_ekld m p))) /\
     forall k fn lg j,
       fns (after_ekld m p) !! k = Some fn -> localgrids !! k = Some lg ->
       j < npar fn ->
       (forall q, sick_at density pro cutoff (nth q (indices lg) 0) = true ->
          projection_term fn lg (ratio_at density pro cutoff) j q = zero) /\
       gradient !! (offset (fns (after_ekld m p)) k + j)
       = Some (sub (nth j (population_derivatives fn) zero)
                   (fsum (map (fun q =>
                                 mul (mul (nth q (weights lg) zero)
                                          (div (nth (nth q (indices lg) 0) density zero)
                                               (nth (nth q (indices lg) 0) pro zero)))
                                     (nth q (nth j (compute_derivatives fn (points lg)) [])
                                          zero))
                              (filter (fun q => sick_at density pro cutoff
                                                  (nth q (indices lg) 0) = false)
                                      (seq 0 (length (indices lg)))))))).
Proof.
  intros Hlen Hwf.
  destruct (ekld_run m p grid density localgrids pop cutoff Hlen Hwf)
    as (pro & Hcd & _ & Hrun).
  exists pro. eexists. eexists.
  split; [exact Hcd|]. split; [exact Hrun|]. split; [reflexivity|].
  split; [|split].
  - intros i Hi. unfold kld_term, lnratio_at. by rewrite Hi.
  - intros k fn lg j Hfn Hlg Hj. split.
    + apply (gradient_slices_lookup _ _ _ k j fn lg Hfn Hlg Hj).
    + intros q Hq. unfold projection_term, ratio_at. by rewrite Hq.
  - intros Hlaws.
    assert (Hterm : forall i, sick_at density pro cutoff i = true ->
              kld_term grid density (lnratio_at density pro cutoff) i = zero).
    { intros i Hi. unfold kld_term, lnratio_at. by rewrite Hi, mul_0_r. }
    split; [exact Hterm|]. split.
    + f_equal. unfold big_sum.
      apply (fsum_skip_zero _ _ (sick_at density pro cutoff)); [exact Hterm|].
      intros i Hi. unfold kld_term, lnratio_at. by rewrite Hi.
    + intros k fn lg j Hfn Hlg Hj.
      assert (Hproj : forall q,
                sick_at density pro cutoff (nth q (indices lg) 0) = true ->
                projection_term fn lg (ratio_at density pro cutoff) j q = zero).
      { intros q Hq. unfold projection_term, ratio_at.
        by rewrite Hq, mul_0_r, mul_0_l. }
      split; [exact Hproj|].
      rewrite (gradient_slices_lookup _ _ _ k j fn lg Hfn Hlg Hj).
      f_equal. f_equal. unfold big_sum.
      apply (fsum_skip_zero _ _
               (fun q => sick_at density pro cutoff (nth q (indices lg) 0)));
        [exact Hproj|].
      intros q Hq. unfold projection_term, ratio_at. by rewrite Hq.
Qed.
End EkldFacts.

(** ** The driver *)

Section OptimizeFacts.
Context {F Point : Type} `{Scalar F} `{BasisOps F Point} `{GridOps F Point}.

(** C9.  Let the minimizer, run against [ekld] from the concatenated initial
    parameters, return a result [r] and leave the model [m1].  If [r] reports
    no success, [optimize_pro_model] raises the convergence error (the
    [RuntimeError] of the driver) and returns nothing.  Conversely, whenever
    [optimize_pro_model] returns, the minimizer reported success, the
    parameters [r.x] were written into the model by [assign_pars], and what is
    returned is that model together with the local grids built at the
    start. *)
Theorem optimize_pro_model_convergence
    (minimize : list F -> list (F * F) -> F -> minimizer)
    (grid : Grid F Point) (density : list F) (gtol density_cutoff : F)
    (m : ProModel F Point) :
  let localgrids :=
    map (fun fn => get_localgrid grid (center fn)
                     (get_cutoff_radius fn density_cutoff)) (fns m) in
  let run pop pars0 :=
    run_minimizer
      (fun pars' => ekld pars' grid density localgrids pop ekld_default_cutoff)
      (minimize pars0 (concat (map bounds (fns m))) gtol) m in
  (forall pop pars0 r m1,
     np_einsum_i_i (weights grid) density = Ok pop ->
     np_concatenate (map pars (fns m)) = Ok pars0 ->
     run pop pars0 = (Ok r, m1) ->
     success r = false ->
     exists e,
       optimize_pro_model minimize grid density gtol density_cutoff m
       = (Raise e, m1) /\ ConvergenceError e) /\
  (forall ret m',
     optimize_pro_model minimize grid density gtol density_cutoff m
     = (Ok ret, m') ->
     exists pop pars0 r m1,
       np_einsum_i_i (weights grid) density = Ok pop /\
       np_concatenate (map pars (fns m)) = Ok pars0 /\
       run pop pars0 = (Ok r, m1) /\
       success r = true /\
       assign_pars (x r) m1 = (Ok tt, m') /\
       ret = (m', localgrids)).
Proof.
  intros localgrids run. split.
  - intros pop pars0 r m1 Hpop Hpars Hrun Hfail.
    exists (RuntimeError "Convergence failure."). split; [|reflexivity].
    unfold optimize_pro_model.
    rewrite (bind_ok _ _ m m m) by reflexivity.
    rewrite (lift_ok _ _ _ pop Hpop), (lift_ok _ _ _ pars0 Hpars).
    unfold run, localgrids in Hrun.
    unfold mbind at 1, M_bind. rewrite Hrun. by rewrite Hfail.
  - intros ret m' Hret. unfold optimize_pro_model in Hret.
    rewrite (bind_ok _ _ m m m) in Hret by reflexivity.
    destruct (np_einsum_i_i (weights grid) density) as [pop|e] eqn:Hpop;
      [|discriminate].
    rewrite (lift_ok _ _ _ pop eq_refl) in Hret.
    destruct (np_concatenate (map pars (fns m))) as [pars0|e] eqn:Hpars;
      [|discriminate].
    rewrite (lift_ok _ _ _ pars0 eq_refl) in Hret.
    destruct (run pop pars0) as [[r|e] m1] eqn:Hrun;
      unfold run, localgrids in Hrun;
      unfold mbind at 1, M_bind in Hret; rewrite Hrun in Hret; [|discriminate].
    destruct (success r) eqn:Hsucc; [|discriminate]. simpl in Hret.
    unfold mbind at 1, M_bind in Hret.
    destruct (charges m1) as [[cs|e] m2] eqn:Hch; [|discriminate].
    assert (m2 = m1) as -> by (pose proof (preserves_charges m1) as Hp;
                                by rewrite Hch in Hp).
    unfold mbind at 1, M_bind in Hret.
    destruct (assign_pars (x r) m1) as [[[]|e] m2] eqn:Hassign; [|discriminate].
    rewrite (bind_ok _ _ m2 m2 m2) in Hret by reflexivity.
    injection Hret as <- <-.
    exists pop, pars0, r, m1. fold localgrids. done.
Qed.
End OptimizeFacts.

(** ** More on the model: what assignment keeps, and how it composes *)

Section AssignFacts.
Context {F Point : Type} `{Scalar F} `{BasisOps F Point}.

Implicit Types (fs : list (BasisFunction F Point)) (p q : list F)
  (m : ProModel F Point).

Lemma same_function_refl (fn : BasisFunction F Point) : same_function fn fn.
Proof. by repeat split. Qed.

Lemma same_functions_refl fs : Forall2 same_function fs fs.
Proof. induction fs; constructor; auto using same_function_refl. Qed.

Lemma same_functions_trans fs1 fs2 fs3 :
  Forall2 same_function fs1 fs2 -> Forall2 same_function fs2 fs3 ->
  Forall2 same_function fs1 fs3.
Proof.
  intros H12. revert fs3. induction H12 as [|f1 f2 l1 l2 (? & ? & ? & ?) _ IH];
    intros fs3 H23; inversion H23 as [|? f3 ? l3 (? & ? & ? & ?) Hrest]; subst;
    constructor; [|by apply IH].
  repeat split; congruence.
Qed.

Lemma same_functions_total fs fs' :
  Forall2 same_function fs fs' -> total_npar fs' = total_npar fs.
Proof.
  induction 1 as [|f f' l l' (_ & _ & _ & Hn) _ IH]; [done|].
  rewrite !total_npar_cons. lia.
Qed.

Lemma set_pars_same (fn : BasisFunction F Point) (v : list F) :
  length v = npar fn -> same_function fn (set_pars fn v).
Proof. intros Hv. by repeat split. Qed.

Lemma assign_pars_loop_same p ipar fs :
  Forall2 same_function fs (snd (assign_pars_loop p ipar fs)).
Proof.
  revert ipar. induction fs as [|fn fs IH]; intros ipar; cbn [assign_pars_loop].
  - constructor.
  - destruct (np_assign_all _ _) as [v|e] eqn:Hv.
    + apply np_broadcast_to_length in Hv.
      specialize (IH (ipar + npar (set_pars fn v))).
      destruct (assign_pars_loop _ _ fs) as [o rest']. simpl in *.
      constructor; [by apply set_pars_same|done].
    + simpl. apply same_functions_refl.
Qed.

Lemma assign_pars_frame p m :
  atnums (snd (assign_pars p m)) = atnums m /\
  atcoords (snd (assign_pars p m)) = atcoords m /\
  ncompute (snd (assign_pars p m)) = ncompute m /\
  Forall2 same_function (fns m) (fns (snd (assign_pars p m))).
Proof.
  pose proof (assign_pars_loop_same p 0 (fns m)) as Hsame.
  unfold assign_pars. destruct (assign_pars_loop p 0 (fns m)) as [o fs'].
  simpl in *. by repeat split.
Qed.

Lemma same_functions_bounds_match fs fs' :
  Forall2 same_function fs fs' -> Forall bounds_match fs -> Forall bounds_match fs'.
Proof.
  induction 1 as [|fn fn' l l' (_ & _ & Hbd & Hn) _ IH]; intros Hb;
    [constructor|].
  inversion Hb; subst. constructor; [|by apply IH].
  unfold bounds_match, npar in *. congruence.
Qed.

(** X1.  Whatever vector it is given and whether it returns or raises,
    [assign_pars] leaves the atoms and the evaluation counter alone, keeps the
    list of functions in length and order, and keeps the atom, centre, bounds
    and parameter count of every function; so functions whose parameters
    matched their bounds in number still do. *)
Theorem assign_pars_keeps_shape p m :
  atnums (snd (assign_pars p m)) = atnums m /\
  atcoords (snd (assign_pars p m)) = atcoords m /\
  ncompute (snd (assign_pars p m)) = ncompute m /\
  Forall2 same_function (fns m) (fns (snd (assign_pars p m))) /\
  (Forall bounds_match (fns m) ->
   Forall bounds_match (fns (snd (assign_pars p m)))).
Proof.
  destruct (assign_pars_frame p m) as (Ha & Hc & Hn & Hsame).
  repeat split; try done.
  by apply same_functions_bounds_match.
Qed.

Lemma set_pars_id (fn : BasisFunction F Point) : set_pars fn (pars fn) = fn.
Proof. by destruct fn. Qed.

Lemma set_fns_id m : set_fns m (fns m) = m.
Proof. by destruct m. Qed.

Lemma assign_pars_loop_own (pre : list F) fs :
  assign_pars_loop (pre ++ concat (map pars fs)) (length pre) fs = (Ok tt, fs).
Proof.
  revert pre. induction fs as [|fn fs IH]; intros pre; cbn [assign_pars_loop];
    [done|].
  assert (Hs : np_slice (pre ++ concat (map pars (fn :: fs))) (length pre)
                        (length pre + npar fn) = pars fn).
  { unfold np_slice. simpl. rewrite drop_app_length.
    replace (length pre + npar fn - length pre) with (npar fn) by lia.
    unfold npar. by rewrite take_app_length. }
  rewrite Hs. unfold np_assign_all. rewrite np_broadcast_to_same by done.
  rewrite set_pars_id.
  replace (pre ++ concat (map pars (fn :: fs)))
    with ((pre ++ pars fn) ++ concat (map pars fs))
    by (simpl; by rewrite <- app_assoc).
  replace (length pre + npar fn) with (length (pre ++ pars fn))
    by (by rewrite length_app).
  by rewrite IH.
Qed.

Lemma np_concatenate_ok (arrays : list (list F)) (c : list F) :
  np_concatenate arrays = Ok c -> c = concat arrays.
Proof. destruct arrays; [discriminate|]. by intros [= <-]. Qed.

(** X2.  The ["propars"] entry that [get_results] returns can be handed
    straight back: [assign_pars] accepts it and the model is exactly what it
    was; [get_results] itself never changes the model. *)
Theorem get_results_assign_pars_roundtrip m (r : Results) (m2 : ProModel F Point) :
  get_results m = (Ok r, m2) ->
  m2 = m /\ propars r = concat (map pars (fns m)) /\
  assign_pars (propars r) m = (Ok tt, m).
Proof.
  unfold get_results. intros Hr.
  destruct (foldM count_step _ _) as [counts|]; [|discriminate]. simpl in Hr.
  destruct (np_concatenate (map pars (fns m))) as [c|] eqn:Hc; [|discriminate].
  apply np_concatenate_ok in Hc. simpl in Hr. injection Hr as <- <-. simpl.
  split; [done|]. split; [done|]. subst c.
  unfold assign_pars.
  pose proof (assign_pars_loop_own [] (fns m)) as Hown. simpl in Hown.
  rewrite Hown. by rewrite set_fns_id.
Qed.

Lemma assigned_same fs fs' q ipar :
  Forall2 same_function fs fs' -> assigned fs' q ipar = assigned fs q ipar.
Proof.
  intros Hsame. revert ipar.
  induction Hsame as [|fn fn' l l' (Hi & Hc & Hb & Hn) _ IH]; intros ipar;
    [done|].
  simpl. rewrite Hn, IH. f_equal. unfold set_pars. congruence.
Qed.

(** X3.  Assignment overwrites: after a first vector has been assigned, the
    assignment of a second vector that is long enough gives the same model as
    assigning the second vector alone; nothing of the first one is left. *)
Theorem assign_pars_overwrites p q m (m1 : ProModel F Point) :
  assign_pars p m = (Ok tt, m1) ->
  total_npar (fns m) <= length q ->
  assign_pars q m1 = assign_pars q m /\
  assign_pars q m = (Ok tt, set_fns m (assigned (fns m) q 0)).
Proof.
  intros Hp Hq.
  destruct (assign_pars_frame p m) as (Ha & Hc & Hn & Hsame).
  rewrite Hp in *. simpl in *.
  rewrite (assign_pars_enough m q Hq). split; [|done].
  rewrite assign_pars_enough by (by rewrite (same_functions_total _ _ Hsame)).
  rewrite (assigned_same _ _ q 0 Hsame).
  unfold set_fns. by rewrite Ha, Hc, Hn.
Qed.
End AssignFacts.
(** ** More on the model: what [get_results] and [charges] report *)

Section ResultsFacts.
Context {F Point : Type} `{Scalar F} `{BasisOps F Point}.

Implicit Types (fs : list (BasisFunction F Point)) (m : ProModel F Point).

Lemma zsum_insert (l : list Z) (i : nat) (x d : Z) :
  l !! i = Some x -> zsum (<[i := (x + d)%Z]> l) = (zsum l + d)%Z.
Proof.
  revert i. induction l as [|y l IH]; intros [|i] Hi; simpl in *; try discriminate.
  - injection Hi as ->. lia.
  - rewrite (IH i Hi). lia.
Qed.

Lemma zsum_replicate_0 (n : nat) : zsum (replicate n 0%Z) = 0%Z.
Proof. induction n; simpl; lia. Qed.

Lemma count_loop_spec fs (a b : list Z) :
  length b = length a -> Forall (fun fn => iatom fn < length a) fs ->
  exists a' b',
    foldM count_step (a, b) fs = Ok (a', b') /\
    length a' = length a /\ length b' = length a /\
    (forall i x y, a !! i = Some x -> b !! i = Some y ->
       a' !! i = Some (x + Z.of_nat (length (filter (fun fn => iatom fn = i) fs)))%Z /\
       b' !! i = Some (y + Z.of_nat (total_npar (filter (fun fn => iatom fn = i) fs)))%Z) /\
    zsum a' = (zsum a + Z.of_nat (length fs))%Z /\
    zsum b' = (zsum b + Z.of_nat (total_npar fs))%Z.
Proof.
  revert a b. induction fs as [|fn fs IH]; intros a b Hb Hfs.
  - exists a, b. simpl. repeat split; try done; try lia.
    + by rewrite Z.add_0_r.
    + by rewrite Z.add_0_r.
    + unfold total_npar. simpl. lia.
  - inversion Hfs as [|? ? Hfn Hrest]; subst. cbn [foldM].
    unfold count_step at 1. cbn [fst snd].
    destruct (np_update_at_ok (fun c => (c + 1)%Z) a (iatom fn) Hfn)
      as (x0 & Hx0 & ->).
    destruct (np_update_at_ok (fun c => (c + Z.of_nat (length (pars fn)))%Z)
                b (iatom fn) ltac:(lia)) as (y0 & Hy0 & ->).
    cbn [mbind outcome_bind].
    destruct (IH (<[iatom fn := (x0 + 1)%Z]> a)
                 (<[iatom fn := (y0 + Z.of_nat (length (pars fn)))%Z]> b))
      as (a' & b' & Hrun & Ha' & Hb' & Hat & Hsa & Hsb).
    { by rewrite !length_insert. }
    { by rewrite length_insert. }
    exists a', b'. rewrite length_insert in Ha', Hb'.
    split; [exact Hrun|]. split; [done|]. split; [done|]. split; [|split].
    + intros i x y Hx Hy. rewrite filter_cons. case_decide as Heq.
      * subst i. rewrite Hx0 in Hx. rewrite Hy0 in Hy.
        injection Hx as <-. injection Hy as <-.
        destruct (Hat (iatom fn) (x0 + 1)%Z (y0 + Z.of_nat (length (pars fn)))%Z)
          as (-> & ->); [by apply list_lookup_insert_eq; lia..|].
        rewrite total_npar_cons. unfold npar at 1. simpl length.
        split; f_equal; lia.
      * apply Hat; by rewrite list_lookup_insert_ne.
    + rewrite Hsa, (zsum_insert a _ x0 1 Hx0). simpl length. lia.
    + rewrite Hsb, (zsum_insert b _ y0 _ Hy0), total_npar_cons.
      unfold npar. lia.
Qed.

Lemma length_concat_pars fs : length (concat (map pars fs)) = total_npar fs.
Proof.
  induction fs as [|fn fs IH]; [done|].
  simpl. rewrite length_app, IH, total_npar_cons. done.
Qed.

(** X4.  In a model with at least one basis function and atom indices within
    range, [get_results] returns, leaves the model alone, and reports for
    every atom the number of its functions (["atnfn"]) and the number of
    their parameters (["atnpar"]); the function counts add up to the number
    of functions and the parameter counts to the length of ["propars"], which
    is the concatenation of the parameters in function order. *)
Theorem get_results_counts m :
  valid_iatoms m -> fns m <> [] ->
  exists r,
    get_results m = (Ok r, m) /\
    length (atnfn r) = natom m /\ length (atnpar r) = natom m /\
    (forall a, a < natom m ->
       atnfn r !! a = Some (Z.of_nat (length (fns_of_atom m a))) /\
       atnpar r !! a = Some (Z.of_nat (total_npar (fns_of_atom m a)))) /\
    propars r = concat (map pars (fns m)) /\
    zsum (atnfn r) = Z.of_nat (length (fns m)) /\
    zsum (atnpar r) = Z.of_nat (length (propars r)).
Proof.
  intros Hvalid Hne. unfold valid_iatoms in Hvalid.
  destruct (count_loop_spec (fns m) (replicate (natom m) 0%Z)
              (replicate (natom m) 0%Z))
    as (a' & b' & Hrun & Ha' & Hb' & Hat & Hsa & Hsb).
  { done. }
  { by rewrite length_replicate. }
  rewrite length_replicate in Ha', Hb'.
  exists (mkResults a' b' (concat (map pars (fns m)))).
  split.
  { unfold get_results. rewrite Hrun. cbn [mbind outcome_bind].
    unfold np_concatenate. destruct (fns m) eqn:Hf; [done|]. reflexivity. }
  simpl. split; [done|]. split; [done|]. split; [|split; [done|split]].
  - intros a Ha.
    destruct (Hat a 0%Z 0%Z) as (-> & ->);
      [by apply lookup_replicate_2..|].
    unfold fns_of_atom. done.
  - by rewrite Hsa, zsum_replicate_0.
  - by rewrite Hsb, zsum_replicate_0, length_concat_pars.
Qed.

Lemma charges_loop_stray fs (cs : list F) :
  Exists (fun fn => length cs <= iatom fn) fs ->
  foldM charges_step cs fs = Raise (IndexError "index out of bounds").
Proof.
  revert cs. induction fs as [|fn fs IH]; intros cs Hex;
    [by apply Exists_nil in Hex|].
  cbn [foldM]. unfold charges_step at 1, np_update_at.
  destruct (cs !! iatom fn) as [x|] eqn:Hx; [|done].
  apply IH. rewrite length_insert.
  apply Exists_cons in Hex as [Hhead|Htail]; [|done].
  apply lookup_lt_Some in Hx. lia.
Qed.

Lemma count_loop_stray fs (a b : list Z) :
  length b = length a ->
  Exists (fun fn => length a <= iatom fn) fs ->
  foldM count_step (a, b) fs = Raise (IndexError "index out of bounds").
Proof.
  revert a b. induction fs as [|fn fs IH]; intros a b Hb Hex;
    [by apply Exists_nil in Hex|].
  cbn [foldM]. unfold count_step at 1, np_update_at. cbn [fst snd].
  destruct (a !! iatom fn) as [x|] eqn:Hx; [|done].
  pose proof (lookup_lt_Some _ _ _ Hx) as Hlt.
  destruct (lookup_lt_is_Some_2 b (iatom fn) ltac:(lia)) as [y ->].
  cbn [mbind outcome_bind].
  apply IH; [by rewrite !length_insert|]. rewrite length_insert.
  apply Exists_cons in Hex as [Hhead|Htail]; [lia|done].
Qed.

(** X5.  If some basis function carries an atom index that is not below the
    number of atoms, both [charges] and [get_results] raise [IndexError] and
    leave the model as it was. *)
Theorem stray_atom_index_raises m :
  Exists (fun fn => natom m <= iatom fn) (fns m) ->
  charges m = (Raise (IndexError "index out of bounds"), m) /\
  get_results m = (Raise (IndexError "index out of bounds"), m).
Proof.
  intros Hex. split.
  - unfold charges. rewrite charges_loop_stray; [done|].
    by rewrite length_map.
  - unfold get_results. rewrite count_loop_stray; [done|done|].
    by rewrite length_replicate.
Qed.
End ResultsFacts.
(** ** More on the model density *)

Section DensityFacts.
Context {F Point : Type} `{Scalar F} `{BasisOps F Point} `{!BasisShapes F Point}.

Implicit Types (fs : list (BasisFunction F Point)) (m : ProModel F Point)
  (lgs : list (LocalGrid F Point)).

(** The scatter-add of one array: every position ends with what it held
    plus the values sent to it, added in the order they come. *)
Lemma add_at_loop_spec (idx : list nat) (vals acc : list F) :
  Forall (fun i => i < length acc) idx ->
  exists acc',
    foldM (fun acc '(i, x) => np_update_at (fun y => add y x) acc i)
          acc (zip idx vals) = Ok acc' /\
    length acc' = length acc /\
    forall i, nth i acc' zero
              = fold_left add (map snd (filter (fun jx => fst jx = i) (zip idx vals)))
                          (nth i acc zero).
Proof.
  revert vals acc. induction idx as [|j idx IH]; intros vals acc Hidx.
  - exists acc. simpl. done.
  - destruct vals as [|x vals]; [exists acc; simpl; done|].
    inversion Hidx as [|? ? Hj Hrest]; subst. cbn [zip zip_with foldM].
    destruct (np_update_at_ok (fun y => add y x) acc j Hj) as (y & Hy & ->).
    destruct (IH vals (<[j := add y x]> acc)) as (acc' & Hrun & Hl & Hat).
    { by rewrite length_insert. }
    exists acc'. split; [exact Hrun|]. rewrite length_insert in Hl.
    split; [done|]. intros i. rewrite (Hat i), filter_cons. cbn [fst].
    case_decide as Heq.
    + subst i. cbn [map snd fold_left]. f_equal.
      rewrite !nth_lookup, list_lookup_insert_eq by done. by rewrite Hy.
    + f_equal. by rewrite !nth_lookup, list_lookup_insert_ne.
Qed.

Lemma density_loop_spec fs lgs (acc : list F) :
  Forall (localgrid_wf (length acc)) lgs ->
  exists pro,
    foldM (fun pro '(fn, localgrid) =>
             np_add_at pro (indices localgrid) (compute fn (points localgrid)))
          acc (zip fs lgs) = Ok pro /\
    length pro = length acc /\
    forall i, nth i pro zero
              = fold_left add
                  (concat (zip_with (fun fn lg => contributions fn lg i) fs lgs))
                  (nth i acc zero).
Proof.
  intros Hwf. revert fs acc Hwf.
  induction lgs as [|lg lgs IH]; intros fs acc Hwf.
  - exists acc. destruct fs; simpl; done.
  - destruct fs as [|fn fs]; [exists acc; simpl; done|].
    inversion Hwf as [|? ? (Hp & Hw & Hidx) Hrest]; subst.
    cbn [zip zip_with foldM]. unfold np_add_at. rewrite decide_True by done.
    rewrite np_broadcast_to_same by (by rewrite compute_length).
    cbn [mbind outcome_bind].
    destruct (add_at_loop_spec (indices lg) (compute fn (points lg)) acc Hidx)
      as (acc1 & -> & Hl1 & Hat1).
    destruct (IH fs acc1) as (pro & Hrun & Hl & Hat).
    { by rewrite Hl1. }
    exists pro. split; [exact Hrun|]. split; [lia|].
    intros i. rewrite (Hat i), (Hat1 i). cbn [concat].
    by rewrite fold_left_app.
Qed.

(** X6.  With well-formed local grids [compute_density] returns one value
    per grid point: the value at a point is the sum, function by function
    and in local order, of the function's values at the local points whose
    index is that point (a repeated index counts each time), and it is zero
    where no local grid reaches.  Functions without a local grid and local
    grids without a function are skipped.  The counter goes up by one. *)
Theorem compute_density_spec m (grid : Grid F Point) lgs :
  Forall (localgrid_wf (length (weights grid))) lgs ->
  exists pro,
    compute_density grid lgs m = (Ok pro, set_ncompute m (ncompute m + 1)) /\
    length pro = length (weights grid) /\
    (forall i, i < length (weights grid) ->
       pro !! i = Some (density_at (fns m) lgs i)) /\
    (forall i, i < length (weights grid) ->
       (forall lg, lg ∈ take (length (fns m)) lgs -> i ∉ indices lg) ->
       pro !! i = Some zero) /\
    compute_density grid (take (length (fns m)) lgs) m
    = compute_density grid lgs m.
Proof.
  intros Hwf.
  destruct (density_loop_spec (fns m) lgs (np_zeros (length (weights grid))))
    as (pro & Hrun & Hl & Hat).
  { unfold np_zeros. by rewrite length_replicate. }
  unfold np_zeros in Hl. rewrite length_replicate in Hl.
  assert (Hval : forall i, i < length (weights grid) ->
            pro !! i = Some (density_at (fns m) lgs i)).
  { intros i Hi. destruct (lookup_lt_is_Some_2 pro i ltac:(lia)) as [v Hv].
    rewrite Hv. f_equal. specialize (Hat i).
    rewrite nth_lookup, Hv in Hat. simpl in Hat. rewrite Hat.
    unfold density_at, fsum. f_equal.
    unfold np_zeros. by rewrite nth_lookup, lookup_replicate_2 by lia. }
  exists pro. split.
  { unfold compute_density, density_loop. cbn [fns set_ncompute].
    by rewrite Hrun. }
  split; [done|]. split; [exact Hval|]. split.
  - intros i Hi Hnone. rewrite (Hval i Hi). f_equal.
    unfold density_at.
    replace (concat (zip_with (fun fn lg => contributions fn lg i) (fns m) lgs))
      with (@nil F); [done|].
    symmetry. clear -Hnone. revert lgs Hnone.
    induction (fns m) as [|fn fs IH]; intros [|lg lgs] Hnone; try done.
    cbn [zip_with concat]. cbn [length take] in Hnone.
    rewrite IH by (intros lg' Hlg'; apply Hnone; by right).
    rewrite app_nil_r. unfold contributions.
    assert (Hi : i ∉ indices lg) by (apply Hnone; by left).
    clear -Hi. revert Hi. generalize (compute fn (points lg)) as vals.
    induction (indices lg) as [|j idx IHi]; intros vals Hi; [done|].
    destruct vals as [|x vals]; [done|]. cbn [zip zip_with].
    rewrite filter_cons. cbn [fst].
    rewrite decide_False by (intros ->; apply Hi; by left).
    apply IHi. intros Hin. apply Hi. by right.
  - unfold compute_density, density_loop. cbn [fns set_ncompute]. f_equal.
    f_equal. clear. revert lgs.
    induction (fns m) as [|fn fs IH]; intros [|lg lgs]; try done.
    cbn [length take zip zip_with]. f_equal. apply IH.
Qed.

Lemma add_at_loop_stray (idx : list nat) (vals acc : list F) :
  length vals = length idx ->
  Exists (fun i => length acc <= i) idx ->
  foldM (fun acc '(i, x) => np_update_at (fun y => add y x) acc i)
        acc (zip idx vals) = Raise (IndexError "index out of bounds").
Proof.
  revert vals acc. induction idx as [|j idx IH]; intros vals acc Hl Hex;
    [by apply Exists_nil in Hex|].
  destruct vals as [|x vals]; [discriminate|]. cbn [zip zip_with foldM].
  unfold np_update_at at 1. destruct (acc !! j) as [y|] eqn:Hy; [|done].
  apply IH; [simpl in Hl; lia|]. rewrite length_insert.
  apply Exists_cons in Hex as [Hhead|Htail]; [|done].
  apply lookup_lt_Some in Hy. lia.
Qed.

Lemma add_at_loop_length (idx : list nat) (vals acc acc' : list F) :
  foldM (fun acc '(i, x) => np_update_at (fun y => add y x) acc i)
        acc (zip idx vals) = Ok acc' ->
  length acc' = length acc.
Proof.
  generalize (zip idx vals) as l. intros l. revert acc.
  induction l as [|[i x] l IH]; intros acc; cbn [foldM].
  - by intros [= <-].
  - destruct (np_update_at _ acc i) as [acc1|] eqn:H1; [|discriminate].
    intros Hrun. rewrite (IH _ Hrun). by apply np_update_at_length in H1.
Qed.

(** X7.  If the local grids have one index per point and some local grid
    that is paired with a function holds an index outside the grid,
    [compute_density] raises [IndexError]; the evaluation counter has been
    incremented all the same. *)
Theorem compute_density_stray_index m (grid : Grid F Point) lgs :
  Forall (fun lg : LocalGrid F Point => length (points lg) = length (indices lg)) lgs ->
  Exists (fun lg : LocalGrid F Point => Exists (fun i => length (weights grid) <= i) (indices lg))
         (take (length (fns m)) lgs) ->
  compute_density grid lgs m
  = (Raise (IndexError "index out of bounds"), set_ncompute m (ncompute m + 1)).
Proof.
  intros Hshape Hex. unfold compute_density, density_loop. cbn [fns set_ncompute].
  f_equal.
  assert (Hz : length (np_zeros (length (weights grid)) : list F)
               = length (weights grid))
    by (unfold np_zeros; by rewrite length_replicate).
  revert Hz Hex. generalize (np_zeros (length (weights grid)) : list F) as acc.
  generalize (length (weights grid)) as n. intros n.
  revert lgs Hshape. induction (fns m) as [|fn fs IH]; intros lgs Hshape acc Hz Hex.
  - cbn [length take] in Hex. by apply Exists_nil in Hex.
  - destruct lgs as [|lg lgs]; [by apply Exists_nil in Hex|].
    inversion_clear Hshape as [|? ? Hp Hrest].
    cbn [length take] in Hex. cbn [zip zip_with foldM]. unfold np_add_at.
    case_decide as Hall; [|reflexivity].
    rewrite np_broadcast_to_same by (by rewrite compute_length).
    cbn [mbind outcome_bind].
    destruct (foldM _ acc (zip (indices lg) (compute fn (points lg))))
      as [acc1|e] eqn:Hrun.
    + apply Exists_cons in Hex as [Hhead|Htail].
      * rewrite add_at_loop_stray in Hrun;
          [discriminate|by rewrite compute_length|by rewrite Hz].
      * apply IH; [done| |done].
        by rewrite (add_at_loop_length _ _ _ _ Hrun).

    + clear -Hrun. revert acc Hrun.
      generalize (zip (indices lg) (compute fn (points lg))) as l.
      induction l as [|[i x] l IHl]; intros acc; cbn [foldM]; [discriminate|].
      unfold np_update_at at 1. destruct (acc !! i); [apply IHl|].
      by intros [= <-].
Qed.

Lemma contributions_seq (vals : list F) (s n i : nat) :
  length vals = n -> s <= i < s + n ->
  map snd (filter (fun jx => fst jx = i) (zip (seq s n) vals))
  = [nth (i - s) vals zero].
Proof.
  revert vals s. induction n as [|n IH]; intros vals s Hl Hi; [lia|].
  destruct vals as [|x vals]; [discriminate|]. cbn [seq zip zip_with].
  rewrite filter_cons. cbn [fst]. case_decide as Heq.
  - subst i. replace (s - s) with 0 by lia. cbn [map snd nth]. f_equal.
    clear. revert s vals. assert (Hgen : forall k s (vals : list F), s < k ->
      map snd (filter (fun jx : nat * F => fst jx = s) (zip (seq k n) vals)) = []).
    { induction n as [|n IHn]; intros k s vals Hk; [done|].
      destruct vals as [|y vals]; [done|]. cbn [seq zip zip_with].
      rewrite filter_cons. cbn [fst]. rewrite decide_False by lia.
      apply IHn. lia. }
    intros s vals. apply Hgen. lia.
  - rewrite IH by (simpl in Hl; lia).
    replace (i - s) with (S (i - S s)) by lia. done.
Qed.

Lemma fsum_add_at_one `{!ScalarLaws F} (h : nat -> F) (v : F) (a0 : nat)
    (l : list nat) :
  NoDup l -> a0 ∈ l ->
  fsum (map (fun a => if decide (a0 = a) then add v (h a) else h a) l)
  = add v (fsum (map h l)).
Proof.
  intros Hnd Hin. induction Hnd as [|a l Hnotin Hnd IH]; [by apply elem_of_nil in Hin|].
  cbn [map]. rewrite !fsum_cons. case_decide as Heq.
  - subst a0. rewrite <- add_assoc. do 3 f_equal.
    apply map_ext_in. intros b Hb. apply list_elem_of_In in Hb.
    rewrite decide_False; [done|]. intros ->. done.
  - apply elem_of_cons in Hin as [->|Hin]; [done|].
    rewrite (IH Hin). by rewrite !add_assoc, (add_comm (h a) v).
Qed.

Lemma proatoms_sum `{!ScalarLaws F} (g : BasisFunction F Point -> F) fs (n : nat) :
  Forall (fun fn => iatom fn < n) fs ->
  fsum (map (fun a => fsum (map g (filter (fun fn => iatom fn = a) fs))) (seq 0 n))
  = fsum (map g fs).
Proof.
  induction 1 as [|fn fs Hfn _ IH].
  - cbn [map]. rewrite fsum_nil.
    induction (seq 0 n) as [|a l IHl]; [done|].
    cbn [map]. rewrite fsum_cons, IHl. change (fsum (map g (filter _ []))) with (fsum (@nil F)).
    by rewrite fsum_nil, add_0_l.
  - cbn [map]. rewrite fsum_cons, <- IH.
    rewrite <- (fsum_add_at_one _ (g fn) (iatom fn) (seq 0 n));
      [|apply NoDup_seq|apply elem_of_seq; lia].
    f_equal. apply map_ext. intros a. rewrite filter_cons.
    case_decide; [|done]. cbn [map]. by rewrite fsum_cons.
Qed.

(** X8.  Under the exact laws, in a model whose atom indices are within
    range and on a grid with one weight per point: when every function is
    given the whole grid as its local grid, the density that
    [compute_density] returns is, point by point, the sum over the atoms of
    the pro-atom densities that [compute_proatom] returns. *)
Theorem proatoms_add_up `{!ScalarLaws F} m (grid : Grid F Point) :
  valid_iatoms m -> length (points grid) = length (weights grid) ->
  exists pro atoms,
    compute_density grid (map (fun _ => whole_grid grid) (fns m)) m
    = (Ok pro, set_ncompute m (ncompute m + 1)) /\
    length atoms = natom m /\
    (forall a, a < natom m ->
       exists pa, atoms !! a = Some pa /\ compute_proatom a grid m = (Ok pa, m)) /\
    forall i, i < length (weights grid) ->
      nth i pro zero = fsum (map (fun pa => nth i pa zero) atoms).
Proof.
  intros Hvalid Hgrid. set (n := length (weights grid)) in *.
  set (pts := points grid) in *.
  assert (Hwf : Forall (localgrid_wf n) (map (fun _ => whole_grid grid) (fns m))).
  { apply Forall_forall. intros lg Hlg. apply list_elem_of_fmap in Hlg as (? & -> & _).
    unfold localgrid_wf, whole_grid. cbn [indices lgrid points weights].
    fold n. rewrite length_seq. repeat split; [done|].
    apply Forall_forall. intros i Hi. apply elem_of_seq in Hi. lia. }
  destruct (density_loop_spec (fns m) (map (fun _ => whole_grid grid) (fns m))
              (np_zeros n)) as (pro & Hrun & Hl & Hat).
  { unfold np_zeros. by rewrite length_replicate. }
  exists pro, (map (fun a => map (proatom_at m a pts) (seq 0 n)) (seq 0 (natom m))).
  split; [|split; [|split]].
  - unfold compute_density, density_loop. cbn [fns set_ncompute]. fold n.
    by rewrite Hrun.
  - by rewrite length_map, length_seq.
  - intros a Ha. eexists. split.
    { rewrite list_lookup_fmap, lookup_seq_lt by done. reflexivity. }
    destruct (proatom_loop_spec a pts (fns m) (np_zeros n)) as (pa & Hpa & Hlpa & Hatpa).
    { unfold np_zeros. rewrite length_replicate. done. }
    unfold compute_proatom. fold n pts. rewrite Hpa. f_equal. f_equal.
    rewrite Hgrid in Hlpa. fold n in Hlpa. rewrite <- Hlpa.
    apply (list_as_map_seq pa _ zero). intros i Hi.
    rewrite (Hatpa i) by (unfold pts in *; lia).
    unfold proatom_at, fsum. f_equal.
    unfold np_zeros. by rewrite nth_lookup, lookup_replicate_2 by lia.
  - intros i Hi. rewrite (Hat i).
    unfold np_zeros at 1. rewrite nth_lookup, lookup_replicate_2 by lia.
    cbn [default].
    assert (Hc : concat (zip_with (fun fn lg => contributions fn lg i) (fns m)
                           (map (fun _ => whole_grid grid) (fns m)))
                 = map (fun fn => nth i (compute fn pts) zero) (fns m)).
    { clear -Hi Hgrid BasisShapes0. induction (fns m) as [|fn fs IH]; [done|].
      cbn [map zip_with concat]. rewrite IH. unfold contributions at 1, whole_grid.
      cbn [indices lgrid points]. fold n pts.
      rewrite (contributions_seq _ 0 n i) by (rewrite ?compute_length; unfold pts, n in *; lia).
      by rewrite Nat.sub_0_r. }
    rewrite Hc.
    transitivity (fsum (map (fun fn => nth i (compute fn pts) zero) (fns m)));
      [reflexivity|].
    rewrite <- (proatoms_sum _ (fns m) (natom m) Hvalid).
    f_equal. rewrite map_map. apply map_ext_in. intros a Ha. apply in_seq in Ha.
    rewrite (nth_map' _ _ _ 0) by (rewrite length_seq; lia).
    by rewrite seq_nth by lia.
Qed.
End DensityFacts.
(** ** More on the evaluator: over-long vectors, missing local grids, and
    what a call depends on *)

Section EkldMore.
Context {F Point : Type} `{Scalar F} `{BasisOps F Point} `{!BasisShapes F Point}.

Implicit Types (m : ProModel F Point) (grid : Grid F Point)
  (density pro ratio p g : list F) (localgrids : list (LocalGrid F Point))
  (fs : list (BasisFunction F Point)).

(** A call of [ekld] up to its gradient loop. *)
Lemma ekld_until_gradient m p grid density localgrids (pop cutoff : F) :
  total_npar (fns m) <= length p ->
  length density = length (weights grid) ->
  Forall (localgrid_wf (length (weights grid))) localgrids ->
  exists pro,
    compute_density grid localgrids (set_fns m (assigned (fns m) p 0))
    = (Ok pro, after_ekld m p) /\
    length pro = length (weights grid) /\
    ekld p grid density localgrids pop cutoff m
    = (gradient ← gradient_loop (fns (after_ekld m p)) 0 0 localgrids
                    (map (ratio_at density pro cutoff)
                         (seq 0 (length (weights grid))))
                    (np_zeros (length p));
       Ok (sub (big_sum (length (weights grid))
                        (kld_term grid density (lnratio_at density pro cutoff)))
               (sub pop (model_population (after_ekld m p))),
           gradient),
       after_ekld m p).
Proof.
  intros Hlen Hd Hwf.
  set (n := length (weights grid)) in *.
  set (m1 := set_fns m (assigned (fns m) p 0)).
  destruct (density_loop_ok n (fns m1) localgrids Hwf) as (pro & Hpro & Hprolen).
  exists pro.
  assert (Hcd : compute_density grid localgrids m1 = (Ok pro, after_ekld m p)).
  { unfold compute_density, after_ekld. fold m1. fold n. simpl fns.
    change (fns m1) with (assigned (fns m) p 0) in Hpro. by rewrite Hpro. }
  split; [done|]. split; [done|].
  unfold ekld.
  rewrite (bind_ok _ _ m tt m1) by (apply assign_pars_enough; lia).
  rewrite (bind_ok _ _ m1 pro (after_ekld m p) Hcd).
  rewrite (lift_ok _ _ _ (map (sick_at density pro cutoff) (seq 0 n))).
  2:{ rewrite np_ufunc2_same by (rewrite !length_map; lia).
      by rewrite (sick_array density pro cutoff n). }
  rewrite (lift_ok _ _ _ (zip_with sub (map log density) (map log pro))).
  2:{ apply np_ufunc2_same. rewrite !length_map. lia. }
  rewrite (lift_ok _ _ _ (zip_with div density pro)).
  2:{ apply np_ufunc2_same. lia. }
  rewrite (lift_ok _ _ _ (map (lnratio_at density pro cutoff) (seq 0 n))).
  2:{ unfold np_assign_mask.
      rewrite decide_True
        by (rewrite length_zip_with, !length_map, length_seq; lia).
      rewrite (masked_array sub density pro cutoff n)
        by (rewrite ?length_map; lia).
      f_equal. apply map_ext_in. intros i Hi. apply in_seq in Hi.
      unfold lnratio_at. by rewrite !(nth_map' _ _ _ zero) by lia. }
  rewrite (lift_ok _ _ _ (map (ratio_at density pro cutoff) (seq 0 n))).
  2:{ unfold np_assign_mask.
      rewrite decide_True
        by (rewrite length_zip_with, !length_map, length_seq; lia).
      by rewrite (masked_array div density pro cutoff n) by lia. }
  rewrite (lift_ok _ _ _ (big_sum n (kld_term grid density
                                       (lnratio_at density pro cutoff)))).
  2:{ rewrite np_einsum_i_i_i_same by (rewrite ?length_map, ?length_seq; lia).
      by rewrite (kld_array grid density _ n). }
  rewrite (bind_ok _ _ _ (after_ekld m p) (after_ekld m p)) by reflexivity.
  destruct (gradient_loop _ _ _ _ _ _) as [gradient|e]; reflexivity.
Qed.

Lemma ratio_array_nth density pro cutoff (n i : nat) :
  i < n ->
  nth i (map (ratio_at density pro cutoff) (seq 0 n)) zero
  = ratio_at density pro cutoff i.
Proof.
  intros Hi. rewrite (nth_map' _ _ _ 0) by (rewrite length_seq; lia).
  by rewrite seq_nth by lia.
Qed.

(** X9.  [ekld] does not reject a parameter vector that is longer than the
    model's total parameter count: the parameters assigned are the prefix of
    the vector, the value is the one of that prefix, and the gradient has the
    length of the vector, with the slices of the functions in front and zeros
    in the positions beyond the total. *)
Theorem ekld_long_vector m p grid density localgrids (pop cutoff : F) :
  total_npar (fns m) <= length p ->
  ekld_inputs_wf m grid density localgrids ->
  exists pro,
    compute_density grid localgrids (set_fns m (assigned (fns m) p 0))
    = (Ok pro, after_ekld m p) /\
    concat (map pars (fns (after_ekld m p))) = take (total_npar (fns m)) p /\
    ekld p grid density localgrids pop cutoff m
    = (Ok (sub (big_sum (length (weights grid))
                        (kld_term grid density (lnratio_at density pro cutoff)))
               (sub pop (model_population (after_ekld m p))),
           concat (zip_with (fun fn lg =>
                               gradient_slice fn lg (ratio_at density pro cutoff))
                            (fns (after_ekld m p)) localgrids)
           ++ np_zeros (length p - total_npar (fns m))),
       after_ekld m p).
Proof.
  intros Hlen (Hd & Hlgs & Hwf).
  destruct (ekld_until_gradient m p grid density localgrids pop cutoff Hlen Hd Hwf)
    as (pro & Hcd & Hl & Hrun).
  exists pro. split; [done|]. split.
  { cbn [after_ekld fns set_fns set_ncompute].
    rewrite assigned_concat by (simpl; lia). by rewrite drop_0. }
  rewrite Hrun. f_equal.
  assert (Hnpar : total_npar (fns (after_ekld m p)) = total_npar (fns m)).
  { unfold total_npar. simpl. by rewrite assigned_npar by (simpl; lia). }
  rewrite (gradient_loop_spec localgrids _ (ratio_at density pro cutoff)
             (length (weights grid)) Hwf).
  - cbn [mbind outcome_bind]. rewrite take_0, drop_0. cbn [app].
    rewrite Hnpar. unfold np_zeros. by rewrite Nat.add_0_l, drop_replicate.
  - by rewrite length_map, length_seq.
  - intros i Hi. by apply ratio_array_nth.
  - simpl. rewrite assigned_length. lia.
  - unfold np_zeros. rewrite length_replicate. lia.
Qed.

Lemma gradient_loop_short localgrids ratio (rf : nat -> F) (n : nat) :
  Forall (localgrid_wf n) localgrids -> length ratio = n ->
  (forall i, i < n -> nth i ratio zero = rf i) ->
  forall fs ifn ipar g,
    ifn <= length localgrids < ifn + length fs ->
    ipar + total_npar fs <= length g ->
    gradient_loop fs ifn ipar localgrids ratio g
    = Raise (IndexError "list index out of range").
Proof.
  intros Hwf Hr Hrf. induction fs as [|fn fs IH]; intros ifn ipar g Hlgs Hle.
  - simpl in Hlgs. lia.
  - cbn [gradient_loop]. rewrite total_npar_cons in *. simpl in Hlgs.
    destruct (localgrids !! ifn) as [lg|] eqn:Hlg; [|done].
    pose proof (lookup_lt_Some _ _ _ Hlg) as Hlt.
    assert (Hlgwf : localgrid_wf n lg).
    { rewrite Forall_forall in Hwf. eapply Hwf, list_elem_of_lookup_2, Hlg. }
    pose proof (gradient_slice_run fn lg ratio rf n Hlgwf Hr Hrf) as Hslice.
    unfold mbind, outcome_bind in Hslice |- *.
    destruct (np_take ratio (indices lg)) as [rl|]; [|discriminate].
    destruct (np_einsum_i_i_ji _ rl _) as [proj|]; [|discriminate].
    rewrite Hslice.
    rewrite np_assign_slice_same
      by (rewrite ?gradient_slice_length; lia).
    apply IH; [lia|].
    rewrite ?length_app, ?length_take, ?length_drop, ?gradient_slice_length. lia.
Qed.

(** X10.  With fewer local grids than basis functions (everything else
    fitting together) [ekld] raises [IndexError] in its gradient loop,
    although [compute_density] before it has silently skipped the functions
    without a local grid; the model keeps the new parameters and the
    incremented counter. *)
Theorem ekld_missing_localgrids m p grid density localgrids (pop cutoff : F) :
  total_npar (fns m) <= length p ->
  length density = length (weights grid) ->
  Forall (localgrid_wf (length (weights grid))) localgrids ->
  length localgrids < length (fns m) ->
  (exists pro,
     compute_density grid localgrids (set_fns m (assigned (fns m) p 0))
     = (Ok pro, after_ekld m p)) /\
  ekld p grid density localgrids pop cutoff m
  = (Raise (IndexError "list index out of range"), after_ekld m p).
Proof.
  intros Hlen Hd Hwf Hfew.
  destruct (ekld_until_gradient m p grid density localgrids pop cutoff Hlen Hd Hwf)
    as (pro & Hcd & Hl & Hrun).
  split; [by exists pro|]. rewrite Hrun. f_equal.
  assert (Hnpar : total_npar (fns (after_ekld m p)) = total_npar (fns m)).
  { unfold total_npar. simpl. by rewrite assigned_npar by (simpl; lia). }
  rewrite (gradient_loop_short localgrids _ (ratio_at density pro cutoff)
             (length (weights grid)) Hwf); [done| | | |].
  - by rewrite length_map, length_seq.
  - intros i Hi. by apply ratio_array_nth.
  - simpl. rewrite assigned_length. lia.
  - unfold np_zeros. rewrite length_replicate. lia.
Qed.

Lemma assign_pars_loop_indep p (ipar : nat) fs fs' :
  Forall2 same_function fs fs' ->
  fst (assign_pars_loop p ipar fs') = fst (assign_pars_loop p ipar fs) /\
  (fst (assign_pars_loop p ipar fs) = Ok tt ->
   snd (assign_pars_loop p ipar fs') = snd (assign_pars_loop p ipar fs)).
Proof.
  intros Hsame. revert ipar.
  induction Hsame as [|fn fn' l l' (Hi & Hc & Hb & Hn) _ IH]; intros ipar;
    [done|].
  cbn [assign_pars_loop]. unfold np_assign_all. fold (npar fn) (npar fn').
  rewrite Hn.
  destruct (np_broadcast_to (npar fn) _) as [v|e] eqn:Hv; [|by split].
  assert (Hset : set_pars fn' v = set_pars fn v)
    by (unfold set_pars; congruence).
  rewrite Hset. specialize (IH (ipar + npar (set_pars fn v))).
  destruct IH as (IH1 & IH2).
  destruct (assign_pars_loop p _ l') as [o' r'].
  destruct (assign_pars_loop p _ l) as [o r]. simpl in *.
  split; [done|]. intros Ho. by rewrite (IH2 Ho).
Qed.

Lemma assign_pars_settled p m (m1 : ProModel F Point) :
  assign_pars p m = (Ok tt, m1) -> assign_pars p m1 = (Ok tt, m1).
Proof.
  intros Hp. destruct (assign_pars_frame p m) as (_ & _ & _ & Hsame).
  rewrite Hp in Hsame. cbn [snd] in Hsame.
  destruct (assign_pars_loop_indep p 0 _ _ Hsame) as (Hfst & Hsnd).
  unfold assign_pars in Hp |- *.
  destruct (assign_pars_loop p 0 (fns m)) as [o fs1] eqn:Hm.
  injection Hp as -> <-. cbn [fst snd fns set_fns] in *.
  destruct (assign_pars_loop p 0 fs1) as [o' fs1'].
  cbn [fst snd] in *. subst o'. rewrite (Hsnd eq_refl).
  unfold set_fns. done.
Qed.

Lemma ekld_assign_raises m p grid density localgrids (pop cutoff : F) e
    (m1 : ProModel F Point) :
  assign_pars p m = (Raise e, m1) ->
  ekld p grid density localgrids pop cutoff m = (Raise e, m1).
Proof. intros Hp. unfold ekld, mbind at 1, M_bind. by rewrite Hp. Qed.

Lemma ekld_settled m p grid density localgrids (pop cutoff : F)
    (m1 : ProModel F Point) :
  assign_pars p m = (Ok tt, m1) ->
  ekld p grid density localgrids pop cutoff m
  = ekld p grid density localgrids pop cutoff m1.
Proof.
  intros Hp. pose proof (assign_pars_settled p m m1 Hp) as Hp1.
  unfold ekld. by rewrite (bind_ok _ _ m tt m1 Hp), (bind_ok _ _ m1 tt m1 Hp1).
Qed.

Lemma ekld_same_fns (ma mb : ProModel F Point) p grid density localgrids
    (pop cutoff : F) :
  assign_pars p ma = (Ok tt, ma) -> assign_pars p mb = (Ok tt, mb) ->
  fns mb = fns ma ->
  fst (ekld p grid density localgrids pop cutoff mb)
  = fst (ekld p grid density localgrids pop cutoff ma) /\
  fns (snd (ekld p grid density localgrids pop cutoff mb))
  = fns (snd (ekld p grid density localgrids pop cutoff ma)).
Proof.
  intros Ha Hb Hfns. unfold ekld.
  rewrite (bind_ok _ _ ma tt ma Ha), (bind_ok _ _ mb tt mb Hb).
  unfold mbind, M_bind, compute_density, lift, get, mret, M_ret.
  cbn [fns set_ncompute]. rewrite Hfns.
  repeat (match goal with
          | |- context [match ?x with Ok _ => _ | Raise _ => _ end] =>
              destruct x
          end; cbn [fst snd fns set_ncompute]).
  all: split; [unfold model_population; cbn [fns set_ncompute];
               by rewrite ?Hfns|done].
Qed.

(** X11.  The effects of [ekld] on the model, for every input: when the
    assignment of the vector raises, [ekld] raises the same error and leaves
    the model as the assignment left it, without evaluating a density;
    otherwise, whether it then returns or raises, the model holds the
    assigned parameters and its counter has gone up by exactly one.  A
    second call with the same vector starts from the parameters it would
    assign anyway and returns what the first call returned. *)
Theorem ekld_effect m p grid density localgrids (pop cutoff : F) :
  (forall e m1, assign_pars p m = (Raise e, m1) ->
     ekld p grid density localgrids pop cutoff m = (Raise e, m1)) /\
  (forall m1, assign_pars p m = (Ok tt, m1) ->
     snd (ekld p grid density localgrids pop cutoff m)
     = set_ncompute m1 (ncompute m1 + 1) /\
     fst (ekld p grid density localgrids pop cutoff
               (snd (ekld p grid density localgrids pop cutoff m)))
     = fst (ekld p grid density localgrids pop cutoff m)).
Proof.
  split.
  - intros e m1 Hp. unfold ekld, mbind at 1, M_bind. by rewrite Hp.
  - intros m1 Hp.
    assert (Hstate : forall m0 m2, assign_pars p m0 = (Ok tt, m2) ->
              snd (ekld p grid density localgrids pop cutoff m0)
              = set_ncompute m2 (ncompute m2 + 1)).
    { intros m0 m2 Hm0. unfold ekld. rewrite (bind_ok _ _ m0 tt m2 Hm0).
      unfold mbind, M_bind, compute_density, lift, get, mret, M_ret.
      repeat (match goal with
              | |- context [match ?x with Ok _ => _ | Raise _ => _ end] =>
                  destruct x
              end; cbn [fst snd]); reflexivity. }
    split; [by apply Hstate|].
    rewrite (Hstate m m1 Hp).
    pose proof (assign_pars_settled p m m1 Hp) as Hp1.
    assert (Hp2 : assign_pars p (set_ncompute m1 (ncompute m1 + 1))
                  = (Ok tt, set_ncompute m1 (ncompute m1 + 1))).
    { unfold assign_pars in Hp1 |- *. cbn [fns set_ncompute].
      destruct (assign_pars_loop p 0 (fns m1)) as [o fs1].
      injection Hp1 as -> Hfs. f_equal.
      apply (f_equal fns) in Hfs. cbn in Hfs. subst fs1. reflexivity. }
    unfold ekld.
    rewrite (bind_ok _ _ m tt m1 Hp), (bind_ok _ _ _ tt _ Hp2).
    unfold mbind, M_bind, compute_density, lift, get, mret, M_ret.
    cbn [fns set_ncompute].
    repeat (match goal with
            | |- context [match ?x with Ok _ => _ | Raise _ => _ end] =>
                destruct x
            end; cbn [fst snd fns set_ncompute]); reflexivity.
Qed.

(** X12.  What [ekld] returns depends on the vector it is given and not on
    the parameters the model held before: on two models whose functions
    differ only in the values of their parameters, [ekld] returns the same
    value and gradient or raises the same error, and when it returns the
    functions of the two models are equal afterwards. *)
Theorem ekld_forgets_history m (m' : ProModel F Point) p grid density localgrids
    (pop cutoff : F) :
  Forall2 same_function (fns m) (fns m') ->
  fst (ekld p grid density localgrids pop cutoff m')
  = fst (ekld p grid density localgrids pop cutoff m) /\
  (forall r, fst (ekld p grid density localgrids pop cutoff m) = Ok r ->
     fns (snd (ekld p grid density localgrids pop cutoff m'))
     = fns (snd (ekld p grid density localgrids pop cutoff m))).
Proof.
  intros Hsame.
  destruct (assign_pars_loop_indep p 0 _ _ Hsame) as (Hfst & Hsnd).
  destruct (assign_pars p m) as [o m1] eqn:Hm.
  destruct (assign_pars p m') as [o' m1'] eqn:Hm'.
  assert (Ho : o' = o).
  { unfold assign_pars in Hm, Hm'.
    destruct (assign_pars_loop p 0 (fns m)), (assign_pars_loop p 0 (fns m')).
    injection Hm as <- _. injection Hm' as <- _. exact Hfst. }
  subst o'. destruct o as [[]|e].
  - assert (Hfns : fns m1' = fns m1).
    { unfold assign_pars in Hm, Hm'.
      destruct (assign_pars_loop p 0 (fns m)), (assign_pars_loop p 0 (fns m')).
      injection Hm as -> <-. injection Hm' as _ <-. cbn in *. by apply Hsnd. }
    rewrite (ekld_settled _ _ _ _ _ _ _ _ Hm), (ekld_settled _ _ _ _ _ _ _ _ Hm').
    destruct (ekld_same_fns m1 m1' p grid density localgrids pop cutoff) as (-> & ->);
      [by eapply assign_pars_settled..|done|done].
  - rewrite (ekld_assign_raises _ _ _ _ _ _ _ _ _ Hm),
      (ekld_assign_raises _ _ _ _ _ _ _ _ _ Hm').
    split; [done|]. intros r Hr. discriminate.
Qed.
End EkldMore.
(** ** More on the driver *)

Section OptimizeMore.
Context {F Point : Type} `{Scalar F} `{BasisOps F Point} `{GridOps F Point}.

Implicit Types (m : ProModel F Point) (grid : Grid F Point).

Lemma same_skeleton_refl m : same_skeleton m m.
Proof.
  split; [reflexivity|]. split; [reflexivity|].
  split; [apply same_functions_refl|lia].
Qed.

Lemma same_skeleton_trans m1 m2 m3 :
  same_skeleton m1 m2 -> same_skeleton m2 m3 -> same_skeleton m1 m3.
Proof.
  intros (Ha & Hc & Hf & Hn) (Ha' & Hc' & Hf' & Hn').
  split; [congruence|]. split; [congruence|].
  split; [eapply same_functions_trans; eassumption|lia].
Qed.

Lemma keeps_ret {A : Type} (a : A) : keeps_skeleton (mret a : @M F Point A).
Proof. intros m. apply same_skeleton_refl. Qed.

Lemma keeps_lift {A : Type} (o : outcome A) : keeps_skeleton (lift o : @M F Point A).
Proof. intros m. apply same_skeleton_refl. Qed.

Lemma keeps_get : keeps_skeleton (get (F := F) (Point := Point)).
Proof. intros m. apply same_skeleton_refl. Qed.

Lemma keeps_bind {A B : Type} (c : @M F Point A) (f : A -> @M F Point B) :
  keeps_skeleton c -> (forall a, keeps_skeleton (f a)) -> keeps_skeleton (c ≫= f).
Proof.
  intros Hc Hf m. unfold mbind, M_bind. specialize (Hc m).
  destruct (c m) as [[a|e] m']; cbn [snd] in *; [|done].
  eapply same_skeleton_trans; [exact Hc|apply Hf].
Qed.

Lemma keeps_assign_pars (p : list F) :
  keeps_skeleton (assign_pars p : @M F Point unit).
Proof.
  intros m. destruct (assign_pars_frame p m) as (Ha & Hc & Hn & Hsame).
  split; [done|]. split; [done|]. split; [done|lia].
Qed.

Lemma keeps_compute_density grid (localgrids : list (LocalGrid F Point)) :
  keeps_skeleton (compute_density grid localgrids).
Proof.
  intros m. unfold compute_density. cbn [snd].
  split; [reflexivity|]. split; [reflexivity|].
  split; [apply same_functions_refl|]. cbn. lia.
Qed.

Lemma keeps_charges : keeps_skeleton (charges (F := F) (Point := Point)).
Proof. intros m. apply same_skeleton_refl. Qed.

Lemma keeps_ekld (p : list F) grid (density : list F)
    (localgrids : list (LocalGrid F Point)) (pop cutoff : F) :
  keeps_skeleton (ekld p grid density localgrids pop cutoff).
Proof.
  unfold ekld.
  apply keeps_bind; [apply keeps_assign_pars|]. intros _.
  apply keeps_bind; [apply keeps_compute_density|]. intros pro.
  do 6 (apply keeps_bind; [apply keeps_lift|]; intros ?).
  apply keeps_bind; [apply keeps_get|]. intros m0.
  apply keeps_bind; [apply keeps_lift|]. intros g. apply keeps_ret.
Qed.

Lemma keeps_run_minimizer (cost : list F -> @M F Point (F * list F))
    (s : minimizer) :
  (forall x, keeps_skeleton (cost x)) -> keeps_skeleton (run_minimizer cost s).
Proof.
  intros Hcost. induction s as [r|e|x k IH]; intros m; cbn [run_minimizer].
  - apply same_skeleton_refl.
  - apply same_skeleton_refl.
  - specialize (Hcost x m). destruct (cost x m) as [[vg|e] m']; cbn [snd] in *;
      [|done].
    eapply same_skeleton_trans; [exact Hcost|apply IH].
Qed.

Lemma optimize_pro_model_keeps_skeleton_aux
    (minimize : list F -> list (F * F) -> F -> minimizer)
    grid (density : list F) (gtol density_cutoff : F) :
  keeps_skeleton (optimize_pro_model minimize grid density gtol density_cutoff).
Proof.
  unfold optimize_pro_model.
  apply keeps_bind; [apply keeps_get|]. intros pro_model.
  apply keeps_bind; [apply keeps_lift|]. intros pop.
  apply keeps_bind; [apply keeps_lift|]. intros pars0.
  apply keeps_bind.
  { apply keeps_run_minimizer. intros x. apply keeps_ekld. }
  intros optresult. destruct (negb (success optresult)); [apply keeps_lift|].
  apply keeps_bind; [apply keeps_charges|]. intros cs.
  apply keeps_bind; [apply keeps_assign_pars|]. intros _.
  apply keeps_bind; [apply keeps_get|]. intros m'. apply keeps_ret.
Qed.

(** X13.  Whatever the minimizer does and whether the driver returns or
    raises, [optimize_pro_model] changes nothing of the model but the values
    of the parameters and the evaluation counter: atomic numbers and
    coordinates are the same, the functions are the same in number and order,
    each with its atom, centre, bounds and parameter count, and the counter
    has not gone down. *)
Theorem optimize_pro_model_keeps_skeleton
    (minimize : list F -> list (F * F) -> F -> minimizer)
    grid (density : list F) (gtol density_cutoff : F) m :
  same_skeleton m
    (snd (optimize_pro_model minimize grid density gtol density_cutoff m)).
Proof.
  apply optimize_pro_model_keeps_skeleton_aux.
Qed.

(** X14.  On a model without basis functions (and a density with one value
    per grid point) [optimize_pro_model] raises [ValueError] when it
    concatenates the initial parameters: the minimizer is never started and
    the model is untouched. *)
Theorem optimize_pro_model_no_functions
    (minimize : list F -> list (F * F) -> F -> minimizer)
    grid (density : list F) (gtol density_cutoff : F) m :
  fns m = [] -> length density = length (weights grid) ->
  optimize_pro_model minimize grid density gtol density_cutoff m
  = (Raise (ValueError "need at least one array to concatenate"), m).
Proof.
  intros Hfns Hd. unfold optimize_pro_model.
  rewrite (bind_ok _ _ m m m) by reflexivity.
  erewrite lift_ok.
  2:{ unfold np_einsum_i_i. rewrite np_ufunc2_same by done. reflexivity. }
  rewrite Hfns. reflexivity.
Qed.

Lemma length_concat_bounds (fs : list (BasisFunction F Point)) :
  Forall bounds_match fs ->
  length (concat (map bounds fs)) = length (concat (map pars fs)).
Proof.
  induction 1 as [|fn fs Hfn _ IH]; [done|].
  cbn [map concat]. rewrite !length_app, IH. unfold bounds_match in Hfn. lia.
Qed.

(** X15.  When the parameters of every function match its bounds in number,
    the driver starts the minimizer with an initial vector and a list of
    bounds of one and the same length, the model's total parameter count: two
    minimizers that agree on such arguments make [optimize_pro_model] behave
    the same. *)
Theorem optimize_pro_model_aligned_bounds
    (minimize minimize' : list F -> list (F * F) -> F -> minimizer)
    grid (density : list F) (gtol density_cutoff : F) m :
  Forall bounds_match (fns m) ->
  (forall x0 bs, length x0 = total_npar (fns m) -> length bs = length x0 ->
     minimize x0 bs gtol = minimize' x0 bs gtol) ->
  optimize_pro_model minimize grid density gtol density_cutoff m
  = optimize_pro_model minimize' grid density gtol density_cutoff m.
Proof.
  intros Hb Hagree. unfold optimize_pro_model.
  rewrite !(bind_ok _ _ m m m) by reflexivity.
  destruct (np_einsum_i_i (weights grid) density) as [pop|e]; [|reflexivity].
  rewrite !(lift_ok _ _ _ pop eq_refl).
  destruct (np_concatenate (map pars (fns m))) as [pars0|e] eqn:Hc; [|reflexivity].
  rewrite !(lift_ok _ _ _ pars0 eq_refl).
  apply np_concatenate_ok in Hc. subst pars0.
  rewrite (Hagree (concat (map pars (fns m))) (concat (map bounds (fns m))));
    [reflexivity| |].
  - rewrite <- (length_concat_pars (fns m)). done.
  - by apply length_concat_bounds.
Qed.

Lemma optimize_pro_model_returns
    (minimize : list F -> list (F * F) -> F -> minimizer)
    grid (density : list F) (gtol density_cutoff : F) m ret
    (m' : ProModel F Point) :
  optimize_pro_model minimize grid density gtol density_cutoff m = (Ok ret, m') ->
  exists pop r m1,
    np_einsum_i_i (weights grid) density = Ok pop /\
    run_minimizer
      (fun pars' =>
         ekld pars' grid density
           (map (fun fn => get_localgrid grid (center fn)
                             (get_cutoff_radius fn density_cutoff)) (fns m))
           pop ekld_default_cutoff)
      (minimize (concat (map pars (fns m))) (concat (map bounds (fns m))) gtol) m
    = (Ok r, m1) /\
    fns m <> [] /\ success r = true /\
    assign_pars (x r) m1 = (Ok tt, m') /\
    ret = (m', map (fun fn => get_localgrid grid (center fn)
                                (get_cutoff_radius fn density_cutoff)) (fns m)).
Proof.
  intros Hret. unfold optimize_pro_model in Hret.
  rewrite (bind_ok _ _ m m m) in Hret by reflexivity.
  destruct (np_einsum_i_i (weights grid) density) as [pop|e] eqn:Hpop;
    [|discriminate].
  rewrite (lift_ok _ _ _ pop eq_refl) in Hret.
  destruct (np_concatenate (map pars (fns m))) as [pars0|e] eqn:Hpars;
    [|discriminate].
  rewrite (lift_ok _ _ _ pars0 eq_refl) in Hret.
  assert (Hne : fns m <> []) by (intros Hnil; rewrite Hnil in Hpars; discriminate).
  apply np_concatenate_ok in Hpars. subst pars0.
  unfold mbind at 1, M_bind in Hret.
  destruct (run_minimizer _ _ m) as [[r|e] m1] eqn:Hrun; [|discriminate].
  destruct (success r) eqn:Hsucc; [|discriminate]. simpl in Hret.
  unfold mbind at 1, M_bind in Hret.
  destruct (charges m1) as [[cs|e] m2] eqn:Hch; [|discriminate].
  assert (m2 = m1) as -> by (pose proof (preserves_charges m1) as Hp;
                              by rewrite Hch in Hp).
  unfold mbind at 1, M_bind in Hret.
  destruct (assign_pars (x r) m1) as [[[]|e] m2] eqn:Hassign; [|discriminate].
  rewrite (bind_ok _ _ m2 m2 m2) in Hret by reflexivity.
  injection Hret as <- <-.
  exists pop, r, m1. done.
Qed.

Lemma same_skeleton_valid m (m1 : ProModel F Point) :
  same_skeleton m m1 -> valid_iatoms m -> valid_iatoms m1.
Proof.
  intros (Ha & _ & Hf & _). unfold valid_iatoms, natom. rewrite Ha.
  generalize (length (atnums m)) as n. intros n.
  induction Hf as [|fn fn' l l' (Hi & _) _ IH]; intros Hv; [constructor|].
  inversion Hv; subst. constructor; [lia|by apply IH].
Qed.

(** X16.  When [optimize_pro_model] returns, the model it returns is the
    model it leaves, it comes with one local grid per function, and the model
    had at least one function.  If moreover the atom indices are within range
    and the solution [r.x] that the minimizer returned has as many entries as
    the model has parameters, [get_results] on the returned model reports
    exactly that solution as ["propars"]. *)
Theorem optimize_pro_model_result
    (minimize : list F -> list (F * F) -> F -> minimizer)
    grid (density : list F) (gtol density_cutoff : F) m ret
    (m' : ProModel F Point) :
  optimize_pro_model minimize grid density gtol density_cutoff m = (Ok ret, m') ->
  fst ret = m' /\ length (snd ret) = length (fns m') /\ fns m <> [] /\
  forall pop r m1,
    np_einsum_i_i (weights grid) density = Ok pop ->
    run_minimizer
      (fun pars' => ekld pars' grid density (snd ret) pop ekld_default_cutoff)
      (minimize (concat (map pars (fns m))) (concat (map bounds (fns m))) gtol) m
    = (Ok r, m1) ->
    valid_iatoms m -> length (x r) = total_npar (fns m) ->
    exists res, get_results m' = (Ok res, m') /\ propars res = x r.
Proof.
  intros Hret.
  pose proof (optimize_pro_model_keeps_skeleton_aux minimize grid density gtol
                density_cutoff m) as Hskel.
  rewrite Hret in Hskel. cbn [snd] in Hskel.
  destruct (optimize_pro_model_returns _ _ _ _ _ _ _ _ Hret)
    as (pop' & r' & m1' & Hpop' & Hrun' & Hne & Hsucc & Hassign & ->).
  cbn [fst snd]. split; [done|]. split.
  { destruct Hskel as (_ & _ & Hf & _). rewrite length_map.
    by apply Forall2_length in Hf. }
  split; [done|]. intros pop r m1 Hpop Hrun Hvalid Hlen.
  rewrite Hpop in Hpop'. injection Hpop' as <-.
  rewrite Hrun in Hrun'. injection Hrun' as <- <-.
  assert (Hskel1 : same_skeleton m m1).
  { pose proof (keeps_run_minimizer
                 (fun pars' => ekld pars' grid density
                    (map (fun fn => get_localgrid grid (center fn)
                                      (get_cutoff_radius fn density_cutoff)) (fns m))
                    pop ekld_default_cutoff)
                 (minimize (concat (map pars (fns m)))
                           (concat (map bounds (fns m))) gtol)
                 (fun x0 => keeps_ekld x0 _ _ _ _ _) m) as Hk.
    by rewrite Hrun in Hk. }
  assert (Htot : total_npar (fns m1) = total_npar (fns m)).
  { destruct Hskel1 as (_ & _ & Hf & _). by apply same_functions_total. }
  rewrite assign_pars_enough in Hassign by lia.
  injection Hassign as <-.
  pose proof (same_skeleton_valid _ _ Hskel1 Hvalid) as Hv1.
  pose proof (valid_iatoms_assigned m1 (x r) 0 Hv1) as Hv'.
  destruct (count_loop_ok (assigned (fns m1) (x r) 0)
              (replicate (natom m1) 0%Z) (replicate (natom m1) 0%Z) (natom m1))
    as [counts Hcounts]; [by rewrite length_replicate..|exact Hv'|].
  exists (mkResults (fst counts) (snd counts) (x r)).
  unfold get_results. unfold natom in *. cbn [fns set_fns atnums] in *.
  rewrite Hcounts. cbn [mbind outcome_bind].
  unfold np_concatenate.
  destruct (map pars (assigned (fns m1) (x r) 0)) as [|a l] eqn:Hmap.
  { destruct Hskel1 as (_ & _ & Hf & _).
    destruct (fns m1) as [|f1 l1]; [|discriminate].
    by apply Forall2_nil_inv_r in Hf. }
  rewrite <- Hmap, assigned_concat by (simpl; lia).
  rewrite drop_0, Htot, <- Hlen, firstn_all. done.
Qed.
End OptimizeMore.
(** ** More on the radial moments *)

Section RadialMore.
Context {F Point : Type} `{Scalar F} `{BasisOps F Point} `{GridOps F Point}
  `{!BasisShapes F Point}.

Implicit Types (m : ProModel F Point) (grid : Grid F Point)
  (result : list (list F)).

Lemma foldM_invariant {A B : Type} (P : A -> Prop) (body : A -> B -> outcome A) :
  (forall a b a', P a -> body a b = Ok a' -> P a') ->
  forall xs a a', P a -> foldM body a xs = Ok a' -> P a'.
Proof.
  intros Hbody. induction xs as [|b xs IH]; intros a a' Ha; cbn [foldM].
  - by intros [= <-].
  - destruct (body a b) as [a1|] eqn:Hb; [|discriminate].
    apply IH. by eapply Hbody.
Qed.

Lemma np_assign_2d_shape (rows cols : nat) result (i j : nat) (v : F) result' :
  has_shape rows cols result -> np_assign_2d result i j v = Ok result' ->
  has_shape rows cols result'.
Proof.
  intros (Hr & Hc). unfold np_assign_2d.
  destruct (result !! i) as [row|] eqn:Hrow; [|discriminate].
  destruct (row !! j); [|discriminate]. intros [= <-].
  split; [by rewrite length_insert|].
  apply Forall_insert; [done|]. rewrite length_insert.
  rewrite Forall_forall in Hc. apply Hc. by eapply list_elem_of_lookup_2.
Qed.

Lemma radial_moments_atom_shape (rows cols : nat) grid (density pro : list F)
    (nmax : Z) result (a : nat) (c : Point) m result' (m' : ProModel F Point) :
  has_shape rows cols result ->
  radial_moments_atom grid density pro nmax result a c m = (Ok result', m') ->
  has_shape rows cols result'.
Proof.
  intros Hshape. unfold radial_moments_atom, mbind, M_bind, lift.
  destruct (compute_proatom _ _ m) as [[pa|] m1]; [|discriminate].
  destruct (np_take pro _) as [pl|]; [|discriminate].
  destruct (np_ufunc2 div pa pl) as [ratio|]; [|discriminate].
  intros [= Hfold _]. revert Hfold. apply foldM_invariant; [|done].
  intros r d r' Hr. unfold mbind, outcome_bind.
  destruct (np_take density _); [|discriminate].
  by apply np_assign_2d_shape.
Qed.

Lemma radial_moments_loop_shape (rows cols : nat) grid (density pro : list F)
    (nmax : Z) (coords : list Point) result (a : nat) m result'
    (m' : ProModel F Point) :
  has_shape rows cols result ->
  radial_moments_loop grid density pro nmax result a coords m = (Ok result', m') ->
  has_shape rows cols result'.
Proof.
  revert result a m. induction coords as [|c coords IH]; intros result a m Hshape;
    cbn [radial_moments_loop].
  - by intros [= <- _].
  - unfold mbind, M_bind.
    destruct (radial_moments_atom _ _ _ _ _ _ _ m) as [[r1|] m1] eqn:Hatom;
      [|discriminate].
    apply IH. by eapply radial_moments_atom_shape.
Qed.

(** X17.  Whenever [compute_radial_moments] returns, [nmax + 1] is not
    negative and the array returned has one row per atomic number and
    [nmax + 1] columns. *)
Theorem compute_radial_moments_shape grid (density : list F)
    (localgrids : list (LocalGrid F Point)) (nmax : Z) m result
    (m' : ProModel F Point) :
  compute_radial_moments grid density localgrids nmax m = (Ok result, m') ->
  (0 <= nmax + 1)%Z /\
  length result = natom m /\
  Forall (fun row => length row = Z.to_nat (nmax + 1)) result.
Proof.
  unfold compute_radial_moments, mbind, M_bind, lift, get.
  destruct (compute_density grid localgrids m) as [[pro|] m1] eqn:Hcd;
    [|discriminate].
  assert (Hnat : natom m1 = natom m).
  { unfold compute_density in Hcd. by injection Hcd as _ <-. }
  destruct (nmax + 1 <? 0)%Z eqn:Hneg; [discriminate|].
  apply Z.ltb_ge in Hneg. intros Hloop. split; [done|].
  apply radial_moments_loop_shape
    with (rows := natom m) (cols := Z.to_nat (nmax + 1)) in Hloop; [exact Hloop|].
  split; [by rewrite length_replicate|].
  apply Forall_replicate. unfold np_zeros. by rewrite length_replicate.
Qed.

(** X18.  With [nmax] below [-1] (and well-formed local grids)
    [compute_radial_moments] raises [ValueError] when it allocates the result;
    the density has been evaluated by then and the counter incremented. *)
Theorem compute_radial_moments_negative_nmax grid (density : list F)
    (localgrids : list (LocalGrid F Point)) (nmax : Z) m :
  (nmax + 1 < 0)%Z ->
  Forall (localgrid_wf (length (weights grid))) localgrids ->
  compute_radial_moments grid density localgrids nmax m
  = (Raise (ValueError "negative dimensions are not allowed"),
     set_ncompute m (ncompute m + 1)).
Proof.
  intros Hneg Hwf.
  destruct (density_loop_ok (length (weights grid)) (fns m) localgrids Hwf)
    as (pro & Hpro & _).
  unfold compute_radial_moments.
  rewrite (bind_ok _ _ m pro (set_ncompute m (ncompute m + 1))).
  2:{ unfold compute_density. cbn [fns set_ncompute]. by rewrite Hpro. }
  rewrite (bind_ok _ _ _ (set_ncompute m (ncompute m + 1))
             (set_ncompute m (ncompute m + 1))) by reflexivity.
  apply Z.ltb_lt in Hneg. rewrite Hneg. reflexivity.
Qed.

Lemma fold_inserts_seq (g : nat -> F) (row : list F) (k : nat) :
  k <= length row ->
  fold_left (fun r d => <[d := g d]> r) (seq 0 k) row
  = map g (seq 0 k) ++ drop k row.
Proof.
  induction k as [|k IH]; intros Hk; [by rewrite drop_0|].
  rewrite seq_S, fold_left_app, IH by lia. cbn [fold_left Nat.add].
  destruct (lookup_lt_is_Some_2 row k ltac:(lia)) as [y Hy].
  rewrite (drop_S _ _ _ Hy).
  replace k with (length (map g (seq 0 k)) + 0) at 1
    by (rewrite length_map, length_seq; lia).
  rewrite insert_app_r. cbn [insert list_insert].
  rewrite map_app. cbn [map]. by rewrite <- app_assoc.
Qed.

Lemma degrees_loop_spec (density dl : list F) (idx : list nat) (a : nat)
    (g : list F -> nat -> F) :
  np_take density idx = Ok dl ->
  forall (degs : list nat) result (row : list F),
    result !! a = Some row -> Forall (fun d => d < length row) degs ->
    foldM (fun result degree =>
             density_local ← np_take density idx;
             np_assign_2d result a degree (g density_local degree))
          result degs
    = Ok (<[a := fold_left (fun r d => <[d := g dl d]> r) degs row]> result).
Proof.
  intros Hdl.
  set (body := fun result degree =>
                 density_local ← np_take density idx;
                 np_assign_2d result a degree (g density_local degree)).
  induction degs as [|d degs IH]; intros result row Hrow Hdegs.
  - cbn [foldM fold_left]. by rewrite list_insert_id.
  - inversion Hdegs as [|? ? Hd Hrest]; subst. cbn [foldM fold_left].
    unfold body at 1. rewrite Hdl. cbn [mbind outcome_bind].
    unfold np_assign_2d. rewrite Hrow.
    destruct (lookup_lt_is_Some_2 row d Hd) as [y ->].
    pose proof (lookup_lt_Some _ _ _ Hrow) as Ha.
    rewrite (IH (<[a := <[d := g dl d]> row]> result) (<[d := g dl d]> row)).
    + by rewrite list_insert_insert_eq.
    + by apply list_lookup_insert_eq.
    + by rewrite length_insert.
Qed.

Lemma compute_proatom_array m (a : nat) (lg : LocalGrid F Point) (n : nat) :
  localgrid_wf n lg ->
  compute_proatom a lg m = (Ok (proatom_array m a lg), m) /\
  length (proatom_array m a lg) = length (indices lg).
Proof.
  intros (Hp & Hw & _).
  destruct (proatom_loop_spec a (points lg) (fns m) (np_zeros (length (weights lg))))
    as (pa & Hpa & Hl & Hat).
  { unfold np_zeros. rewrite length_replicate. lia. }
  assert (Heq : pa = proatom_array m a lg).
  { unfold proatom_array. rewrite <- Hl. apply (list_as_map_seq pa _ zero).
    intros i Hi. rewrite (Hat i) by lia. unfold proatom_at, fsum. f_equal.
    unfold np_zeros. by rewrite nth_lookup, lookup_replicate_2 by lia. }
  subst pa. split; [|lia]. unfold compute_proatom. by rewrite Hpa.
Qed.

Lemma radial_moments_atom_spec grid (density pro : list F) (nmax : Z) result
    (a : nat) (c : Point) (row : list F) m :
  localgrid_wf (length (weights grid)) (get_localgrid grid c (lit 8 0)) ->
  length density = length (weights grid) ->
  length pro = length (weights grid) ->
  result !! a = Some row -> length row = Z.to_nat (nmax + 1) ->
  radial_moments_atom grid density pro nmax result a c m
  = (Ok (<[a := map (radial_moment (get_localgrid grid c (lit 8 0)) c density pro
                       (proatom_array m a (get_localgrid grid c (lit 8 0))))
                    (seq 0 (Z.to_nat (nmax + 1)))]> result), m).
Proof.
  intros Hwf Hd Hpro Hrow Hlen. unfold radial_moments_atom.
  set (lg := get_localgrid grid c (lit 8 0)) in *.
  destruct (compute_proatom_array m a lg _ Hwf) as (Hpa & Hlpa).
  destruct Hwf as (Hp & Hw & Hidx).
  rewrite (bind_ok _ _ m _ m Hpa).
  rewrite (lift_ok _ _ _ (map (fun i => nth i pro zero) (indices lg))).
  2:{ apply (np_take_ok pro (indices lg) zero). by rewrite Hpro. }
  rewrite (lift_ok _ _ _ (zip_with div (proatom_array m a lg)
                            (map (fun i => nth i pro zero) (indices lg)))).
  2:{ apply np_ufunc2_same. by rewrite length_map. }
  assert (Hdl : np_take density (indices lg)
                = Ok (map (fun i => nth i density zero) (indices lg))).
  { apply (np_take_ok density (indices lg) zero). by rewrite Hd. }
  unfold lift. f_equal.
  rewrite (degrees_loop_spec density (map (fun i => nth i density zero) (indices lg))
             (indices lg) a
             (fun dl degree =>
                integrate lg [dl;
                              map (fun d => pow d (Z.of_nat degree))
                                  (map (fun q => distance q c) (points lg));
                              zip_with div (proatom_array m a lg)
                                (map (fun i => nth i pro zero) (indices lg))])
             Hdl _ result row Hrow).
  2:{ apply Forall_forall. intros d Hdeg. apply elem_of_seq in Hdeg. lia. }
  f_equal. f_equal. rewrite fold_inserts_seq by lia.
  rewrite drop_ge by lia. by rewrite app_nil_r.
Qed.

Lemma radial_moments_loop_spec grid (density pro : list F) (nmax : Z) m :
  (forall c r, localgrid_wf (length (weights grid)) (get_localgrid grid c r)) ->
  length density = length (weights grid) ->
  length pro = length (weights grid) ->
  forall (coords : list Point) result (a0 : nat),
    has_shape (length result) (Z.to_nat (nmax + 1)) result ->
    a0 + length coords <= length result ->
    exists result',
      radial_moments_loop grid density pro nmax result a0 coords m
      = (Ok result', m) /\
      length result' = length result /\
      (forall a c, coords !! a = Some c ->
         result' !! (a0 + a)
         = Some (map (radial_moment (get_localgrid grid c (lit 8 0)) c density pro
                        (proatom_array m (a0 + a) (get_localgrid grid c (lit 8 0))))
                     (seq 0 (Z.to_nat (nmax + 1))))) /\
      (forall a, a < a0 \/ a0 + length coords <= a -> result' !! a = result !! a).
Proof.
  intros Hget Hd Hpro. induction coords as [|c coords IH]; intros result a0 Hshape Hle.
  - exists result. cbn [radial_moments_loop]. split; [done|]. split; [done|].
    split; [intros a c Hc; discriminate|done].
  - cbn [radial_moments_loop]. cbn [length] in Hle.
    destruct Hshape as (_ & Hcols).
    destruct (lookup_lt_is_Some_2 result a0 ltac:(lia)) as [row Hrow].
    assert (Hlrow : length row = Z.to_nat (nmax + 1)).
    { rewrite Forall_forall in Hcols. eapply Hcols, list_elem_of_lookup_2, Hrow. }
    rewrite (bind_ok _ _ m _ m
               (radial_moments_atom_spec grid density pro nmax result a0 c row m
                  (Hget c _) Hd Hpro Hrow Hlrow)).
    set (row' := map _ (seq 0 (Z.to_nat (nmax + 1)))).
    destruct (IH (<[a0 := row']> result) (S a0)) as (result' & Hrun & Hl & Hat & Hother).
    { split; [done|]. apply Forall_insert; [done|].
      unfold row'. by rewrite length_map, length_seq. }
    { rewrite length_insert. lia. }
    exists result'. split; [exact Hrun|]. rewrite length_insert in Hl.
    split; [done|]. split.
    + intros [|a] c' Hc'.
      * cbn in Hc'. injection Hc' as <-. rewrite Nat.add_0_r.
        rewrite Hother by lia. apply list_lookup_insert_eq. lia.
      * cbn in Hc'. replace (a0 + S a) with (S a0 + a) by lia. by apply Hat.
    + intros a Ha. cbn [length] in Ha. rewrite Hother by lia.
      apply list_lookup_insert_ne. lia.
Qed.

(** X19.  With well-formed local grids, a grid library whose local grids are
    well formed, one density value per grid point and no more atom
    coordinates than atomic numbers ([nmax + 1] not negative),
    [compute_radial_moments] returns one row per atomic number.  The row of an
    atom with coordinates holds, for each degree [0..nmax], the integral over
    that atom's local grid (radius [8.0]) of the density, times the distance
    to the atom to that degree, times the atom's pro-atom density divided by
    the model density; atoms without coordinates keep a row of zeros. *)
Theorem compute_radial_moments_spec grid (density : list F)
    (localgrids : list (LocalGrid F Point)) (nmax : Z) m :
  Forall (localgrid_wf (length (weights grid))) localgrids ->
  (forall c r, localgrid_wf (length (weights grid)) (get_localgrid grid c r)) ->
  length density = length (weights grid) ->
  length (atcoords m) <= natom m ->
  (0 <= nmax + 1)%Z ->
  exists pro result,
    compute_density grid localgrids m = (Ok pro, set_ncompute m (ncompute m + 1)) /\
    compute_radial_moments grid density localgrids nmax m
    = (Ok result, set_ncompute m (ncompute m + 1)) /\
    length result = natom m /\
    (forall a c, atcoords m !! a = Some c ->
       compute_proatom a (get_localgrid grid c (lit 8 0))
                       (set_ncompute m (ncompute m + 1))
       = (Ok (proatom_array m a (get_localgrid grid c (lit 8 0))),
          set_ncompute m (ncompute m + 1)) /\
       result !! a
       = Some (map (radial_moment (get_localgrid grid c (lit 8 0)) c density pro
                      (proatom_array m a (get_localgrid grid c (lit 8 0))))
                   (seq 0 (Z.to_nat (nmax + 1))))) /\
    (forall a, length (atcoords m) <= a < natom m ->
       result !! a = Some (np_zeros (Z.to_nat (nmax + 1)))).
Proof.
  intros Hwf Hget Hd Hat Hn.
  destruct (density_loop_ok (length (weights grid)) (fns m) localgrids Hwf)
    as (pro & Hpro & Hlpro).
  set (m1 := set_ncompute m (ncompute m + 1)).
  assert (Hcd : compute_density grid localgrids m = (Ok pro, m1)).
  { unfold compute_density. cbn [fns set_ncompute]. by rewrite Hpro. }
  set (zeros := replicate (natom m) (np_zeros (Z.to_nat (nmax + 1)) : list F)).
  destruct (radial_moments_loop_spec grid density pro nmax m1 Hget Hd Hlpro
              (atcoords m) zeros 0)
    as (result & Hrun & Hl & Hrows & Hother).
  { split; [done|]. apply Forall_replicate. unfold np_zeros.
    by rewrite length_replicate. }
  { unfold zeros. rewrite length_replicate. cbn. lia. }
  unfold zeros in Hl. rewrite length_replicate in Hl.
  exists pro, result. split; [exact Hcd|]. split.
  { unfold compute_radial_moments.
    rewrite (bind_ok _ _ m pro m1 Hcd), (bind_ok _ _ m1 m1 m1) by reflexivity.
    assert (Hneg : (nmax + 1 <? 0)%Z = false) by (apply Z.ltb_ge; lia).
    rewrite Hneg. rewrite (lift_ok _ _ _ zeros) by reflexivity.
    exact Hrun. }
  split; [done|]. split.
  - intros a c Hc. split.
    + apply (compute_proatom_array m1 a _ _ (Hget c _)).
    + apply (Hrows a c Hc).
  - intros a Ha. rewrite Hother by (cbn; lia).
    unfold zeros. apply lookup_replicate_2. lia.
Qed.
End RadialMore.
(** ** The constructor's invariant, and the evaluator on a masked grid *)

Section InvariantFacts.
Context {F Point : Type} `{Scalar F} `{BasisOps F Point} `{GridOps F Point}
  `{!BasisShapes F Point}.

Implicit Types (m : ProModel F Point) (grid : Grid F Point).

Lemma keeps_compute_proatom (a : nat) grid :
  keeps_skeleton (compute_proatom a grid : @M F Point (list F)).
Proof. intros m. apply same_skeleton_refl. Qed.

Lemma keeps_radial_moments_loop grid (density pro : list F) (nmax : Z)
    (coords : list Point) (result : list (list F)) (a : nat) :
  keeps_skeleton (radial_moments_loop grid density pro nmax result a coords).
Proof.
  revert result a. induction coords as [|c coords IH]; intros result a;
    cbn [radial_moments_loop]; [apply keeps_ret|].
  apply keeps_bind; [|intros r; apply IH].
  unfold radial_moments_atom.
  apply keeps_bind; [apply keeps_compute_proatom|]. intros pa.
  do 2 (apply keeps_bind; [apply keeps_lift|]; intros ?). apply keeps_lift.
Qed.

Lemma keeps_compute_radial_moments grid (density : list F)
    (localgrids : list (LocalGrid F Point)) (nmax : Z) :
  keeps_skeleton (compute_radial_moments grid density localgrids nmax).
Proof.
  unfold compute_radial_moments.
  apply keeps_bind; [apply keeps_compute_density|]. intros pro.
  apply keeps_bind; [apply keeps_get|]. intros pm.
  apply keeps_bind; [apply keeps_lift|]. intros result.
  apply keeps_radial_moments_loop.
Qed.

(** X20.  Functions whose parameters match their bounds in number, as
    [BasisFunction.__init__] demands, still do after [ekld], after
    [optimize_pro_model] and after [compute_radial_moments], for every input
    and whether the call returns or raises; a function built by
    [BasisFunction.__init__] is such a function. *)
Theorem bounds_match_kept
    (minimize : list F -> list (F * F) -> F -> minimizer)
    (p : list F) grid (density : list F) (localgrids : list (LocalGrid F Point))
    (pop cutoff gtol : F) (nmax : Z) m :
  Forall bounds_match (fns m) ->
  Forall bounds_match (fns (snd (ekld p grid density localgrids pop cutoff m))) /\
  Forall bounds_match
    (fns (snd (optimize_pro_model minimize grid density gtol cutoff m))) /\
  Forall bounds_match
    (fns (snd (compute_radial_moments grid density localgrids nmax m))) /\
  (forall i c ps bs fn,
     BasisFunction_init i c ps bs = Ok fn -> bounds_match (fn : BasisFunction F Point)).
Proof.
  intros Hb. split; [|split; [|split]].
  - destruct (keeps_ekld p grid density localgrids pop cutoff m) as (_ & _ & Hf & _).
    by eapply same_functions_bounds_match.
  - destruct (optimize_pro_model_keeps_skeleton_aux minimize grid density gtol
                cutoff m) as (_ & _ & Hf & _).
    by eapply same_functions_bounds_match.
  - destruct (keeps_compute_radial_moments grid density localgrids nmax m)
      as (_ & _ & Hf & _).
    by eapply same_functions_bounds_match.
  - intros i c ps bs fn. unfold BasisFunction_init.
    destruct (length ps =? length bs) eqn:Hl; [|discriminate].
    intros [= <-]. by apply Nat.eqb_eq in Hl.
Qed.

Lemma fsum_zeros `{!ScalarLaws F} {A : Type} (f : A -> F) (l : list A) :
  (forall x, x ∈ l -> f x = zero) -> fsum (map f l) = zero.
Proof.
  induction l as [|x l IH]; intros Hf; [done|].
  cbn [map]. rewrite fsum_cons, Hf, add_0_l by (by left).
  apply IH. intros y Hy. apply Hf. by right.
Qed.

Lemma gradient_slice_masked `{!ScalarLaws F} (fn : BasisFunction F Point)
    (lg : LocalGrid F Point) (rf : nat -> F) :
  (forall i, i ∈ indices lg -> rf i = zero) ->
  gradient_slice fn lg rf = population_derivatives fn.
Proof.
  intros Hrf. unfold gradient_slice.
  rewrite <- (population_derivatives_length fn). symmetry.
  apply (list_as_map_seq _ _ zero). intros j Hj.
  unfold big_sum. rewrite fsum_zeros; [by rewrite sub_0_r|].
  intros k Hk. apply elem_of_seq in Hk. unfold projection_term.
  rewrite Hrf; [by rewrite mul_0_r, mul_0_l|].
  apply list_elem_of_In, nth_In. lia.
Qed.

Lemma gradient_slices_masked `{!ScalarLaws F} (rf : nat -> F) (n : nat)
    (fs : list (BasisFunction F Point)) (lgs : list (LocalGrid F Point)) :
  (forall i, i < n -> rf i = zero) ->
  length lgs = length fs -> Forall (localgrid_wf n) lgs ->
  concat (zip_with (fun fn lg => gradient_slice fn lg rf) fs lgs)
  = concat (map population_derivatives fs).
Proof.
  intros Hrf. revert lgs. induction fs as [|fn fs IH]; intros [|lg lgs] Hl Hwf;
    try discriminate; [done|].
  cbn [zip_with map concat]. inversion Hwf as [|? ? (_ & _ & Hidx) Hrest]; subst.
  rewrite IH by (simpl in Hl; done || lia). f_equal.
  apply gradient_slice_masked. intros i Hi. apply Hrf.
  rewrite Forall_forall in Hidx. by apply Hidx.
Qed.

(** X21.  Under the exact laws, when the reference density is below the
    cutoff at every grid point, every point is masked: the value that [ekld]
    returns is [0 - (pop - population)] and the gradient is the concatenation
    of the functions' [population_derivatives]. *)
Theorem ekld_all_masked `{!ScalarLaws F} m (p : list F) grid (density : list F)
    (localgrids : list (LocalGrid F Point)) (pop cutoff : F) :
  length p = total_npar (fns m) ->
  ekld_inputs_wf m grid density localgrids ->
  (forall i, i < length (weights grid) -> ltb (nth i density zero) cutoff = true) ->
  ekld p grid density localgrids pop cutoff m
  = (Ok (sub zero (sub pop (model_population (after_ekld m p))),
         concat (map population_derivatives (fns (after_ekld m p)))),
     after_ekld m p).
Proof.
  intros Hlen Hwf Hlow.
  destruct (ekld_run m p grid density localgrids pop cutoff Hlen Hwf)
    as (pro & _ & _ & ->).
  destruct Hwf as (_ & Hlgs & Hwf).
  assert (Hlgs' : length (fns (after_ekld m p)) = length (fns m))
    by (cbn; apply assigned_length).
  assert (Hsick : forall i, i < length (weights grid) ->
            sick_at density pro cutoff i = true).
  { intros i Hi. unfold sick_at. by rewrite (Hlow i Hi). }
  assert (Hv : big_sum (length (weights grid))
                 (kld_term grid density (lnratio_at density pro cutoff)) = zero).
  { unfold big_sum. apply fsum_zeros. intros i Hi. apply elem_of_seq in Hi.
    unfold kld_term, lnratio_at. rewrite Hsick by lia. by rewrite mul_0_r. }
  assert (Hg : concat (zip_with (fun fn lg =>
                                   gradient_slice fn lg (ratio_at density pro cutoff))
                                (fns (after_ekld m p)) localgrids)
               = concat (map population_derivatives (fns (after_ekld m p)))).
  { apply (gradient_slices_masked _ (length (weights grid))); [|by rewrite Hlgs' |done].
    intros i Hi. unfold ratio_at. by rewrite Hsick. }
  by rewrite Hv, Hg.
Qed.
End InvariantFacts.
(** ** Runs on the one-dimensional instance *)

Module LineRuns.
Import Line.

(** The integers satisfy the exact laws, and the box family returns arrays
    of the promised shapes. *)
#[export] Instance Z_scalar_laws : ScalarLaws Z.
Proof. split; unfold zero; simpl; intros; lia. Qed.

#[export] Instance box_shapes : BasisShapes Z Z.
Proof.
  split; simpl; intros.
  - by rewrite length_map.
  - by rewrite length_map.
  - by rewrite length_map.
  - apply list_elem_of_fmap in H as (? & -> & _). by rewrite length_map.
Qed.

(** The evaluator on the five-point grid: points [0] and [4] are masked by
    the cutoff [3]. *)
Example ekld_line_run :
  ekld [1; 2; 3]%Z grid5 density5 localgrids2 14%Z 3%Z model2
  = (Ok (10%Z, [5; 5; 5]%Z), model2_at [1; 2]%Z [3]%Z 1).
Proof. reflexivity. Qed.

Example charges_line_run : charges model2 = (Ok [-9; -8]%Z, model2).
Proof. reflexivity. Qed.

(** A vector that stops one element into a slice is broadcast by NumPy: the
    single function of [model1] asks for two parameters and gets [7] twice. *)
Example assign_pars_broadcasts_single_value :
  assign_pars [7]%Z model1 = (Ok tt, set_fns model1 [set_pars fn_a [7; 7]%Z]).
Proof. reflexivity. Qed.

(** A vector that stops short otherwise makes the slice assignment raise; the
    functions before it keep their new parameters. *)
Example assign_pars_short_vector_raises :
  assign_pars [7; 8]%Z model2
  = (Raise (ValueError "could not broadcast input array"),
     model2_at [7; 8]%Z [2]%Z 0).
Proof. reflexivity. Qed.

Ltac line_wf :=
  unfold ekld_inputs_wf, localgrid_wf, valid_iatoms; simpl;
  repeat first [ split | apply Forall_cons | apply Forall_nil | reflexivity
               | progress (vm_compute; lia) ].

Lemma assign_pars_length_mismatch_witness :
  (total_npar (fns model2) < length [7; 8; 9; 10]%Z /\
   assign_pars [7; 8; 9; 10]%Z model2
   = (Ok tt, set_fns model2 (assigned (fns model2) [7; 8; 9; 10]%Z 0)) /\
   concat (map pars (assigned (fns model2) [7; 8; 9; 10]%Z 0))
   = take (total_npar (fns model2)) [7; 8; 9; 10]%Z) /\
  (length [7; 8]%Z < total_npar (fns model2) /\
   ((exists msg m', assign_pars [7; 8]%Z model2 = (Raise (ValueError msg), m')) \/
    (exists k fn, fns model2 !! k = Some fn /\ 1 < npar fn /\
                  length [7; 8]%Z = offset (fns model2) k + 1))).
Proof.
  split.
  - split; [vm_compute; lia|].
    apply (assign_pars_length_mismatch model2 [7; 8; 9; 10]%Z). vm_compute. lia.
  - split; [vm_compute; lia|].
    apply (assign_pars_length_mismatch model2 [7; 8]%Z). vm_compute. lia.
Defined.

(** The claim of C4 fails: a vector of four values is assigned to a model
    with three parameters without any error; the first three values are
    consumed and the fourth is dropped. *)
Lemma assign_pars_accepts_longer_vector :
  length [7; 8; 9; 10]%Z <> total_npar (fns model2) /\
  assign_pars [7; 8; 9; 10]%Z model2 = (Ok tt, model2_at [7; 8]%Z [9]%Z 0).
Proof. split; [vm_compute; lia|reflexivity]. Qed.

Lemma assign_pars_get_results_roundtrip_witness :
  length [7; 8; 9]%Z = total_npar (fns model2) /\
  fns model2 <> [] /\ valid_iatoms model2 /\
  exists m1,
    assign_pars [7; 8; 9]%Z model2 = (Ok tt, m1) /\
    exists r, get_results m1 = (Ok r, m1) /\ propars r = [7; 8; 9]%Z.
Proof.
  split; [reflexivity|]. split; [discriminate|]. split; [line_wf|].
  destruct (assign_pars_get_results_roundtrip model2 [7; 8; 9]%Z eq_refl)
    as (m1 & Hassign & _ & Hreturns).
  exists m1. split; [exact Hassign|].
  apply Hreturns; [discriminate | line_wf].
Defined.

(** The claim of C6 fails on a model without basis functions: the empty
    vector has the right length and is assigned, but [get_results] raises
    instead of returning a ["propars"] entry. *)
Lemma get_results_empty_model :
  length ([] : list Z) = total_npar (fns model0) /\
  assign_pars [] model0 = (Ok tt, model0) /\
  get_results model0
  = (Raise (ValueError "need at least one array to concatenate"), model0).
Proof. repeat split. Qed.

Lemma charges_spec_witness :
  valid_iatoms model2 /\
  ScalarLaws Z /\
  exists cs,
    charges model2 = (Ok cs, model2) /\
    length cs = natom model2 /\
    (forall a z, atnums model2 !! a = Some z ->
       cs !! a
       = Some (fold_left sub
                 (map population (filter (fun fn => iatom fn = a) (fns model2)))
                 (of_Z z))) /\
    (ScalarLaws Z ->
     (forall a z, atnums model2 !! a = Some z ->
        cs !! a = Some (sub (of_Z z) (atom_population model2 a))) /\
     fsum cs = sub (fsum (map of_Z (atnums model2))) (model_population model2)).
Proof.
  split; [line_wf|]. split; [exact Z_scalar_laws|].
  apply (charges_spec model2). line_wf.
Defined.

(** The claim of C8 fails: the call returns normally and the evaluation
    counter of the model has gone from [0] to [1]. *)
Lemma compute_radial_moments_counts :
  fst (compute_radial_moments grid5 density5 localgrids2 2 model2)
  = Ok [[2; 2; 2]; [2; 2; 2]]%Z /\
  ncompute model2 = 0%Z /\
  ncompute (snd (compute_radial_moments grid5 density5 localgrids2 2 model2)) = 1%Z /\
  snd (compute_radial_moments grid5 density5 localgrids2 2 model2) <> model2.
Proof.
  split; [reflexivity|]. split; [reflexivity|]. split; [reflexivity|].
  vm_compute. discriminate.
Qed.

Lemma compute_proatom_spec_witness :
  snd (compute_proatom 0 grid5 model2) = model2 /\
  ncompute (snd (compute_density grid5 localgrids2 model2)) = (ncompute model2 + 1)%Z /\
  length (points grid5) = length (weights grid5) /\
  exists pro,
    compute_proatom 0 grid5 model2 = (Ok pro, model2) /\
    length pro = length (points grid5) /\
    forall i, i < length (points grid5) ->
      pro !! i = Some (proatom_at model2 0 (points grid5) i).
Proof.
  split; [apply (compute_proatom_spec model2 0 grid5 localgrids2)|].
  split; [apply (compute_proatom_spec model2 0 grid5 localgrids2)|].
  split; [reflexivity|].
  apply (compute_proatom_spec model2 0 grid5 localgrids2). reflexivity.
Defined.

Lemma ekld_value_witness :
  length [1; 2; 3]%Z = total_npar (fns model2) /\
  ekld_inputs_wf model2 grid5 density5 localgrids2 /\
  exists pro value gradient,
    assign_pars [1; 2; 3]%Z model2
    = (Ok tt, set_fns model2 (assigned (fns model2) [1; 2; 3]%Z 0)) /\
    compute_density grid5 localgrids2
      (set_fns model2 (assigned (fns model2) [1; 2; 3]%Z 0))
    = (Ok pro, after_ekld model2 [1; 2; 3]%Z) /\
    ekld [1; 2; 3]%Z grid5 density5 localgrids2 14%Z 3%Z model2
    = (Ok (value, gradient), after_ekld model2 [1; 2; 3]%Z) /\
    value
    = sub (big_sum (length (weights grid5))
             (fun i =>
                mul (mul (nth i (weights grid5) zero) (nth i density5 zero))
                    (if sick_at density5 pro 3%Z i then zero
                     else sub (log (nth i density5 zero)) (log (nth i pro zero)))))
          (sub 14%Z (model_population (after_ekld model2 [1; 2; 3]%Z))).
Proof.
  split; [reflexivity|]. split; [line_wf|].
  apply (ekld_value model2 [1; 2; 3]%Z grid5 density5 localgrids2 14%Z 3%Z);
    [reflexivity | line_wf].
Defined.

Lemma ekld_gradient_witness :
  length [1; 2; 3]%Z = total_npar (fns model2) /\
  ekld_inputs_wf model2 grid5 density5 localgrids2 /\
  exists pro value gradient,
    compute_density grid5 localgrids2
      (set_fns model2 (assigned (fns model2) [1; 2; 3]%Z 0))
    = (Ok pro, after_ekld model2 [1; 2; 3]%Z) /\
    ekld [1; 2; 3]%Z grid5 density5 localgrids2 14%Z 3%Z model2
    = (Ok (value, gradient), after_ekld model2 [1; 2; 3]%Z) /\
    length gradient = length [1; 2; 3]%Z /\
    gradient
    = concat (zip_with (fun fn lg =>
                          gradient_slice fn lg (ratio_at density5 pro 3%Z))
                       (fns (after_ekld model2 [1; 2; 3]%Z)) localgrids2) /\
    forall k fn lg j,
      fns (after_ekld model2 [1; 2; 3]%Z) !! k = Some fn ->
      localgrids2 !! k = Some lg ->
      j < npar fn ->
      gradient !! (offset (fns (after_ekld model2 [1; 2; 3]%Z)) k + j)
      = Some (sub (nth j (population_derivatives fn) zero)
                  (big_sum (length (indices lg))
                     (fun q =>
                        mul (mul (nth q (weights lg) zero)
                                 (ratio_at density5 pro 3%Z (nth q (indices lg) 0)))
                            (nth q (nth j (compute_derivatives fn (points lg)) [])
                                 zero)))).
Proof.
  split; [reflexivity|]. split; [line_wf|].
  apply (ekld_gradient model2 [1; 2; 3]%Z grid5 density5 localgrids2 14%Z 3%Z);
    [reflexivity | line_wf].
Defined.

Lemma ekld_masked_points_witness :
  length [1; 2; 3]%Z = total_npar (fns model2) /\
  ekld_inputs_wf model2 grid5 density5 localgrids2 /\
  ScalarLaws Z /\
  exists pro value gradient,
    compute_density grid5 localgrids2 (set_fns model2 (assigned (fns model2) [1; 2; 3]%Z 0))
    = (Ok pro, after_ekld model2 [1; 2; 3]%Z) /\
    ekld [1; 2; 3]%Z grid5 density5 localgrids2 14%Z 3%Z model2
    = (Ok (value, gradient), after_ekld model2 [1; 2; 3]%Z) /\
    value
    = sub (big_sum (length (weights grid5))
                   (kld_term grid5 density5 (lnratio_at density5 pro 3%Z)))
          (sub 14%Z (model_population (after_ekld model2 [1; 2; 3]%Z))) /\
    (forall i, sick_at density5 pro 3%Z i = true ->
       kld_term grid5 density5 (lnratio_at density5 pro 3%Z) i
       = mul (mul (nth i (weights grid5) zero) (nth i density5 zero)) zero) /\
    (forall k fn lg j,
       fns (after_ekld model2 [1; 2; 3]%Z) !! k = Some fn -> localgrids2 !! k = Some lg ->
       j < npar fn ->
       gradient !! (offset (fns (after_ekld model2 [1; 2; 3]%Z)) k + j)
       = Some (sub (nth j (population_derivatives fn) zero)
                   (big_sum (length (indices lg))
                            (projection_term fn lg (ratio_at density5 pro 3%Z) j))) /\
       forall q, sick_at density5 pro 3%Z (nth q (indices lg) 0) = true ->
         projection_term fn lg (ratio_at density5 pro 3%Z) j q
         = mul (mul (nth q (weights lg) zero) zero)
               (nth q (nth j (compute_derivatives fn (points lg)) []) zero)) /\
    (ScalarLaws Z ->
     (forall i, sick_at density5 pro 3%Z i = true ->
        kld_term grid5 density5 (lnratio_at density5 pro 3%Z) i = zero) /\
     value
     = sub (fsum (map (fun i =>
                         mul (mul (nth i (weights grid5) zero) (nth i density5 zero))
                             (sub (log (nth i density5 zero)) (log (nth i pro zero))))
                      (filter (fun i => sick_at density5 pro 3%Z i = false)
                              (seq 0 (length (weights grid5))))))
           (sub 14%Z (model_population (after_ekld model2 [1; 2; 3]%Z))) /\
     forall k fn lg j,
       fns (after_ekld model2 [1; 2; 3]%Z) !! k = Some fn -> localgrids2 !! k = Some lg ->
       j < npar fn ->
       (forall q, sick_at density5 pro 3%Z (nth q (indices lg) 0) = true ->
          projection_term fn lg (ratio_at density5 pro 3%Z) j q = zero) /\
       gradient !! (offset (fns (after_ekld model2 [1; 2; 3]%Z)) k + j)
       = Some (sub (nth j (population_derivatives fn) zero)
                   (fsum (map (fun q =>
                                 mul (mul (nth q (weights lg) zero)
                                          (div (nth (nth q (indices lg) 0) density5 zero)
                                               (nth (nth q (indices lg) 0) pro zero)))
                                     (nth q (nth j (compute_derivatives fn (points lg)) [])
                                          zero))
                              (filter (fun q => sick_at density5 pro 3%Z
                                                  (nth q (indices lg) 0) = false)
                                      (seq 0 (length (indices lg)))))))).
Proof.
  split; [reflexivity|]. split; [line_wf|]. split; [exact Z_scalar_laws|].
  apply (ekld_masked_points model2 [1; 2; 3]%Z grid5 density5 localgrids2 14%Z 3%Z);
    [reflexivity | line_wf].
Defined.

Lemma optimize_pro_model_convergence_witness :
  (exists e,
     optimize_pro_model gives_up grid5 density5 0%Z 0%Z model2
     = (Raise e, model2_at [3; 3]%Z [3]%Z 2) /\ ConvergenceError e) /\
  (exists pop pars0 r m1,
     np_einsum_i_i (weights grid5) density5 = Ok pop /\
     np_concatenate (map pars (fns model2)) = Ok pars0 /\
     run_minimizer
       (fun pars' => ekld pars' grid5 density5 localgrids2 pop ekld_default_cutoff)
       (settles pars0 (concat (map bounds (fns model2))) 0%Z) model2
     = (Ok r, m1) /\
     success r = true /\
     assign_pars (x r) m1 = (Ok tt, model2_at [3; 3]%Z [3]%Z 1) /\
     (model2_at [3; 3]%Z [3]%Z 1, localgrids2)
     = (model2_at [3; 3]%Z [3]%Z 1, localgrids2)).
Proof.
  split.
  - apply (proj1 (optimize_pro_model_convergence gives_up grid5 density5 0%Z 0%Z
                    model2)
             14%Z [1; 1; 2]%Z
             (mkOptimizeResult [3; 3; 3]%Z false "no convergence")
             (model2_at [3; 3]%Z [3]%Z 2));
      reflexivity.
  - apply (proj2 (optimize_pro_model_convergence settles grid5 density5 0%Z 0%Z
                    model2)
             (model2_at [3; 3]%Z [3]%Z 1, localgrids2)
             (model2_at [3; 3]%Z [3]%Z 1)).
    reflexivity.
Defined.

Lemma assign_pars_keeps_shape_witness :
  Forall bounds_match (fns model2) /\
  atnums (snd (assign_pars [7; 8]%Z model2)) = atnums model2 /\
  atcoords (snd (assign_pars [7; 8]%Z model2)) = atcoords model2 /\
  ncompute (snd (assign_pars [7; 8]%Z model2)) = ncompute model2 /\
  Forall2 same_function (fns model2) (fns (snd (assign_pars [7; 8]%Z model2))) /\
  Forall bounds_match (fns (snd (assign_pars [7; 8]%Z model2))).
Proof.
  assert (Hb : Forall bounds_match (fns model2)) by (repeat constructor).
  split; [exact Hb|].
  destruct (assign_pars_keeps_shape [7; 8]%Z model2) as (Ha & Hc & Hn & Hs & Hk).
  repeat split; try assumption. exact (Hk Hb).
Defined.

Lemma get_results_assign_pars_roundtrip_witness :
  get_results model2
  = (Ok (mkResults [1; 1]%Z [2; 1]%Z [1; 1; 2]%Z), model2) /\
  model2 = model2 /\
  propars (mkResults [1; 1]%Z [2; 1]%Z [1; 1; 2]%Z)
  = concat (map pars (fns model2)) /\
  assign_pars (propars (mkResults [1; 1]%Z [2; 1]%Z [1; 1; 2]%Z)) model2
  = (Ok tt, model2).
Proof.
  split; [reflexivity|].
  apply (get_results_assign_pars_roundtrip model2
           (mkResults [1; 1]%Z [2; 1]%Z [1; 1; 2]%Z) model2).
  reflexivity.
Defined.

Lemma assign_pars_overwrites_witness :
  assign_pars [7; 8; 9]%Z model2 = (Ok tt, model2_at [7; 8]%Z [9]%Z 0) /\
  total_npar (fns model2) <= length [4; 5; 6; 7]%Z /\
  assign_pars [4; 5; 6; 7]%Z (model2_at [7; 8]%Z [9]%Z 0)
  = assign_pars [4; 5; 6; 7]%Z model2 /\
  assign_pars [4; 5; 6; 7]%Z model2
  = (Ok tt, set_fns model2 (assigned (fns model2) [4; 5; 6; 7]%Z 0)).
Proof.
  split; [reflexivity|]. split; [vm_compute; lia|].
  apply (assign_pars_overwrites [7; 8; 9]%Z [4; 5; 6; 7]%Z model2
           (model2_at [7; 8]%Z [9]%Z 0)); [reflexivity|vm_compute; lia].
Defined.

Lemma get_results_counts_witness :
  valid_iatoms model2 /\ fns model2 <> [] /\
  exists r,
    get_results model2 = (Ok r, model2) /\
    length (atnfn r) = natom model2 /\ length (atnpar r) = natom model2 /\
    (forall a, a < natom model2 ->
       atnfn r !! a = Some (Z.of_nat (length (fns_of_atom model2 a))) /\
       atnpar r !! a = Some (Z.of_nat (total_npar (fns_of_atom model2 a)))) /\
    propars r = concat (map pars (fns model2)) /\
    zsum (atnfn r) = Z.of_nat (length (fns model2)) /\
    zsum (atnpar r) = Z.of_nat (length (propars r)).
Proof.
  split; [line_wf|]. split; [discriminate|].
  apply (get_results_counts model2); [line_wf|discriminate].
Defined.

Lemma stray_atom_index_raises_witness :
  Exists (fun fn => natom model_stray <= iatom fn) (fns model_stray) /\
  charges model_stray = (Raise (IndexError "index out of bounds"), model_stray) /\
  get_results model_stray
  = (Raise (IndexError "index out of bounds"), model_stray).
Proof.
  assert (Hex : Exists (fun fn => natom model_stray <= iatom fn) (fns model_stray)).
  { apply Exists_cons_tl, Exists_cons_hd. vm_compute. lia. }
  split; [exact Hex|]. exact (stray_atom_index_raises model_stray Hex).
Defined.

Lemma compute_density_spec_witness :
  Forall (localgrid_wf (length (weights grid5))) localgrids2 /\
  exists pro,
    compute_density grid5 localgrids2 model2
    = (Ok pro, set_ncompute model2 (ncompute model2 + 1)) /\
    length pro = length (weights grid5) /\
    (forall i, i < length (weights grid5) ->
       pro !! i = Some (density_at (fns model2) localgrids2 i)) /\
    (forall i, i < length (weights grid5) ->
       (forall lg, lg ∈ take (length (fns model2)) localgrids2 -> i ∉ indices lg) ->
       pro !! i = Some zero) /\
    compute_density grid5 (take (length (fns model2)) localgrids2) model2
    = compute_density grid5 localgrids2 model2.
Proof.
  split; [line_wf|]. apply (compute_density_spec model2 grid5 localgrids2). line_wf.
Defined.

Lemma compute_density_stray_index_witness :
  Forall (fun lg : LocalGrid Z Z => length (points lg) = length (indices lg))
         localgrids_stray /\
  Exists (fun lg : LocalGrid Z Z =>
            Exists (fun i => length (weights grid5) <= i) (indices lg))
         (take (length (fns model2)) localgrids_stray) /\
  compute_density grid5 localgrids_stray model2
  = (Raise (IndexError "index out of bounds"),
     set_ncompute model2 (ncompute model2 + 1)).
Proof.
  assert (Hshape : Forall (fun lg : LocalGrid Z Z =>
                             length (points lg) = length (indices lg))
                          localgrids_stray)
    by (repeat constructor).
  assert (Hex : Exists (fun lg : LocalGrid Z Z =>
                          Exists (fun i => length (weights grid5) <= i) (indices lg))
                       (take (length (fns model2)) localgrids_stray)).
  { apply Exists_cons_tl, Exists_cons_hd, Exists_cons_tl, Exists_cons_hd.
    vm_compute. lia. }
  split; [exact Hshape|]. split; [exact Hex|].
  exact (compute_density_stray_index model2 grid5 localgrids_stray Hshape Hex).
Defined.

Lemma proatoms_add_up_witness :
  valid_iatoms model2 /\ length (points grid5) = length (weights grid5) /\
  exists pro atoms,
    compute_density grid5 (map (fun _ => whole_grid grid5) (fns model2)) model2
    = (Ok pro, set_ncompute model2 (ncompute model2 + 1)) /\
    length atoms = natom model2 /\
    (forall a, a < natom model2 ->
       exists pa, atoms !! a = Some pa /\
                  compute_proatom a grid5 model2 = (Ok pa, model2)) /\
    forall i, i < length (weights grid5) ->
      nth i pro zero = fsum (map (fun pa => nth i pa zero) atoms).
Proof.
  split; [line_wf|]. split; [reflexivity|].
  apply (proatoms_add_up model2 grid5); [line_wf|reflexivity].
Defined.

Lemma ekld_long_vector_witness :
  total_npar (fns model2) <= length [1; 2; 3; 4]%Z /\
  ekld_inputs_wf model2 grid5 density5 localgrids2 /\
  exists pro,
    compute_density grid5 localgrids2
      (set_fns model2 (assigned (fns model2) [1; 2; 3; 4]%Z 0))
    = (Ok pro, after_ekld model2 [1; 2; 3; 4]%Z) /\
    concat (map pars (fns (after_ekld model2 [1; 2; 3; 4]%Z)))
    = take (total_npar (fns model2)) [1; 2; 3; 4]%Z /\
    ekld [1; 2; 3; 4]%Z grid5 density5 localgrids2 14%Z 3%Z model2
    = (Ok (sub (big_sum (length (weights grid5))
                        (kld_term grid5 density5 (lnratio_at density5 pro 3%Z)))
               (sub 14%Z (model_population (after_ekld model2 [1; 2; 3; 4]%Z))),
           concat (zip_with (fun fn lg =>
                               gradient_slice fn lg (ratio_at density5 pro 3%Z))
                            (fns (after_ekld model2 [1; 2; 3; 4]%Z)) localgrids2)
           ++ np_zeros (length [1; 2; 3; 4]%Z - total_npar (fns model2))),
       after_ekld model2 [1; 2; 3; 4]%Z).
Proof.
  split; [vm_compute; lia|]. split; [line_wf|].
  apply (ekld_long_vector model2 [1; 2; 3; 4]%Z grid5 density5 localgrids2 14%Z 3%Z);
    [vm_compute; lia | line_wf].
Defined.

Example ekld_long_vector_run :
  ekld [1; 2; 3; 4]%Z grid5 density5 localgrids2 14%Z 3%Z model2
  = (Ok (10%Z, [5; 5; 5; 0]%Z), model2_at [1; 2]%Z [3]%Z 1).
Proof. reflexivity. Qed.

Lemma ekld_missing_localgrids_witness :
  total_npar (fns model2) <= length [1; 2; 3]%Z /\
  length density5 = length (weights grid5) /\
  Forall (localgrid_wf (length (weights grid5))) (take 1 localgrids2) /\
  length (take 1 localgrids2) < length (fns model2) /\
  (exists pro,
     compute_density grid5 (take 1 localgrids2)
       (set_fns model2 (assigned (fns model2) [1; 2; 3]%Z 0))
     = (Ok pro, after_ekld model2 [1; 2; 3]%Z)) /\
  ekld [1; 2; 3]%Z grid5 density5 (take 1 localgrids2) 14%Z 3%Z model2
  = (Raise (IndexError "list index out of range"), after_ekld model2 [1; 2; 3]%Z).
Proof.
  split; [vm_compute; lia|]. split; [reflexivity|]. split; [line_wf|].
  split; [vm_compute; lia|].
  apply (ekld_missing_localgrids model2 [1; 2; 3]%Z grid5 density5
           (take 1 localgrids2) 14%Z 3%Z);
    [vm_compute; lia | reflexivity | line_wf | vm_compute; lia].
Defined.

Lemma ekld_effect_witness :
  (assign_pars [7; 8]%Z model2
   = (Raise (ValueError "could not broadcast input array"),
      model2_at [7; 8]%Z [2]%Z 0) /\
   ekld [7; 8]%Z grid5 density5 localgrids2 14%Z 3%Z model2
   = (Raise (ValueError "could not broadcast input array"),
      model2_at [7; 8]%Z [2]%Z 0)) /\
  (assign_pars [1; 2; 3]%Z model2 = (Ok tt, model2_at [1; 2]%Z [3]%Z 0) /\
   snd (ekld [1; 2; 3]%Z grid5 density5 localgrids2 14%Z 3%Z model2)
   = set_ncompute (model2_at [1; 2]%Z [3]%Z 0)
                  (ncompute (model2_at [1; 2]%Z [3]%Z 0) + 1) /\
   fst (ekld [1; 2; 3]%Z grid5 density5 localgrids2 14%Z 3%Z
             (snd (ekld [1; 2; 3]%Z grid5 density5 localgrids2 14%Z 3%Z model2)))
   = fst (ekld [1; 2; 3]%Z grid5 density5 localgrids2 14%Z 3%Z model2)).
Proof.
  split.
  - split; [reflexivity|].
    apply (proj1 (ekld_effect model2 [7; 8]%Z grid5 density5 localgrids2 14%Z 3%Z)).
    reflexivity.
  - split; [reflexivity|].
    apply (proj2 (ekld_effect model2 [1; 2; 3]%Z grid5 density5 localgrids2 14%Z 3%Z)).
    reflexivity.
Defined.

Lemma ekld_forgets_history_witness :
  Forall2 same_function (fns model2) (fns (model2_at [5; 5]%Z [5]%Z 3)) /\
  fst (ekld [1; 2; 3]%Z grid5 density5 localgrids2 14%Z 3%Z
            (model2_at [5; 5]%Z [5]%Z 3))
  = fst (ekld [1; 2; 3]%Z grid5 density5 localgrids2 14%Z 3%Z model2) /\
  (forall r,
     fst (ekld [1; 2; 3]%Z grid5 density5 localgrids2 14%Z 3%Z model2) = Ok r ->
     fns (snd (ekld [1; 2; 3]%Z grid5 density5 localgrids2 14%Z 3%Z
                    (model2_at [5; 5]%Z [5]%Z 3)))
     = fns (snd (ekld [1; 2; 3]%Z grid5 density5 localgrids2 14%Z 3%Z model2))).
Proof.
  assert (Hs : Forall2 same_function (fns model2) (fns (model2_at [5; 5]%Z [5]%Z 3)))
    by (repeat constructor).
  split; [exact Hs|].
  exact (ekld_forgets_history model2 (model2_at [5; 5]%Z [5]%Z 3) [1; 2; 3]%Z
           grid5 density5 localgrids2 14%Z 3%Z Hs).
Defined.

Lemma optimize_pro_model_no_functions_witness :
  fns model0 = [] /\ length density5 = length (weights grid5) /\
  optimize_pro_model settles grid5 density5 0%Z 0%Z model0
  = (Raise (ValueError "need at least one array to concatenate"), model0).
Proof.
  split; [reflexivity|]. split; [reflexivity|].
  apply (optimize_pro_model_no_functions settles grid5 density5 0%Z 0%Z model0);
    reflexivity.
Defined.

Lemma optimize_pro_model_aligned_bounds_witness :
  Forall bounds_match (fns model2) /\
  (forall x0 bs, length x0 = total_npar (fns model2) -> length bs = length x0 ->
     settles x0 bs 0%Z = settles_checked x0 bs 0%Z) /\
  optimize_pro_model settles grid5 density5 0%Z 0%Z model2
  = optimize_pro_model settles_checked grid5 density5 0%Z 0%Z model2.
Proof.
  assert (Hb : Forall bounds_match (fns model2)) by (repeat constructor).
  assert (Hagree : forall x0 bs,
            length x0 = total_npar (fns model2) -> length bs = length x0 ->
            settles x0 bs 0%Z = settles_checked x0 bs 0%Z).
  { intros x0 bs _ Hl. unfold settles_checked. rewrite Hl.
    rewrite Nat.eqb_refl. reflexivity. }
  split; [exact Hb|]. split; [exact Hagree|].
  exact (optimize_pro_model_aligned_bounds settles settles_checked grid5 density5
           0%Z 0%Z model2 Hb Hagree).
Defined.

Lemma optimize_pro_model_result_witness :
  optimize_pro_model settles grid5 density5 0%Z 0%Z model2
  = (Ok (model2_at [3; 3]%Z [3]%Z 1, localgrids2), model2_at [3; 3]%Z [3]%Z 1) /\
  np_einsum_i_i (weights grid5) density5 = Ok 14%Z /\
  run_minimizer
    (fun pars' => ekld pars' grid5 density5 localgrids2 14%Z ekld_default_cutoff)
    (settles (concat (map pars (fns model2)))
             (concat (map bounds (fns model2))) 0%Z) model2
  = (Ok (mkOptimizeResult [3; 3; 3]%Z true "converged"),
     model2_at [1; 1]%Z [2]%Z 1) /\
  valid_iatoms model2 /\
  length [3; 3; 3]%Z = total_npar (fns model2) /\
  exists res,
    get_results (model2_at [3; 3]%Z [3]%Z 1)
    = (Ok res, model2_at [3; 3]%Z [3]%Z 1) /\
    propars res = [3; 3; 3]%Z.
Proof.
  assert (Hret : optimize_pro_model settles grid5 density5 0%Z 0%Z model2
                 = (Ok (model2_at [3; 3]%Z [3]%Z 1, localgrids2),
                    model2_at [3; 3]%Z [3]%Z 1)) by reflexivity.
  assert (Hv : valid_iatoms model2) by line_wf.
  split; [exact Hret|]. split; [reflexivity|]. split; [reflexivity|].
  split; [exact Hv|]. split; [reflexivity|].
  destruct (optimize_pro_model_result settles grid5 density5 0%Z 0%Z model2 _ _ Hret)
    as (_ & _ & _ & Hres).
  apply (Hres 14%Z (mkOptimizeResult [3; 3; 3]%Z true "converged")
              (model2_at [1; 1]%Z [2]%Z 1));
    [reflexivity | reflexivity | exact Hv | reflexivity].
Defined.

Lemma restrict_wf (grid : Grid Z Z) (c r : Z) :
  length (points grid) = length (weights grid) ->
  localgrid_wf (length (weights grid)) (restrict grid c r).
Proof.
  intros Hg. unfold localgrid_wf, restrict. cbn [points weights indices lgrid].
  rewrite !length_map. split; [done|]. split; [done|].
  apply Forall_forall. intros i Hi.
  apply list_elem_of_fmap in Hi as ([j pw] & -> & Hin).
  apply list_elem_of_filter in Hin as (_ & Hin).
  apply elem_of_zip_l in Hin. cbn [fst]. apply elem_of_seq in Hin. lia.
Qed.

Lemma compute_radial_moments_shape_witness :
  compute_radial_moments grid5 density5 localgrids2 2 model2
  = (Ok [[2; 2; 2]; [2; 2; 2]]%Z, model2_at [1; 1]%Z [2]%Z 1) /\
  (0 <= 2 + 1)%Z /\
  length [[2; 2; 2]; [2; 2; 2]]%Z = natom model2 /\
  Forall (fun row => length row = Z.to_nat (2 + 1)) [[2; 2; 2]; [2; 2; 2]]%Z.
Proof.
  split; [reflexivity|].
  apply (compute_radial_moments_shape grid5 density5 localgrids2 2 model2
           [[2; 2; 2]; [2; 2; 2]]%Z (model2_at [1; 1]%Z [2]%Z 1)).
  reflexivity.
Defined.

Lemma compute_radial_moments_negative_nmax_witness :
  (-3 + 1 < 0)%Z /\
  Forall (localgrid_wf (length (weights grid5))) localgrids2 /\
  compute_radial_moments grid5 density5 localgrids2 (-3) model2
  = (Raise (ValueError "negative dimensions are not allowed"),
     set_ncompute model2 (ncompute model2 + 1)).
Proof.
  split; [lia|]. split; [line_wf|].
  apply (compute_radial_moments_negative_nmax grid5 density5 localgrids2 (-3) model2);
    [lia|line_wf].
Defined.

Lemma compute_radial_moments_spec_witness :
  Forall (localgrid_wf (length (weights grid5))) localgrids2 /\
  (forall c r, localgrid_wf (length (weights grid5)) (get_localgrid grid5 c r)) /\
  length density5 = length (weights grid5) /\
  length (atcoords model2) <= natom model2 /\
  (0 <= 2 + 1)%Z /\
  exists pro result,
    compute_density grid5 localgrids2 model2
    = (Ok pro, set_ncompute model2 (ncompute model2 + 1)) /\
    compute_radial_moments grid5 density5 localgrids2 2 model2
    = (Ok result, set_ncompute model2 (ncompute model2 + 1)) /\
    length result = natom model2 /\
    (forall a c, atcoords model2 !! a = Some c ->
       compute_proatom a (get_localgrid grid5 c (lit 8 0))
                       (set_ncompute model2 (ncompute model2 + 1))
       = (Ok (proatom_array model2 a (get_localgrid grid5 c (lit 8 0))),
          set_ncompute model2 (ncompute model2 + 1)) /\
       result !! a
       = Some (map (radial_moment (get_localgrid grid5 c (lit 8 0)) c density5 pro
                      (proatom_array model2 a (get_localgrid grid5 c (lit 8 0))))
                   (seq 0 (Z.to_nat (2 + 1))))) /\
    (forall a, length (atcoords model2) <= a < natom model2 ->
       result !! a = Some (np_zeros (Z.to_nat (2 + 1)))).
Proof.
  assert (Hget : forall c r,
            localgrid_wf (length (weights grid5)) (get_localgrid grid5 c r))
    by (intros c r; by apply restrict_wf).
  split; [line_wf|]. split; [exact Hget|]. split; [reflexivity|].
  split; [vm_compute; lia|]. split; [lia|].
  apply (compute_radial_moments_spec grid5 density5 localgrids2 2 model2);
    [line_wf | exact Hget | reflexivity | vm_compute; lia | lia].
Defined.

Lemma bounds_match_kept_witness :
  Forall bounds_match (fns model2) /\
  BasisFunction_init 0 1%Z [1; 1]%Z [(0, 9); (0, 9)]%Z = Ok fn_a /\
  Forall bounds_match
    (fns (snd (ekld [7; 8]%Z grid5 density5 localgrids2 14%Z 3%Z model2))) /\
  Forall bounds_match
    (fns (snd (optimize_pro_model gives_up grid5 density5 0%Z 0%Z model2))) /\
  Forall bounds_match
    (fns (snd (compute_radial_moments grid5 density5 localgrids2 2 model2))) /\
  bounds_match fn_a.
Proof.
  assert (Hb : Forall bounds_match (fns model2)) by (repeat constructor).
  destruct (bounds_match_kept gives_up [7; 8]%Z grid5 density5 localgrids2
              14%Z 3%Z 0%Z 2 model2 Hb) as (He & Ho & Hr & Hinit).
  split; [exact Hb|]. split; [reflexivity|]. split; [exact He|].
  split; [exact Ho|]. split; [exact Hr|].
  apply (Hinit 0 1%Z [1; 1]%Z [(0, 9); (0, 9)]%Z fn_a). reflexivity.
Defined.

Lemma ekld_all_masked_witness :
  length [1; 2; 3]%Z = total_npar (fns model2) /\
  ekld_inputs_wf model2 grid5 density5 localgrids2 /\
  (forall i, i < length (weights grid5) -> ltb (nth i density5 zero) 9%Z = true) /\
  ekld [1; 2; 3]%Z grid5 density5 localgrids2 14%Z 9%Z model2
  = (Ok (sub zero (sub 14%Z (model_population (after_ekld model2 [1; 2; 3]%Z))),
         concat (map population_derivatives (fns (after_ekld model2 [1; 2; 3]%Z)))),
     after_ekld model2 [1; 2; 3]%Z).
Proof.
  assert (Hlow : forall i, i < length (weights grid5) ->
            ltb (nth i density5 zero) 9%Z = true).
  { intros i Hi. do 5 (destruct i as [|i]; [reflexivity|]). simpl in Hi. lia. }
  split; [reflexivity|]. split; [line_wf|]. split; [exact Hlow|].
  apply (ekld_all_masked model2 [1; 2; 3]%Z grid5 density5 localgrids2 14%Z 9%Z);
    [reflexivity | line_wf | exact Hlow].
Defined.
End LineRuns.

(** ** Runs in binary64 *)

Module FloatRuns.
Import (notations) PrimFloat.
Import FloatScalar FloatLine.

(** Two numbers that a function tells apart are different. *)
Lemma float_differ (f : PrimFloat.float -> bool) (x y : PrimFloat.float) :
  f x <> f y -> x <> y.
Proof. intros Hf ->. by apply Hf. Qed.

(** The charges of [model_small], whatever stands for [np.log]. *)
Lemma charges_small_any_log flog :
  charges (H := float_scalar flog) model_small = (Ok [2%float], model_small) /\
  sub (Scalar := float_scalar flog) (of_Z (Scalar := float_scalar flog) 2)
      (atom_population (H := float_scalar flog) model_small 0)
  = 0x1.fffffffffffffp+0%float.
Proof. split; vm_compute; reflexivity. Qed.

(** The value and the gradient of [ekld] on the one-point grid, whatever
    stands for [np.log]: the only point is masked. *)
Lemma ekld_overflow_any_log flog :
  ekld (H := float_scalar flog) [0%float] grid1 density1 localgrids1 1%float
       (ekld_default_cutoff (H := float_scalar flog)) model_flat
  = (Ok (PrimFloat.nan, [1%float]), after_ekld model_flat [0%float]).
Proof. vm_compute. reflexivity. Qed.

(** The claim of C5 fails in binary64.  The atom of [model_small] has the
    atomic number [2] and two functions of population [2^-53].  The loop of
    [charges] subtracts them one after the other and each subtraction rounds
    back to [2], so the charge is [2]; the atomic number minus the summed
    populations is [2 - 2^-52 = 1.9999999999999998], and so is the sum of the
    atomic numbers minus the population of the model, while the charges sum
    to [2]. *)
Lemma charges_rounding :
  valid_iatoms model_small /\
  charges model_small = (Ok [2%float], model_small) /\
  [2%float] !! 0 <> Some (sub (of_Z 2) (atom_population model_small 0)) /\
  sub (of_Z 2) (atom_population model_small 0) = 0x1.fffffffffffffp+0%float /\
  fsum [2%float] = 2%float /\
  sub (fsum (map of_Z (atnums model_small))) (model_population model_small)
  = 0x1.fffffffffffffp+0%float /\
  2%float <> 0x1.fffffffffffffp+0%float.
Proof.
  assert (Hne : 2%float <> 0x1.fffffffffffffp+0%float).
  { apply (float_differ (PrimFloat.eqb 2)). vm_compute. discriminate. }
  split; [unfold valid_iatoms; simpl; repeat constructor|].
  split; [vm_compute; reflexivity|].
  split.
  { assert (Hv : sub (of_Z 2) (atom_population model_small 0)
                 = 0x1.fffffffffffffp+0%float) by (vm_compute; reflexivity).
    rewrite Hv. intros Heq. apply Hne. simpl in Heq. congruence. }
  split; [vm_compute; reflexivity|].
  split; [vm_compute; reflexivity|].
  split; [vm_compute; reflexivity|].
  exact Hne.
Qed.

(** The claim of C3 fails in binary64.  The grid has one point, of weight
    [2^600], where the reference density is [2^600]; the model density there
    is [0], below the default cutoff, so the point is masked.  Its term in
    the value is [(2^600 * 2^600) * 0]: the product overflows to infinity,
    and infinity times zero is not a number.  The value that [ekld] returns
    is therefore not a number, where a zero contribution would leave
    [0 - (1 - 0)]. *)
Lemma ekld_masked_point_not_zero :
  length [0%float] = total_npar (fns model_flat) /\
  ekld_inputs_wf model_flat grid1 density1 localgrids1 /\
  compute_density grid1 localgrids1
    (set_fns model_flat (assigned (fns model_flat) [0%float] 0))
  = (Ok [0%float], after_ekld model_flat [0%float]) /\
  sick_at density1 [0%float] ekld_default_cutoff 0 = true /\
  kld_term grid1 density1 (lnratio_at density1 [0%float] ekld_default_cutoff) 0
  = PrimFloat.nan /\
  ekld [0%float] grid1 density1 localgrids1 1%float ekld_default_cutoff model_flat
  = (Ok (PrimFloat.nan, [1%float]), after_ekld model_flat [0%float]) /\
  PrimFloat.nan <> zero.
Proof.
  split; [reflexivity|].
  split; [unfold ekld_inputs_wf, localgrid_wf; simpl; repeat constructor|].
  split; [vm_compute; reflexivity|].
  split; [vm_compute; reflexivity|].
  split; [vm_compute; reflexivity|].
  split; [vm_compute; reflexivity|].
  apply (float_differ PrimFloat.is_nan). vm_compute. discriminate.
Qed.
End FloatRuns.
